(** * The object-store integrity checker of the cloud recycler

    A shallow embedding of [cloud/src/recycler/checker.cpp] (the checker
    daemon, the per-instance forward and inverted checks, the interval
    inspector) and of [cloud/src/recycler/sync_executor.h] (the fan-out
    helper), with the properties the specification states about them.

    Conventions.
    - [int64_t] and [long] values are [Z]; where the source multiplies or
      subtracts 64-bit values the two's-complement wrap-around is written
      out ([wrap64]); so it is where file sizes are summed.  Counters that
      only count loop iterations are plain [Z]: they are bounded by the
      number of records scanned.
    - [std::unordered_map<std::string, V>] is [gmap string V],
      [std::unordered_set<std::string>] is [gset string].
    - External calls (KV transactions, object-store listings, protobuf
      decoding, clocks) are inputs of the functions: the value the call
      returned is an argument, in the order the source makes the calls.
    - Threads are interleaved as atomic steps of a transition function; a
      step is one critical section or one access to an atomic flag. *)

From Stdlib Require Import ZArith List Bool Ascii String Lia.
From stdpp Require Import base option list gmap strings fin_maps pretty.

Local Open Scope Z_scope.

(** ** Shared data model *)

(** [InstanceInfoPB::Status] of gen_cpp/cloud.pb.h. *)
Inductive InstanceStatus := NORMAL | DELETED | OVERDUE.

Global Instance InstanceStatus_eq_dec : EqDecision InstanceStatus.
Proof. solve_decision. Defined.

(** The fields of [InstanceInfoPB] the checker reads.  [obj_info] and
    [resource_ids] only feed [InstanceChecker::init], whose result is an
    input here. *)
Record InstanceInfoPB := {
  instance_id : string;
  status : InstanceStatus;
  ctime : Z
}.

(** The [config::] values read by checker.cpp. *)
Record Config := {
  recycle_whitelist : list string;
  recycle_blacklist : list string;
  enable_inverted_check : bool;
  reserved_buffer_days : Z
}.

(** Modelled from the spec: [InstanceFilter::filter_out] is declared in
    recycler/checker.h and defined outside the sources at hand; section 4.1
    gives it: with a non-empty whitelist reject the ids not in it, otherwise
    reject the ids of the blacklist. *)
Definition filter_out (cfg : Config) (id : string) : bool :=
  match recycle_whitelist cfg with
  | [] => bool_decide (id ∈ recycle_blacklist cfg)
  | _ :: _ => negb (bool_decide (id ∈ recycle_whitelist cfg))
  end.

(** [TxnErrorCode] of meta-service/txn_kv_error.h: the two codes the checker
    tells apart, and the remaining error codes, which every call site of
    checker.cpp treats alike. *)
Inductive TxnErrorCode := TXN_OK | TXN_KEY_NOT_FOUND | TXN_ERROR (code : Z).

Global Instance TxnErrorCode_eq_dec : EqDecision TxnErrorCode.
Proof. solve_decision. Defined.

Definition INT64_MAX : Z := 9223372036854775807.
Definition INT64_MIN : Z := -9223372036854775808.

(** Two's-complement reduction to 64 bits. *)
Definition wrap64 (z : Z) : Z := (z + 2 ^ 63) mod 2 ^ 64 - 2 ^ 63.

Definition in_int64 (z : Z) : Prop := INT64_MIN <= z <= INT64_MAX.

(** ** The checker daemon: [Checker::start], [Checker::stop],
       [Checker::lease_check_jobs] *)

Module Daemon.

(** Where a check worker ([checker_func]) stands in its loop body.  Each
    constructor is a point at which the worker holds no lock, so that other
    threads may run; the local variables alive there are its arguments. *)
Inductive worker_pc :=
| AtWait
    (* at [pending_instance_cond_.wait], or about to re-test [stopped()] *)
| Popped (instance : InstanceInfoPB) (enqueue_time_s : Z)
    (* left the first critical section; before "skip instance in recycling" *)
| Claimed (instance : InstanceInfoPB) (enqueue_time_s : Z)
    (* not found in working_instance_map_; before init and prepare *)
| Emplaced (instance : InstanceInfoPB) (enqueue_time_s : Z) (checker : nat)
    (* recorded in working_instance_map_; before [if (stopped()) return] *)
| Checking (instance : InstanceInfoPB) (checker : nat) (ctime_ms : Z)
    (* do_check (and do_inverted_check) in flight *)
| Erasing (instance : InstanceInfoPB)
    (* past finish_instance_recycle_job; before the final critical section *)
| Exited.
    (* the thread function returned *)

(** What the environment answers to the calls a worker makes outside the
    daemon's own state. *)
Record outcome := {
  init_ret : Z;              (* checker->init(instance) *)
  prepare_ret : Z;           (* prepare_instance_recycle_job(...) *)
  now_ms : Z;                (* system_clock::now() in milliseconds *)
  do_check_ret : Z;          (* checker->do_check() *)
  do_inverted_check_ret : Z  (* checker->do_inverted_check() *)
}.

(** A call of [finish_instance_recycle_job]: instance id, [success], [ctime_ms]. *)
Record finish_call := {
  fin_instance_id : string;
  fin_success : bool;
  fin_ctime_ms : Z
}.

(** The members of [Checker] and the locals of its threads.  An
    [InstanceChecker] is shared between the worker that made it and
    [working_instance_map_] (a [shared_ptr]); [checkers] is the store of
    their [stopped_] flags and both sides hold an index into it. *)
Record Checker := {
  pending_instance_queue_ : list InstanceInfoPB;
  pending_instance_map_ : gmap string Z;
  working_instance_map_ : gmap string nat;
  checkers : list bool;
  stopped_ : bool;
  workers_ : list worker_pc;
  finish_calls : list finish_call;
  enqueue_cost_s : list (string * Z)
}.

Definition set_worker (w : nat) (pc : worker_pc) (s : Checker) : Checker :=
  {| pending_instance_queue_ := pending_instance_queue_ s;
     pending_instance_map_ := pending_instance_map_ s;
     working_instance_map_ := working_instance_map_ s;
     checkers := checkers s;
     stopped_ := stopped_ s;
     workers_ := <[w := pc]> (workers_ s);
     finish_calls := finish_calls s;
     enqueue_cost_s := enqueue_cost_s s |}.

(** The daemon after [start()] launched [n] check workers. *)
Definition start (n : nat) : Checker :=
  {| pending_instance_queue_ := [];
     pending_instance_map_ := ∅;
     working_instance_map_ := ∅;
     checkers := [];
     stopped_ := false;
     workers_ := replicate n AtWait;
     finish_calls := [];
     enqueue_cost_s := [] |}.

(** One iteration of the scanner's [for (auto& instance : instances)]. *)
Definition enqueue_one (cfg : Config) (s : Checker)
    (it : InstanceInfoPB * Z) : Checker :=
  let '(instance, enqueue_time_s) := it in
  if filter_out cfg (instance_id instance) then s
  else if decide (status instance = DELETED) then s
  else
    match pending_instance_map_ s !! instance_id instance with
    | Some _ => s (* insert fails: already in the pending queue *)
    | None =>
        {| pending_instance_queue_ := pending_instance_queue_ s ++ [instance];
           pending_instance_map_ :=
             <[instance_id instance := enqueue_time_s]> (pending_instance_map_ s);
           working_instance_map_ := working_instance_map_ s;
           checkers := checkers s;
           stopped_ := stopped_ s;
           workers_ := workers_ s;
           finish_calls := finish_calls s;
           enqueue_cost_s := enqueue_cost_s s |}
    end.

(** The scanner's critical section: every listed instance comes with the clock
    reading of its iteration. *)
Definition scan (cfg : Config) (instances : list (InstanceInfoPB * Z))
    (s : Checker) : Checker :=
  fold_left (enqueue_one cfg) instances s.

(** [ret] after do_check and the optional do_inverted_check. *)
Definition combined_ret (cfg : Config) (o : outcome) : Z :=
  if enable_inverted_check cfg
  then (if decide (do_inverted_check_ret o = 0) then do_check_ret o else -1)
  else do_check_ret o.

(** [checker->stopped()]. *)
Definition checker_stopped (s : Checker) (c : nat) : bool :=
  default false (checkers s !! c).

(** The next atomic action of worker [w]. *)
Definition work (cfg : Config) (w : nat) (o : outcome) (s : Checker) : Checker :=
  match workers_ s !! w with
  | None => s
  | Some AtWait =>
      if stopped_ s then set_worker w Exited s
      else
        match pending_instance_queue_ s with
        | [] => s (* keeps waiting on pending_instance_cond_ *)
        | instance :: rest =>
            let enqueue_time_s :=
              default 0 (pending_instance_map_ s !! instance_id instance) in
            {| pending_instance_queue_ := rest;
               pending_instance_map_ :=
                 delete (instance_id instance) (pending_instance_map_ s);
               working_instance_map_ := working_instance_map_ s;
               checkers := checkers s;
               stopped_ := stopped_ s;
               workers_ := <[w := Popped instance enqueue_time_s]> (workers_ s);
               finish_calls := finish_calls s;
               enqueue_cost_s := enqueue_cost_s s |}
        end
  | Some (Popped instance enqueue_time_s) =>
      match working_instance_map_ s !! instance_id instance with
      | Some _ => set_worker w AtWait s (* skip instance in recycling *)
      | None => set_worker w (Claimed instance enqueue_time_s) s
      end
  | Some (Claimed instance enqueue_time_s) =>
      let checker := length (checkers s) in
      if decide (init_ret o = 0) then
        if decide (prepare_ret o = 0) then
          {| pending_instance_queue_ := pending_instance_queue_ s;
             pending_instance_map_ := pending_instance_map_ s;
             working_instance_map_ :=
               (* emplace keeps an entry that is already there *)
               match working_instance_map_ s !! instance_id instance with
               | Some _ => working_instance_map_ s
               | None => <[instance_id instance := checker]> (working_instance_map_ s)
               end;
             checkers := checkers s ++ [false];
             stopped_ := stopped_ s;
             workers_ :=
               <[w := Emplaced instance enqueue_time_s checker]> (workers_ s);
             finish_calls := finish_calls s;
             enqueue_cost_s := enqueue_cost_s s |}
        else set_worker w AtWait s
      else set_worker w AtWait s
  | Some (Emplaced instance enqueue_time_s checker) =>
      if stopped_ s then set_worker w Exited s
      else
        {| pending_instance_queue_ := pending_instance_queue_ s;
           pending_instance_map_ := pending_instance_map_ s;
           working_instance_map_ := working_instance_map_ s;
           checkers := checkers s;
           stopped_ := stopped_ s;
           workers_ := <[w := Checking instance checker (now_ms o)]> (workers_ s);
           finish_calls := finish_calls s;
           enqueue_cost_s :=
             enqueue_cost_s s
               ++ [(instance_id instance, now_ms o `quot` 1000 - enqueue_time_s)] |}
  | Some (Checking instance checker ctime_ms) =>
      let ret := combined_ret cfg o in
      if decide (ret = -1) then set_worker w Exited s
      else
        {| pending_instance_queue_ := pending_instance_queue_ s;
           pending_instance_map_ := pending_instance_map_ s;
           working_instance_map_ := working_instance_map_ s;
           checkers := checkers s;
           stopped_ := stopped_ s;
           workers_ := <[w := Erasing instance]> (workers_ s);
           finish_calls :=
             (* If instance checker has been aborted, don't finish this job *)
             if checker_stopped s checker then finish_calls s
             else finish_calls s
                    ++ [{| fin_instance_id := instance_id instance;
                           fin_success := bool_decide (ret = 0);
                           fin_ctime_ms := ctime_ms |}];
           enqueue_cost_s := enqueue_cost_s s |}
  | Some (Erasing instance) =>
      {| pending_instance_queue_ := pending_instance_queue_ s;
         pending_instance_map_ := pending_instance_map_ s;
         working_instance_map_ :=
           delete (instance_id instance) (working_instance_map_ s);
         checkers := checkers s;
         stopped_ := stopped_ s;
         workers_ := <[w := AtWait]> (workers_ s);
         finish_calls := finish_calls s;
         enqueue_cost_s := enqueue_cost_s s |}
  | Some Exited => s
  end.

(** [it->second->stop()] on the entry of [id], when there is one. *)
Definition stop_checker_of (id : string) (s : Checker) : list bool :=
  match working_instance_map_ s !! id with
  | Some c => <[c := true]> (checkers s)
  | None => checkers s
  end.

(** The lease thread after [lease_instance_recycle_job] answered [ret] for [id]. *)
Definition lease (id : string) (ret : Z) (s : Checker) : Checker :=
  if decide (ret = 1) then
    {| pending_instance_queue_ := pending_instance_queue_ s;
       pending_instance_map_ := pending_instance_map_ s;
       working_instance_map_ := working_instance_map_ s;
       checkers := stop_checker_of id s;
       stopped_ := stopped_ s;
       workers_ := workers_ s;
       finish_calls := finish_calls s;
       enqueue_cost_s := enqueue_cost_s s |}
  else s.

(** [Checker::stop()] up to the joins. *)
Definition stop (s : Checker) : Checker :=
  {| pending_instance_queue_ := pending_instance_queue_ s;
     pending_instance_map_ := pending_instance_map_ s;
     working_instance_map_ := working_instance_map_ s;
     checkers :=
       map_fold (fun _ c cs => <[c := true]> cs) (checkers s)
                (working_instance_map_ s);
     stopped_ := true;
     workers_ := workers_ s;
     finish_calls := finish_calls s;
     enqueue_cost_s := enqueue_cost_s s |}.

Inductive event :=
| Scan (instances : list (InstanceInfoPB * Z))
| Work (w : nat) (o : outcome)
| Lease (id : string) (ret : Z)
| Stop.

Definition step (cfg : Config) (ev : event) (s : Checker) : Checker :=
  match ev with
  | Scan instances => scan cfg instances s
  | Work w o => work cfg w o s
  | Lease id ret => lease id ret s
  | Stop => stop s
  end.

(** The states the daemon reaches from [start n] by steps the schedule
    [allowed] admits. *)
Inductive reachable (cfg : Config) (n : nat)
    (allowed : Checker -> event -> Prop) : Checker -> Prop :=
| reach_start : reachable cfg n allowed (start n)
| reach_step s ev :
    reachable cfg n allowed s -> allowed s ev ->
    reachable cfg n allowed (step cfg ev s).

(** Every interleaving. *)
Definition any_schedule (s : Checker) (ev : event) : Prop := True.

Definition queue_ids (s : Checker) : list string :=
  instance_id <$> pending_instance_queue_ s.

(** The id a worker took out of the pending queue and has not yet recorded
    in, or dropped for, the working map. *)
Definition pc_holds (pc : worker_pc) : option string :=
  match pc with
  | Popped instance _ | Claimed instance _ => Some (instance_id instance)
  | _ => None
  end.

Definition held (s : Checker) (id : string) : Prop :=
  exists w pc, workers_ s !! w = Some pc /\ pc_holds pc = Some id.

(** The instances an iteration of the scanner would enqueue if they are new. *)
Definition enqueueable (cfg : Config) (instance : InstanceInfoPB) : bool :=
  negb (filter_out cfg (instance_id instance))
  && negb (bool_decide (status instance = DELETED)).

(** The interleavings in which a scan lists no instance that a worker holds
    or that is being checked. *)
Definition scanner_defers (cfg : Config) (s : Checker) (ev : event) : Prop :=
  match ev with
  | Scan instances =>
      forall instance t, (instance, t) ∈ instances ->
        enqueueable cfg instance = true ->
        ~ held s (instance_id instance)
        /\ instance_id instance ∉ dom (working_instance_map_ s)
  | _ => True
  end.

Definition pending_working_disjoint (s : Checker) : Prop :=
  dom (pending_instance_map_ s) ## dom (working_instance_map_ s).

(** [pending_instance_map_] has exactly the ids of [pending_instance_queue_],
    each once. *)
Definition queue_matches_map (s : Checker) : Prop :=
  NoDup (queue_ids s)
  /\ forall id, id ∈ dom (pending_instance_map_ s) <-> id ∈ queue_ids s.

Definition holders_not_pending (s : Checker) : Prop :=
  forall id, held s id -> id ∉ dom (pending_instance_map_ s).

(** The three facts kept by the interleavings of [scanner_defers]. *)
Definition deferring_invariant (s : Checker) : Prop :=
  queue_matches_map s /\ holders_not_pending s /\ pending_working_disjoint s.

(** A run of the daemon from [start n]. *)
Definition run (cfg : Config) (n : nat) (evs : list event) : Checker :=
  fold_left (fun s ev => step cfg ev s) evs (start n).

(** The checker a worker made and still uses. *)
Definition pc_checker (pc : worker_pc) : option nat :=
  match pc with
  | Emplaced _ _ checker | Checking _ checker _ => Some checker
  | _ => None
  end.

(** Every [shared_ptr<InstanceChecker>] in the working map or in the hands
    of a worker points into the store of checkers. *)
Definition checkers_allocated (s : Checker) : Prop :=
  (forall id c, working_instance_map_ s !! id = Some c ->
     (c < length (checkers s))%nat)
  /\ (forall w pc c, workers_ s !! w = Some pc -> pc_checker pc = Some c ->
        (c < length (checkers s))%nat).

(** *** Scenarios *)

Definition i1 : InstanceInfoPB :=
  {| instance_id := "i1"; status := NORMAL; ctime := 0 |}.

Definition plain_config : Config :=
  {| recycle_whitelist := []; recycle_blacklist := [];
     enable_inverted_check := false; reserved_buffer_days := 3 |}.

(** Every call succeeds and the check is clean. *)
Definition clean : outcome :=
  {| init_ret := 0; prepare_ret := 0; now_ms := 1700000000000;
     do_check_ret := 0; do_inverted_check_ret := 0 |}.

(** The range iterator of do_check turns invalid: do_check returns -1. *)
Definition scan_error : outcome :=
  {| init_ret := 0; prepare_ret := 0; now_ms := 1700000000000;
     do_check_ret := -1; do_inverted_check_ret := 0 |}.

(** One worker takes [i1] from the queue and records it as working. *)
Definition until_emplaced : list event :=
  [Scan [(i1, 1699999999)]; Work 0 clean; Work 0 clean; Work 0 clean].

(** ... and the scanner's next cycle lists [i1] again. *)
Definition rescanned : list event :=
  until_emplaced ++ [Scan [(i1, 1700000060)]].

(** The worker starts the check of [i1] ... *)
Definition until_checking : list event :=
  until_emplaced ++ [Work 0 clean].

(** An instance marked DELETED, and one the blacklist names. *)
Definition i2_deleted : InstanceInfoPB :=
  {| instance_id := "i2"; status := DELETED; ctime := 0 |}.
Definition i3 : InstanceInfoPB :=
  {| instance_id := "i3"; status := NORMAL; ctime := 0 |}.
Definition without_i3 : Config :=
  {| recycle_whitelist := []; recycle_blacklist := ["i3"];
     enable_inverted_check := false; reserved_buffer_days := 3 |}.

(** ... and do_check comes back with -1. *)
Definition check_aborted : list event :=
  until_checking ++ [Work 0 scan_error].

(** The inverted check is switched on. *)
Definition inverted_config : Config :=
  {| recycle_whitelist := []; recycle_blacklist := [];
     enable_inverted_check := true; reserved_buffer_days := 3 |}.

(** do_check is clean and do_inverted_check finds an orphan: it returns -1. *)
Definition orphan_found : outcome :=
  {| init_ret := 0; prepare_ret := 0; now_ms := 1700000000000;
     do_check_ret := 0; do_inverted_check_ret := -1 |}.

(** do_check reports a lost segment (-2), do_inverted_check is clean. *)
Definition segment_lost : outcome :=
  {| init_ret := 0; prepare_ret := 0; now_ms := 1700000000000;
     do_check_ret := -2; do_inverted_check_ret := 0 |}.

End Daemon.

(** ** The per-instance checker: [InstanceChecker] *)

Module InstanceChecker.

(** The fields of [doris::RowsetMetaCloudPB] the checks read. *)
Record RowsetMetaCloudPB := {
  tablet_id : Z;          (* int64 *)
  rowset_id_v2 : string;
  resource_id : string;
  num_segments : Z        (* int32 *)
}.

(** What [ListIterator::next] yields. *)
Record FileMeta := {
  path : string;
  size : Z
}.

(** A call of [list_directory]: its return code, the files the iterator
    yields until [next()] is empty, and [is_valid()] after that. *)
Record listing := {
  list_ret : Z;
  list_files : list FileMeta;
  list_valid : bool
}.

Inductive AccessorType := MOCK | S3 | HDFS.

Global Instance AccessorType_eq_dec : EqDecision AccessorType.
Proof. solve_decision. Defined.

(** [StorageVault] (recycler/storage_vault.h) with its accessor, as the
    capabilities the checker uses.  The answers of the object store are
    fixed for the duration of one check. *)
Record StorageVault := {
  accessor_type : AccessorType;
  uri : string;
  list_directory : string -> listing;
  tablet_path : Z -> string;
  segment_path : Z -> string -> Z -> string;
  check_versioning : Z;        (* S3Accessor::check_versioning() *)
  get_life_cycle : Z * Z       (* S3Accessor::get_life_cycle: return code, days *)
}.

(** A fresh transaction and one [get] in it. *)
Record txn_probe := {
  create_txn : TxnErrorCode;
  get : TxnErrorCode
}.

(** What [full_range_get] delivers: the pairs [next()] yields, each value
    with the result of [ParseFromArray] on it ([None]: malformed), and
    [is_valid()] once [next()] is empty. *)
Record range := {
  range_kvs : list (string * option RowsetMetaCloudPB);
  range_valid : bool
}.

(** The KV store as one check sees it. [kv_probe n key] is the answer to the
    [n]-th call of [key_exist] when it asks for [key]: the store changes
    while the check runs. *)
Record TxnKv := {
  visible_rowsets : range;              (* [meta_rowset/id/0/0, meta_rowset/id/INT64_MAX/0) *)
  tablet_rowsets : Z -> range;          (* [meta_rowset/id/t/0, meta_rowset/id/t/INT64_MAX) *)
  kv_probe : nat -> string -> txn_probe
}.

Inductive warning :=
| failed_to_init_txn
| resource_id_not_found (resource_id : string) (tablet_id : Z) (rowset_id : string)
| object_not_exist (path key : string)
| malformed_rowset_meta (key : string)
| failed_to_get_rowset_kv
| failed_to_parse_tablet_id (key : string)
| failed_to_parse_rowset_id (key : string)
| rowset_not_exists (key : string)
| malformed_rowset_meta_value (key : string)
| failed_to_check_segment_file (uri path : string)
| failed_to_list_data_directory (uri : string).

(** return 0 for success get a key, 1 for key not found, negative for error *)
Definition key_exist (p : txn_probe) : Z * list warning :=
  match create_txn p with
  | TXN_OK =>
      match get p with
      | TXN_OK => (0, [])
      | TXN_KEY_NOT_FOUND => (1, [])
      | TXN_ERROR _ => (-1, [])
      end
  | _ => (-1, [failed_to_init_txn])
  end.

Record InstanceChecker := {
  instance_id_ : string;
  storage_vault_map_ : gmap string StorageVault
}.

(** *** Forward check: [do_check] *)

Record TabletFiles := {
  tf_tablet_id : Z;
  files : gset string;
  storage_vault : option StorageVault
}.

Definition empty_TabletFiles : TabletFiles :=
  {| tf_tablet_id := 0; files := ∅; storage_vault := None |}.

(** The locals of [do_check] that outlive one loop iteration, the number of
    [key_exist] calls made so far, and the WARNING lines written. *)
Record check_state := {
  num_scanned : Z;
  num_scanned_with_segment : Z;
  num_check_failed : Z;
  instance_volume : Z;
  tablet_files_cache : TabletFiles;
  probes : nat;
  warnings : list warning
}.

Definition check_start : check_state :=
  {| num_scanned := 0; num_scanned_with_segment := 0; num_check_failed := 0;
     instance_volume := 0; tablet_files_cache := empty_TabletFiles;
     probes := 0; warnings := [] |}.

Definition incr_scanned (st : check_state) : check_state :=
  {| num_scanned := num_scanned st + 1;
     num_scanned_with_segment := num_scanned_with_segment st;
     num_check_failed := num_check_failed st;
     instance_volume := instance_volume st;
     tablet_files_cache := tablet_files_cache st;
     probes := probes st; warnings := warnings st |}.

Definition incr_with_segment (st : check_state) : check_state :=
  {| num_scanned := num_scanned st;
     num_scanned_with_segment := num_scanned_with_segment st + 1;
     num_check_failed := num_check_failed st;
     instance_volume := instance_volume st;
     tablet_files_cache := tablet_files_cache st;
     probes := probes st; warnings := warnings st |}.

Definition incr_failed (st : check_state) : check_state :=
  {| num_scanned := num_scanned st;
     num_scanned_with_segment := num_scanned_with_segment st;
     num_check_failed := num_check_failed st + 1;
     instance_volume := instance_volume st;
     tablet_files_cache := tablet_files_cache st;
     probes := probes st; warnings := warnings st |}.

Definition add_volume (v : Z) (st : check_state) : check_state :=
  {| num_scanned := num_scanned st;
     num_scanned_with_segment := num_scanned_with_segment st;
     num_check_failed := num_check_failed st;
     instance_volume := wrap64 (instance_volume st + v);
     tablet_files_cache := tablet_files_cache st;
     probes := probes st; warnings := warnings st |}.

Definition set_cache (c : TabletFiles) (st : check_state) : check_state :=
  {| num_scanned := num_scanned st;
     num_scanned_with_segment := num_scanned_with_segment st;
     num_check_failed := num_check_failed st;
     instance_volume := instance_volume st;
     tablet_files_cache := c;
     probes := probes st; warnings := warnings st |}.

Definition probed (ws : list warning) (st : check_state) : check_state :=
  {| num_scanned := num_scanned st;
     num_scanned_with_segment := num_scanned_with_segment st;
     num_check_failed := num_check_failed st;
     instance_volume := instance_volume st;
     tablet_files_cache := tablet_files_cache st;
     probes := S (probes st); warnings := warnings st ++ ws |}.

Definition warn (w : warning) (st : check_state) : check_state :=
  {| num_scanned := num_scanned st;
     num_scanned_with_segment := num_scanned_with_segment st;
     num_check_failed := num_check_failed st;
     instance_volume := instance_volume st;
     tablet_files_cache := tablet_files_cache st;
     probes := probes st; warnings := warnings st ++ [w] |}.

(** One iteration of [for (int i = 0; i < rs_meta.num_segments(); ++i)]. *)
Definition check_segment (kv : TxnKv) (vault : StorageVault)
    (rs_meta : RowsetMetaCloudPB) (key : string)
    (st : check_state) (i : Z) : check_state :=
  let path := segment_path vault (tablet_id rs_meta) (rowset_id_v2 rs_meta) i in
  if decide (path ∈ files (tablet_files_cache st)) then st
  else
    let '(r, ws) := key_exist (kv_probe kv (probes st) key) in
    let st := probed ws st in
    if decide (r = 1) then st (* Rowset has been deleted instead of data loss *)
    else warn (object_not_exist path key) (incr_failed st).

(** The first half of [check_rowset_objects]: either the lambda returns, or
    it goes on to the segments with the cache as it now is. *)
Inductive refreshed :=
| Return (st : check_state)
| Proceed (st : check_state).

(** [tablet_volume] after the loop over [list_iter->next()]:
    [tablet_volume += file->size] on a [long]. *)
Definition total_size (fs : list FileMeta) : Z :=
  fold_left (fun tablet_volume f => wrap64 (tablet_volume + size f)) fs 0.

Definition refresh_cache (ck : InstanceChecker) (rs_meta : RowsetMetaCloudPB)
    (st : check_state) : refreshed :=
  if decide (tf_tablet_id (tablet_files_cache st) = tablet_id rs_meta)
  then Proceed st
  else
    (* Clear cache *)
    let st := set_cache empty_TabletFiles st in
    match storage_vault_map_ ck !! resource_id rs_meta with
    | None =>
        Return (incr_failed
                  (warn (resource_id_not_found (resource_id rs_meta)
                           (tablet_id rs_meta) (rowset_id_v2 rs_meta)) st))
    | Some vault =>
        let cached :=
          {| tf_tablet_id := 0; files := ∅; storage_vault := Some vault |} in
        let l := list_directory vault (tablet_path vault (tablet_id rs_meta)) in
        if decide (list_ret l = 0) then
          Proceed
            (add_volume (total_size (list_files l))
               (set_cache
                  {| tf_tablet_id := tablet_id rs_meta;
                     files := list_to_set (path <$> list_files l);
                     storage_vault := Some vault |} st))
        else Return (incr_failed (set_cache cached st))
    end.

(** [check_rowset_objects]; [None] when
    [tablet_files_cache.storage_vault.value()] throws
    [std::bad_optional_access]. *)
Definition check_rowset_objects (ck : InstanceChecker) (kv : TxnKv)
    (rs_meta : RowsetMetaCloudPB) (key : string)
    (st : check_state) : option check_state :=
  if decide (num_segments rs_meta = 0) then Some st
  else
    match refresh_cache ck rs_meta (incr_with_segment st) with
    | Return st => Some st
    | Proceed st =>
        match storage_vault (tablet_files_cache st) with
        | None => None
        | Some vault =>
            Some (fold_left (check_segment kv vault rs_meta key)
                    (seqZ 0 (num_segments rs_meta)) st)
        end
    end.

(** The body of the loop over [range_it->next()]. *)
Definition scan_rowset (ck : InstanceChecker) (kv : TxnKv) (st : check_state)
    (kvp : string * option RowsetMetaCloudPB) : option check_state :=
  let st := incr_scanned st in
  match kvp.2 with
  | None => Some (warn (malformed_rowset_meta kvp.1) (incr_failed st))
  | Some rs_meta => check_rowset_objects ck kv rs_meta kvp.1 st
  end.

Fixpoint scan_rowsets (ck : InstanceChecker) (kv : TxnKv)
    (kvps : list (string * option RowsetMetaCloudPB))
    (st : check_state) : option check_state :=
  match kvps with
  | [] => Some st
  | kvp :: rest =>
      match scan_rowset ck kv st kvp with
      | None => None
      | Some st => scan_rowsets ck kv rest st
      end
  end.

(** How a call of [do_check] ends: with a return value, the counters it
    reports and the warnings it wrote, or with an exception. *)
Inductive check_result :=
| Returned (ret : Z) (st : check_state)
| Threw.

Definition do_check (ck : InstanceChecker) (kv : TxnKv) : check_result :=
  match scan_rowsets ck kv (range_kvs (visible_rowsets kv)) check_start with
  | None => Threw
  | Some st =>
      if range_valid (visible_rowsets kv)
      then Returned (if decide (num_check_failed st = 0) then 0 else -2) st
      else Returned (-1) (warn failed_to_get_rowset_kv st)
  end.

(** *** [get_bucket_lifecycle] *)

(** The loop over [storage_vault_map_], with [min_lifecycle_days] as
    accumulator; [None] once a call failed. *)
Fixpoint min_lifecycle (vaults : list StorageVault) (min_lifecycle_days : Z)
    : option Z :=
  match vaults with
  | [] => Some min_lifecycle_days
  | vault :: rest =>
      if decide (accessor_type vault = S3) then
        if decide (check_versioning vault = 0) then
          if decide ((get_life_cycle vault).1 = 0) then
            min_lifecycle rest
              (if decide ((get_life_cycle vault).2 < min_lifecycle_days)
               then (get_life_cycle vault).2 else min_lifecycle_days)
          else None
        else None
      else min_lifecycle rest min_lifecycle_days
  end.

(** The return code and [*lifecycle_days], which is written on success only. *)
Definition get_bucket_lifecycle (ck : InstanceChecker) (lifecycle_days : Z)
    : Z * Z :=
  match min_lifecycle ((map_to_list (storage_vault_map_ ck)).*2) INT64_MAX with
  | Some d => (0, d)
  | None => (-1, lifecycle_days)
  end.

(** *** What the properties of [do_check] speak about *)

(** The rowset records the scan delivers that deserialize. *)
Definition rowsets_of (kv : TxnKv) : list RowsetMetaCloudPB :=
  omap snd (range_kvs (visible_rowsets kv)).

(** The paths found under the directory of tablet [t] in [vault]. *)
Definition tablet_listing (vault : StorageVault) (t : Z) : gset string :=
  list_to_set (path <$> list_files (list_directory vault (tablet_path vault t))).

(** The rowset names a vault of the registry and the listing of its tablet
    directory there succeeds. *)
Definition vault_listed (ck : InstanceChecker) (rs : RowsetMetaCloudPB) : Prop :=
  exists vault,
    storage_vault_map_ ck !! resource_id rs = Some vault
    /\ list_ret (list_directory vault (tablet_path vault (tablet_id rs))) = 0.

(** Segment [i] of [rs] appears in its tablet's listing: the listing of the
    tablet directory in the vault the rowset names. *)
Definition segment_listed (ck : InstanceChecker) (rs : RowsetMetaCloudPB)
    (i : Z) : Prop :=
  exists vault,
    storage_vault_map_ ck !! resource_id rs = Some vault
    /\ segment_path vault (tablet_id rs) (rowset_id_v2 rs) i
         ∈ tablet_listing vault (tablet_id rs).

(** The rowset key is gone whenever it is read again. *)
Definition deleted (kv : TxnKv) (key : string) : Prop :=
  forall n, kv_probe kv n key
            = {| create_txn := TXN_OK; get := TXN_KEY_NOT_FOUND |}.

(** The premises of the clean forward check, as section 8 (property 3) has
    them: every record deserializes, names a vault of the registry whose
    tablet listing succeeds, has all its segments listed, and the range
    iterator is valid at the end. *)
Record complete (ck : InstanceChecker) (kv : TxnKv) : Prop := {
  complete_parsed :
    Forall (fun kvp => is_Some kvp.2) (range_kvs (visible_rowsets kv));
  complete_vaults :
    forall rs, rs ∈ rowsets_of kv -> vault_listed ck rs;
  complete_segments :
    forall rs i, rs ∈ rowsets_of kv -> 0 <= i < num_segments rs ->
      segment_listed ck rs i;
  complete_valid : range_valid (visible_rowsets kv) = true
}.

(** The rowsets of one tablet that have segments all name the same vault. *)
Definition one_vault_per_tablet (kv : TxnKv) : Prop :=
  forall rs rs',
    rs ∈ rowsets_of kv -> rs' ∈ rowsets_of kv ->
    num_segments rs <> 0 -> num_segments rs' <> 0 ->
    tablet_id rs = tablet_id rs' -> resource_id rs = resource_id rs'.

(** Two states of [do_check] that differ at most in the number of
    [key_exist] calls made. *)
Definition same_but_probes (st st' : check_state) : Prop :=
  num_scanned st' = num_scanned st
  /\ num_scanned_with_segment st' = num_scanned_with_segment st
  /\ num_check_failed st' = num_check_failed st
  /\ instance_volume st' = instance_volume st
  /\ tablet_files_cache st' = tablet_files_cache st
  /\ warnings st' = warnings st.

(** What the scan keeps while nothing is wrong: no failure counted, nothing
    logged, and the cache either as it starts or filled from the vault of a
    rowset with segments of the tablet it is for. *)
Definition cache_ok (ck : InstanceChecker) (kv : TxnKv) (c : TabletFiles) : Prop :=
  c = empty_TabletFiles
  \/ exists rs0 vault,
       rs0 ∈ rowsets_of kv
       /\ num_segments rs0 <> 0
       /\ tf_tablet_id c = tablet_id rs0
       /\ storage_vault c = Some vault
       /\ storage_vault_map_ ck !! resource_id rs0 = Some vault
       /\ files c = tablet_listing vault (tablet_id rs0).

Definition clean_so_far (ck : InstanceChecker) (kv : TxnKv) (st : check_state) : Prop :=
  num_check_failed st = 0 /\ warnings st = []
  /\ cache_ok ck kv (tablet_files_cache st).

(** Counters and warnings only grow from [st] to [st']. *)
Definition grows (st st' : check_state) : Prop :=
  num_check_failed st <= num_check_failed st'
  /\ num_scanned_with_segment st <= num_scanned_with_segment st'
  /\ exists ws, warnings st' = warnings st ++ ws.

(** A cache that is for a tablet (other than 0) holds a vault of the
    registry and the listing of that tablet there. *)
Definition cache_filled (ck : InstanceChecker) (c : TabletFiles) : Prop :=
  tf_tablet_id c <> 0 ->
  exists id vault,
    storage_vault_map_ ck !! id = Some vault
    /\ storage_vault c = Some vault
    /\ files c = tablet_listing vault (tf_tablet_id c).

(** No record that has segments carries the tablet id 0. *)
Definition no_tablet_zero (kv : TxnKv) : Prop :=
  forall rs, rs ∈ rowsets_of kv -> num_segments rs <> 0 -> tablet_id rs <> 0.

(** Some segment of [rs] is in the tablet listing of no vault of the
    registry, and the key of [rs] never reads as deleted. *)
Definition lost_segment (ck : InstanceChecker) (kv : TxnKv) (key : string)
    (rs : RowsetMetaCloudPB) : Prop :=
  exists i,
    0 <= i < num_segments rs
    /\ (forall id vault, storage_vault_map_ ck !! id = Some vault ->
          segment_path vault (tablet_id rs) (rowset_id_v2 rs) i
            ∉ tablet_listing vault (tablet_id rs))
    /\ forall n, (key_exist (kv_probe kv n key)).1 <> 1.

(** The sizes of a listing, summed as numbers. *)
Definition sum_sizes (fs : list FileMeta) : Z :=
  foldr (fun f v => size f + v) 0 fs.

(** The volume while the records of one tablet are scanned: nothing before
    the first record with segments, the size of the one listing after. *)
Definition one_listing (vault : StorageVault) (t : Z) (listed : bool)
    (st : check_state) : Prop :=
  if listed then
    tf_tablet_id (tablet_files_cache st) = t
    /\ storage_vault (tablet_files_cache st) = Some vault
    /\ instance_volume st
       = wrap64 (sum_sizes
                   (list_files (list_directory vault (tablet_path vault t))))
  else
    tablet_files_cache st = empty_TabletFiles /\ instance_volume st = 0.

(** Some record of the range has segments. *)
Definition has_segments (kvps : list (string * option RowsetMetaCloudPB)) : bool :=
  existsb (fun kvp =>
             match kvp.2 with
             | Some rs => negb (bool_decide (num_segments rs = 0))
             | None => false
             end) kvps.

(** *** Scenarios *)

(** Modelled from the spec: the path layout v0 of [StorageVault]
    (recycler/storage_vault.h is not among the sources), section 4.3:
    [data/{tablet_id}/{rowset_id_v2}_{seg_idx}.dat]. *)
Definition tablet_path_v0 (tablet_id : Z) : string :=
  "data/" +:+ pretty tablet_id.

Definition segment_path_v0 (tablet_id : Z) (rowset_id : string) (seg : Z) : string :=
  "data/" +:+ pretty tablet_id +:+ "/" +:+ rowset_id +:+ "_" +:+ pretty seg +:+ ".dat".

(** An S3 vault with bucket lifecycle of 30 days holding [objects]; a
    directory listing yields the objects whose path extends the prefix. *)
Definition s3_vault (objects : list FileMeta) : StorageVault :=
  {| accessor_type := S3;
     uri := "s3://b";
     list_directory := fun prefix =>
       {| list_ret := 0;
          list_files :=
            List.filter (fun f => String.prefix prefix (path f)) objects;
          list_valid := true |};
     tablet_path := tablet_path_v0;
     segment_path := segment_path_v0;
     check_versioning := 0;
     get_life_cycle := (0, 30) |}.

Definition checker_of (objects : list FileMeta) : InstanceChecker :=
  {| instance_id_ := "i1";
     storage_vault_map_ := {[ "v1" := s3_vault objects ]} |}.

Definition R1 (tablet : Z) (segments : Z) : RowsetMetaCloudPB :=
  {| tablet_id := tablet; rowset_id_v2 := "R1"; resource_id := "v1";
     num_segments := segments |}.

(** A store with the one record [R1], whose key reads as [probe] says. *)
Definition kv_of (key : string) (rs : RowsetMetaCloudPB) (probe : txn_probe) : TxnKv :=
  {| visible_rowsets :=
       {| range_kvs := [(key, Some rs)]; range_valid := true |};
     tablet_rowsets := fun _ =>
       {| range_kvs := [(key, Some rs)]; range_valid := true |};
     kv_probe := fun _ _ => probe |}.

Definition found : txn_probe := {| create_txn := TXN_OK; get := TXN_OK |}.
Definition not_found : txn_probe :=
  {| create_txn := TXN_OK; get := TXN_KEY_NOT_FOUND |}.

(** S1 clean. *)
Definition S1_checker : InstanceChecker :=
  checker_of [ {| path := "data/100/R1_0.dat"; size := 10 |};
               {| path := "data/100/R1_1.dat"; size := 20 |} ].
Definition S1_kv : TxnKv := kv_of "meta_rowset/i1/100/2" (R1 100 2) found.

(** Two tablets in one vault: tablet 100 with two rowsets, tablet 200 with
    one, and a first record, of tablet 0, that has no segments. *)
Definition two_tablets_checker : InstanceChecker :=
  checker_of [ {| path := "data/100/R1_0.dat"; size := 10 |};
               {| path := "data/100/R1_1.dat"; size := 20 |};
               {| path := "data/100/R3_0.dat"; size := 30 |};
               {| path := "data/200/R1_0.dat"; size := 40 |} ].
Definition two_tablets_kv : TxnKv :=
  {| visible_rowsets :=
       {| range_kvs :=
            [("meta_rowset/i1/0/1", Some (R1 0 0));
             ("meta_rowset/i1/100/2", Some (R1 100 2));
             ("meta_rowset/i1/100/3",
              Some {| tablet_id := 100; rowset_id_v2 := "R3";
                      resource_id := "v1"; num_segments := 1 |});
             ("meta_rowset/i1/200/2", Some (R1 200 1))];
          range_valid := true |};
     tablet_rowsets := fun _ => {| range_kvs := []; range_valid := true |};
     kv_probe := fun _ _ => found |}.

(** S2 real loss, S3 concurrent delete. *)
Definition S2_checker : InstanceChecker :=
  checker_of [ {| path := "data/100/R1_0.dat"; size := 10 |} ].
Definition S2_kv : TxnKv := kv_of "meta_rowset/i1/100/2" (R1 100 2) found.
Definition S3_kv : TxnKv := kv_of "meta_rowset/i1/100/2" (R1 100 2) not_found.

(** S1 with a range iterator that is invalid once it is exhausted. *)
Definition broken_range_kv : TxnKv :=
  {| visible_rowsets :=
       {| range_kvs := [("meta_rowset/i1/100/2", Some (R1 100 2))];
          range_valid := false |};
     tablet_rowsets := tablet_rowsets S1_kv;
     kv_probe := kv_probe S1_kv |}.

(** Three rowsets of tablet 100, the second without segments. *)
Definition three_rowsets_kv : TxnKv :=
  {| visible_rowsets :=
       {| range_kvs := [("meta_rowset/i1/100/2", Some (R1 100 2));
                        ("meta_rowset/i1/100/3", Some (R1 100 0));
                        ("meta_rowset/i1/100/4", Some (R1 100 1))];
          range_valid := true |};
     tablet_rowsets := tablet_rowsets S1_kv;
     kv_probe := kv_probe S1_kv |}.

(** S1 with a second record whose value does not deserialize. *)
Definition malformed_kv : TxnKv :=
  {| visible_rowsets :=
       {| range_kvs := [("meta_rowset/i1/100/2", Some (R1 100 2));
                        ("meta_rowset/i1/100/3", None)];
          range_valid := true |};
     tablet_rowsets := tablet_rowsets S1_kv;
     kv_probe := kv_probe S1_kv |}.

(** A record with tablet id 0 whose one segment is in place. *)
Definition tablet0_checker : InstanceChecker :=
  checker_of [ {| path := "data/0/R1_0.dat"; size := 10 |} ].
Definition tablet0_kv : TxnKv := kv_of "meta_rowset/i1/0/2" (R1 0 1) found.

(** A record with tablet id 0 whose one segment is not in the vault and
    whose key is gone when it is read again. *)
Definition tablet0_deleted_checker : InstanceChecker := checker_of [].
Definition tablet0_deleted_kv : TxnKv :=
  kv_of "meta_rowset/i1/0/2" (R1 0 1) not_found.

(** Tablet 100 with a rowset in each of two vaults, the segment of each in
    the vault the rowset names. *)
Definition R2 (tablet : Z) (segments : Z) : RowsetMetaCloudPB :=
  {| tablet_id := tablet; rowset_id_v2 := "R2"; resource_id := "v2";
     num_segments := segments |}.
Definition two_vaults_checker : InstanceChecker :=
  {| instance_id_ := "i1";
     storage_vault_map_ :=
       {[ "v1" := s3_vault [ {| path := "data/100/R1_0.dat"; size := 10 |} ];
          "v2" := s3_vault [ {| path := "data/100/R2_0.dat"; size := 20 |} ] ]} |}.
Definition two_vaults_kv : TxnKv :=
  {| visible_rowsets :=
       {| range_kvs := [("meta_rowset/i1/100/2", Some (R1 100 1));
                        ("meta_rowset/i1/100/3", Some (R2 100 1))];
          range_valid := true |};
     tablet_rowsets := fun _ =>
       {| range_kvs := [("meta_rowset/i1/100/2", Some (R1 100 1));
                        ("meta_rowset/i1/100/3", Some (R2 100 1))];
          range_valid := true |};
     kv_probe := fun _ _ => found |}.

End InstanceChecker.

(** ** The vault registry: [InstanceChecker::init] *)

Module VaultRegistry.
Import InstanceChecker.

(** An entry of [instance.obj_info()]: its id and what
    [StorageVault::create(obj_info, RemotePathContext {})] gives for it
    ([None]: no vault). *)
Record ObjectStoreInfoPB := {
  obj_id : string;
  obj_created : option StorageVault
}.

(** A [StorageVaultPB] read from the KV store: its id and what
    [StorageVault::create(vault)] gives for it. *)
Record StorageVaultPB := {
  vault_id : string;
  vault_created : option StorageVault
}.

(** What [full_range_get(storage_vault_key(id, ""), storage_vault_key(id,
    "\xff"))] delivers: the pairs, each value with the result of
    [ParseFromArray], and [is_valid()] at the end. *)
Record vault_range := {
  vault_kvs : list (string * option StorageVaultPB);
  vault_range_valid : bool
}.

(** The fields of [InstanceInfoPB] that [init] reads. *)
Record instance_vaults := {
  obj_info : list ObjectStoreInfoPB;
  resource_ids : list string
}.

Inductive init_warning :=
| failed_to_init_storage_vault (instance_id resource_id : string)
| malformed_storage_vault (key : string)
| failed_to_get_storage_vault_kv.

(** [storage_vault_map_.emplace(id, vault)]: an entry that is there stays. *)
Definition emplace (id : string) (vault : StorageVault)
    (m : gmap string StorageVault) : gmap string StorageVault :=
  match m !! id with
  | Some _ => m
  | None => <[id := vault]> m
  end.

(** The return code, the registry and the warnings of a step of [init]. *)
Record init_result := {
  ret : Z;
  registry : gmap string StorageVault;
  init_warnings : list init_warning
}.

Fixpoint init_obj_store_accessors (instance_id_ : string)
    (infos : list ObjectStoreInfoPB) (m : gmap string StorageVault)
    : init_result :=
  match infos with
  | [] => {| ret := 0; registry := m; init_warnings := [] |}
  | info :: rest =>
      match obj_created info with
      | None =>
          {| ret := -1; registry := m;
             init_warnings :=
               [failed_to_init_storage_vault instance_id_ (obj_id info)] |}
      | Some vault =>
          init_obj_store_accessors instance_id_ rest
            (emplace (obj_id info) vault m)
      end
  end.

(** The loop of [init_storage_vault_accessors] over [it->next()]. *)
Fixpoint load_vaults (instance_id_ : string)
    (kvs : list (string * option StorageVaultPB))
    (m : gmap string StorageVault) : init_result :=
  match kvs with
  | [] => {| ret := 0; registry := m; init_warnings := [] |}
  | (k, None) :: _ =>
      {| ret := -1; registry := m;
         init_warnings := [malformed_storage_vault k] |}
  | (k, Some vault) :: rest =>
      match vault_created vault with
      | None =>
          {| ret := -1; registry := m;
             init_warnings :=
               [failed_to_init_storage_vault instance_id_ (vault_id vault)] |}
      | Some v => load_vaults instance_id_ rest (emplace (vault_id vault) v m)
      end
  end.

Definition init_storage_vault_accessors (instance_id_ : string)
    (instance : instance_vaults) (kv : vault_range)
    (m : gmap string StorageVault) : init_result :=
  match resource_ids instance with
  | [] => {| ret := 0; registry := m; init_warnings := [] |}
  | _ :: _ =>
      let r := load_vaults instance_id_ (vault_kvs kv) m in
      if decide (ret r = 0) then
        if vault_range_valid kv then r
        else {| ret := -1; registry := registry r;
                init_warnings := [failed_to_get_storage_vault_kv] |}
      else r
  end.

(** [InstanceChecker::init] on a checker that was just constructed. *)
Definition init (instance_id_ : string) (instance : instance_vaults)
    (kv : vault_range) : init_result :=
  let r := init_obj_store_accessors instance_id_ (obj_info instance) ∅ in
  if decide (ret r = 0) then
    init_storage_vault_accessors instance_id_ instance kv (registry r)
  else r.

(** The vaults [init] creates, in the order it meets them: those of
    [obj_info], then, when the instance has resource ids, those of the KV
    range. *)
Definition sources (instance : instance_vaults) (kv : vault_range)
    : list (string * StorageVault) :=
  omap (fun info => (fun v => (obj_id info, v)) <$> obj_created info)
    (obj_info instance)
  ++ match resource_ids instance with
     | [] => []
     | _ :: _ =>
         omap (fun kvp =>
                 vault ← kvp.2;
                 (fun v => (vault_id vault, v)) <$> vault_created vault)
           (vault_kvs kv)
     end.

(** Every vault [init] meets can be read and created. *)
Definition all_created (instance : instance_vaults) (kv : vault_range) : Prop :=
  Forall (fun info => is_Some (obj_created info)) (obj_info instance)
  /\ (resource_ids instance <> [] ->
      Forall (fun kvp => exists vault, kvp.2 = Some vault
                                       /\ is_Some (vault_created vault))
        (vault_kvs kv)
      /\ vault_range_valid kv = true).

(** *** Scenarios *)

Definition inline_vault : StorageVault := s3_vault [].
Definition kv_vault : StorageVault :=
  s3_vault [ {| path := "data/1/R_0.dat"; size := 1 |} ].

(** An instance with an inline vault "v1" and, in the KV store, vaults "v1"
    (again) and "v2". *)
Definition two_sources : instance_vaults :=
  {| obj_info := [ {| obj_id := "v1"; obj_created := Some inline_vault |} ];
     resource_ids := ["v2"] |}.
Definition two_sources_kv : vault_range :=
  {| vault_kvs :=
       [("storage_vault/i1/v1",
         Some {| vault_id := "v1"; vault_created := Some kv_vault |});
        ("storage_vault/i1/v2",
         Some {| vault_id := "v2"; vault_created := Some kv_vault |})];
     vault_range_valid := true |}.

End VaultRegistry.

(** ** Inverted check: [InstanceChecker::do_inverted_check] *)

Module InvertedCheck.
Import InstanceChecker.

(** The characters [isspace] accepts in the C locale, which are also the
    ones of butil's [kWhitespaceASCII]: 0x09 .. 0x0D and 0x20. *)
Definition is_space (a : ascii) : bool :=
  let n := nat_of_ascii a in
  ((9 <=? n)%nat && (n <=? 13)%nat) || (n =? 32)%nat.

Definition is_digit (a : ascii) : bool :=
  let n := nat_of_ascii a in (48 <=? n)%nat && (n <=? 57)%nat.

Definition digit_value (a : ascii) : Z := Z.of_nat (nat_of_ascii a - 48).

Fixpoint trim_left (s : string) : string :=
  match s with
  | EmptyString => EmptyString
  | String a rest => if is_space a then trim_left rest else s
  end.

Fixpoint trim_right (s : string) : string :=
  match s with
  | EmptyString => EmptyString
  | String a rest =>
      match trim_right rest with
      | EmptyString => if is_space a then EmptyString else String a EmptyString
      | rest' => String a rest'
      end
  end.

(** butil's [TrimWhitespace(tmp, TRIM_ALL, &tmp)]. *)
Definition TrimWhitespace (s : string) : string := trim_right (trim_left s).

(** The substrings between the occurrences of [c]: one more than there are
    occurrences. *)
Fixpoint pieces (c : ascii) (s : string) : list string :=
  match s with
  | EmptyString => [EmptyString]
  | String a rest =>
      if decide (a = c) then EmptyString :: pieces c rest
      else
        match pieces c rest with
        | p :: ps => String a p :: ps
        | [] => [String a EmptyString]
        end
  end.

(** [butil::SplitString(str, c, &r)]: every piece is trimmed of white space,
    and a string with no [c] that is empty or all white space gives no piece
    at all. *)
Definition SplitString (str : string) (c : ascii) : list string :=
  match TrimWhitespace <$> pieces c str with
  | [p] => if decide (p = EmptyString) then [] else [p]
  | ps => ps
  end.

Fixpoint digits (acc : Z) (s : string) : Z :=
  match s with
  | EmptyString => acc
  | String a rest =>
      if is_digit a then digits (acc * 10 + digit_value a) rest else acc
  end.

(** [atol]: white space, an optional sign, then the decimal digits up to the
    first other character; out of range the value saturates, as glibc's
    [strtol] does. *)
Definition atol (s : string) : Z :=
  match trim_left s with
  | String "-"%char rest => Z.max INT64_MIN (- digits 0 rest)
  | String "+"%char rest => Z.min INT64_MAX (digits 0 rest)
  | s' => Z.min INT64_MAX (digits 0 s')
  end.

(** [std::string::find(c)]. *)
Fixpoint find (c : ascii) (s : string) : option nat :=
  match s with
  | EmptyString => None
  | String a rest => if decide (a = c) then Some 0%nat else S <$> find c rest
  end.

(** [s.substr(0, n)]. *)
Definition substr0 (n : nat) (s : string) : string := substring 0 n s.

(** [str.back()]. *)
Definition back (str : list string) : string := List.last str EmptyString.

(** How the head of [check_segment_file] reads an object key
    [data/{tablet_id}/{rowset_id}_{seg_num}.dat]. *)
Inductive parsed :=
| TooFewComponents
| BadTabletId
| NoRowsetId
| Parsed (tablet_id : Z) (rowset_id : string).

Definition parse_obj_key (obj_key : string) : parsed :=
  let str := SplitString obj_key "/"%char in
  if decide (length str < 3)%nat then TooFewComponents
  else
    let tablet_id := atol (default EmptyString (str !! 1%nat)) in
    if decide (tablet_id <= 0) then BadTabletId
    else
      match find "_"%char (back str) with
      | Some pos => Parsed tablet_id (substr0 pos (back str))
      | None => NoRowsetId
      end.

Record TabletRowsets := {
  tr_tablet_id : Z;
  rowset_ids : gset string
}.

(** The loop that fills [tablet_rowsets_cache.rowset_ids]; the first
    component is the key of a malformed value, at which the lambda returns. *)
Fixpoint load_rowset_ids (kvps : list (string * option RowsetMetaCloudPB))
    (ids : gset string) : option string * gset string :=
  match kvps with
  | [] => (None, ids)
  | (k, None) :: _ => (Some k, ids)
  | (_, Some rs_meta) :: rest =>
      load_rowset_ids rest ({[rowset_id_v2 rs_meta]} ∪ ids)
  end.

Definition check_segment_file (kv : TxnKv) (obj_key : string)
    (cache : TabletRowsets) : Z * TabletRowsets * list warning :=
  match parse_obj_key obj_key with
  | TooFewComponents => (-1, cache, [])
  | BadTabletId => (-1, cache, [failed_to_parse_tablet_id obj_key])
  | NoRowsetId => (-1, cache, [failed_to_parse_rowset_id obj_key])
  | Parsed tablet_id rowset_id =>
      if decide (tr_tablet_id cache = tablet_id) then
        if decide (rowset_id ∈ rowset_ids cache) then (0, cache, [])
        else (-1, cache, [rowset_not_exists obj_key])
      else
        (* Get all rowset id of this tablet *)
        let r := tablet_rowsets kv tablet_id in
        match load_rowset_ids (range_kvs r) ∅ with
        | (Some k, ids) =>
            (-1, {| tr_tablet_id := tablet_id; rowset_ids := ids |},
             [malformed_rowset_meta_value k])
        | (None, ids) =>
            let cache := {| tr_tablet_id := tablet_id; rowset_ids := ids |} in
            if range_valid r then (0, cache, [])
            else (-1, cache, [failed_to_get_rowset_kv])
        end
  end.

Record inverted_state := {
  inv_num_scanned : Z;
  inv_num_check_failed : Z;
  tablet_rowsets_cache : TabletRowsets;
  inv_warnings : list warning
}.

Definition inverted_start : inverted_state :=
  {| inv_num_scanned := 0; inv_num_check_failed := 0;
     tablet_rowsets_cache := {| tr_tablet_id := 0; rowset_ids := ∅ |};
     inv_warnings := [] |}.

(** The body of the loop over [list_iter->next()]. *)
Definition scan_file (kv : TxnKv) (vault : StorageVault)
    (st : inverted_state) (file : FileMeta) : inverted_state :=
  let '(r, cache, ws) :=
    check_segment_file kv (path file) (tablet_rowsets_cache st) in
  if decide (r = 0) then
    {| inv_num_scanned := inv_num_scanned st + 1;
       inv_num_check_failed := inv_num_check_failed st;
       tablet_rowsets_cache := cache;
       inv_warnings := inv_warnings st ++ ws |}
  else
    {| inv_num_scanned := inv_num_scanned st + 1;
       inv_num_check_failed := inv_num_check_failed st + 1;
       tablet_rowsets_cache := cache;
       inv_warnings :=
         inv_warnings st ++ ws
           ++ [failed_to_check_segment_file (uri vault) (path file)] |}.

(** The loop over [storage_vault_map_]; [inl] when [do_inverted_check]
    returns -1 from inside it. *)
Fixpoint scan_vaults (kv : TxnKv) (vaults : list StorageVault)
    (st : inverted_state) : inverted_state + inverted_state :=
  match vaults with
  | [] => inr st
  | vault :: rest =>
      let l := list_directory vault "data" in
      if decide (list_ret l = 0) then
        let st := fold_left (scan_file kv vault) (list_files l) st in
        if list_valid l then scan_vaults kv rest st
        else
          inl {| inv_num_scanned := inv_num_scanned st;
                 inv_num_check_failed := inv_num_check_failed st;
                 tablet_rowsets_cache := tablet_rowsets_cache st;
                 inv_warnings :=
                   inv_warnings st ++ [failed_to_list_data_directory (uri vault)] |}
      else inl st
  end.

(** [do_inverted_check] in a build without the test sync points: the return
    value and the locals at the return. *)
Definition do_inverted_check (ck : InstanceChecker) (kv : TxnKv)
    : Z * inverted_state :=
  match scan_vaults kv ((map_to_list (storage_vault_map_ ck)).*2) inverted_start with
  | inl st => (-1, st)
  | inr st => (if decide (inv_num_check_failed st = 0) then 0 else -1, st)
  end.

(** Every value of the range deserializes and the iterator is valid at the
    end. *)
Definition loads (r : range) : Prop :=
  Forall (fun kvp => is_Some kvp.2) (range_kvs r) /\ range_valid r = true.

(** The rowset ids of the records of a range. *)
Definition rowset_ids_of (r : range) : gset string :=
  list_to_set (rowset_id_v2 <$> omap snd (range_kvs r)).

(** The listing of a vault's [data] directory succeeds and is complete. *)
Definition lists_data (vault : StorageVault) : Prop :=
  list_ret (list_directory vault "data") = 0
  /\ list_valid (list_directory vault "data") = true.

(** *** Scenarios *)

(** S4: the vault lists an object of rowset R2, the tablet has only R1. *)
Definition S4_kv : TxnKv := kv_of "meta_rowset/i1/100/2" (R1 100 2) found.
Definition S4_orphan_only : InstanceChecker :=
  checker_of [ {| path := "data/100/R2_0.dat"; size := 10 |} ].
Definition S4_orphan_second : InstanceChecker :=
  checker_of [ {| path := "data/100/R1_0.dat"; size := 10 |};
               {| path := "data/100/R2_0.dat"; size := 10 |} ].

(** [c] is one of the characters of [s]. *)
Definition occurs (c : ascii) (s : string) : Prop :=
  In c (list_ascii_of_string s).

(** The three rules an object key has to meet, on its components. *)
Definition well_shaped (str : list string) : Prop :=
  (3 <= length str)%nat
  /\ 0 < atol (default EmptyString (str !! 1%nat))
  /\ occurs "_"%char (back str).

(** A rowset id without '/', '_' and white space, as the ids the engine
    makes are. *)
Definition plain_id (s : string) : Prop :=
  forall a, occurs a s ->
    a <> "/"%char /\ a <> "_"%char /\ is_space a = false.

End InvertedCheck.

(** ** The interval inspector: [Checker::do_inspect],
       [Checker::inspect_instance_check_interval] *)

Module Inspector.
Import InstanceChecker.

Inductive JobStatus := IDLE | BUSY.

(** The fields of [JobRecyclePB] read here; an optional field that is not set
    is [None], and its getter then returns 0. *)
Record JobRecyclePB := {
  job_instance_id : string;
  last_ctime_ms : option Z;
  last_success_time_ms : option Z;
  job_status : JobStatus
}.

(** The answers [do_inspect] gets for one instance. *)
Record inspect_env := {
  create_txn_err : TxnErrorCode;   (* txn_kv_->create_txn(&txn) *)
  get_err : TxnErrorCode;          (* txn->get(check_job_key, &val) *)
  parse_ok : bool;                 (* job_info.ParseFromString(val) *)
  job_info : JobRecyclePB;         (* job_info after that call *)
  init_ret : Z;                    (* checker.init(instance) *)
  checker : InstanceChecker;       (* the checker after init *)
  now : Z                          (* system_clock::now() in milliseconds *)
}.

(** The lines written through [LOG_CHECK_INTERVAL_ALARM]. *)
Inductive alarm :=
| failed_to_create_txn
| failed_to_get_kv (err : TxnErrorCode)
| failed_to_init_instance_checker (instance_id : string)
| failed_to_get_bucket_lifecycle (instance_id : string)
| failed_to_parse_JobRecyclePB
| check_risks (instance_id : string) (last_ctime_ms : Z) (job_status : JobStatus)
    (bucket_lifecycle_days reserved_buffer_days expiration_ms : Z).

(** What one call leaves behind: the alarm lines and the values put into
    [g_bvar_checker_last_success_time_ms]. *)
Record inspect_out := {
  alarms : list alarm;
  last_success_time_ms_puts : list (string * Z)
}.

Definition only_alarm (a : alarm) : inspect_out :=
  {| alarms := [a]; last_success_time_ms_puts := [] |}.

(** The lambda [has_last_ctime], with what it assigns and writes. *)
Record has_last_ctime_result := {
  has : bool;
  hl_last_ctime_ms : Z;
  hl_job_status : JobStatus;
  hl_alarms : list alarm;
  hl_puts : list (string * Z)
}.

Definition has_last_ctime (instance : InstanceInfoPB) (env : inspect_env)
    : has_last_ctime_result :=
  let parse_alarm := if parse_ok env then [] else [failed_to_parse_JobRecyclePB] in
  match last_ctime_ms (job_info env) with
  | None =>
      {| has := false; hl_last_ctime_ms := -1; hl_job_status := IDLE;
         hl_alarms := parse_alarm; hl_puts := [] |}
  | Some t =>
      {| has := true; hl_last_ctime_ms := t;
         hl_job_status := job_status (job_info env);
         hl_alarms := parse_alarm;
         hl_puts := [(instance_id instance,
                      default 0 (last_success_time_ms (job_info env)))] |}
  end.

(** [expiration_ms] as the source computes it, in 64 bits. *)
Definition expiration_ms (bucket_lifecycle_days reserved_buffer_days : Z) : Z :=
  if decide (bucket_lifecycle_days > reserved_buffer_days)
  then wrap64 (wrap64 (bucket_lifecycle_days - reserved_buffer_days) * 86400000)
  else wrap64 (bucket_lifecycle_days * 86400000).

Definition do_inspect (cfg : Config) (instance : InstanceInfoPB)
    (env : inspect_env) : inspect_out :=
  if decide (create_txn_err env = TXN_OK) then
    if decide (get_err env = TXN_OK \/ get_err env = TXN_KEY_NOT_FOUND) then
      if decide (init_ret env = 0) then
        let '(ret, bucket_lifecycle_days) := get_bucket_lifecycle (checker env) 0 in
        if decide (ret = 0) then
          if decide (bucket_lifecycle_days = INT64_MAX) then
            (* No s3 bucket (may all accessors are HdfsAccessor), skip inspect *)
            {| alarms := []; last_success_time_ms_puts := [] |}
          else
            let h :=
              if decide (get_err env = TXN_KEY_NOT_FOUND)
              then {| has := false; hl_last_ctime_ms := -1; hl_job_status := IDLE;
                      hl_alarms := []; hl_puts := [] |}
              else has_last_ctime instance env in
            (* Use instance's ctime for instances that do not have job's last ctime *)
            let last_ctime_ms :=
              if has h then hl_last_ctime_ms h else ctime instance in
            let expiration_ms :=
              expiration_ms bucket_lifecycle_days (reserved_buffer_days cfg) in
            {| alarms :=
                 hl_alarms h
                 ++ (if decide (wrap64 (now env - last_ctime_ms) >= expiration_ms)
                     then [check_risks (instance_id instance) last_ctime_ms
                             (hl_job_status h) bucket_lifecycle_days
                             (reserved_buffer_days cfg) expiration_ms]
                     else []);
               last_success_time_ms_puts := hl_puts h |}
        else only_alarm (failed_to_get_bucket_lifecycle (instance_id instance))
      else only_alarm (failed_to_init_instance_checker (instance_id instance))
    else only_alarm (failed_to_get_kv (get_err env))
  else only_alarm failed_to_create_txn.

(** One pass of [inspect_instance_check_interval] over the listed instances;
    each comes with the value of [stopped()] when the loop polls it and with
    the answers [do_inspect] would get.  The result has one entry for every
    call of [do_inspect] made. *)
Fixpoint inspect_cycle (cfg : Config)
    (instances : list (InstanceInfoPB * bool * inspect_env))
    : list (string * inspect_out) :=
  match instances with
  | [] => []
  | (instance, stopped, env) :: rest =>
      if filter_out cfg (instance_id instance) then inspect_cycle cfg rest
      else if stopped then []
      else if decide (status instance = DELETED) then inspect_cycle cfg rest
      else (instance_id instance, do_inspect cfg instance env)
             :: inspect_cycle cfg rest
  end.

(** [expiration_ms] as section 4.7 words it, over the integers. *)
Definition spec_expiration_ms (lifecycle_days reserved_buffer_days : Z) : Z :=
  if decide (lifecycle_days > reserved_buffer_days)
  then (lifecycle_days - reserved_buffer_days) * 86400000
  else lifecycle_days * 86400000.

(** An S3 vault whose versioning check or lifecycle fetch fails. *)
Definition fails_lifecycle (vault : StorageVault) : Prop :=
  accessor_type vault = S3
  /\ (check_versioning vault <> 0 \/ (get_life_cycle vault).1 <> 0).

(** [do_inspect] gets past the four calls it makes before it looks at the
    lifecycle. *)
Definition gets_lifecycle (env : inspect_env) : Prop :=
  create_txn_err env = TXN_OK
  /\ (get_err env = TXN_OK \/ get_err env = TXN_KEY_NOT_FOUND)
  /\ init_ret env = 0
  /\ (get_bucket_lifecycle (checker env) 0).1 = 0.

(** [last_ctime_ms] as section 4.7 words it: the field of the job record when
    there is a record and it has the field, else [instance.ctime]. *)
Definition spec_last_ctime_ms (instance : InstanceInfoPB) (env : inspect_env) : Z :=
  if decide (get_err env = TXN_KEY_NOT_FOUND) then ctime instance
  else default (ctime instance) (last_ctime_ms (job_info env)).

Definition is_check_risks (a : alarm) : bool :=
  match a with check_risks _ _ _ _ _ _ => true | _ => false end.

(** [do_inspect] gets as far as the comparison with a bucket lifecycle of
    [lifecycle_days]. *)
Definition inspected (env : inspect_env) (lifecycle_days : Z) : Prop :=
  create_txn_err env = TXN_OK
  /\ (get_err env = TXN_OK \/ get_err env = TXN_KEY_NOT_FOUND)
  /\ init_ret env = 0
  /\ get_bucket_lifecycle (checker env) 0 = (0, lifecycle_days)
  /\ lifecycle_days <> INT64_MAX.

(** *** Scenarios *)

Definition day_ms : Z := 86400000.

Definition bucket (lifecycle_days : Z) : InstanceChecker :=
  {| instance_id_ := "i1";
     storage_vault_map_ :=
       {[ "v1" := {| accessor_type := S3;
                     uri := "s3://b";
                     list_directory := fun _ =>
                       {| list_ret := 0; list_files := []; list_valid := true |};
                     tablet_path := tablet_path_v0;
                     segment_path := segment_path_v0;
                     check_versioning := 0;
                     get_life_cycle := (0, lifecycle_days) |} ]} |}.

Definition instance1 : InstanceInfoPB :=
  {| instance_id := "i1"; status := NORMAL; ctime := 1600000000000 |}.

(** The job record of [i1] was last written [days] days before [now]. *)
Definition checked_days_ago (lifecycle_days days : Z) : inspect_env :=
  {| create_txn_err := TXN_OK;
     get_err := TXN_OK;
     parse_ok := true;
     job_info :=
       {| job_instance_id := "i1";
          last_ctime_ms := Some (1700000000000 - days * day_ms);
          last_success_time_ms := Some (1700000000000 - days * day_ms + 5000);
          job_status := IDLE |};
     init_ret := 0;
     checker := bucket lifecycle_days;
     now := 1700000000000 |}.

(** There is no job record of [i1] yet. *)
Definition never_checked (lifecycle_days : Z) : inspect_env :=
  {| create_txn_err := TXN_OK;
     get_err := TXN_KEY_NOT_FOUND;
     parse_ok := false;
     job_info :=
       {| job_instance_id := ""; last_ctime_ms := None;
          last_success_time_ms := None; job_status := IDLE |};
     init_ret := 0;
     checker := bucket lifecycle_days;
     now := 1700000000000 |}.

(** The KV store cannot be reached. *)
Definition kv_down : inspect_env :=
  {| create_txn_err := TXN_ERROR (-1);
     get_err := TXN_OK;
     parse_ok := true;
     job_info := job_info (checked_days_ago 7 5);
     init_ret := 0;
     checker := bucket 7;
     now := 1700000000000 |}.

(** An instance whose only vault is on HDFS. *)
Definition hdfs_only : inspect_env :=
  {| create_txn_err := TXN_OK;
     get_err := TXN_OK;
     parse_ok := true;
     job_info := job_info (checked_days_ago 7 5);
     init_ret := 0;
     checker :=
       {| instance_id_ := "i1";
          storage_vault_map_ :=
            {[ "v1" := {| accessor_type := HDFS;
                          uri := "hdfs://n";
                          list_directory := fun _ =>
                            {| list_ret := 0; list_files := [];
                               list_valid := true |};
                          tablet_path := tablet_path_v0;
                          segment_path := segment_path_v0;
                          check_versioning := -1;
                          get_life_cycle := (-1, 0) |} ]} |};
     now := 1700000000000 |}.

Definition instance2_deleted : InstanceInfoPB :=
  {| instance_id := "i2"; status := DELETED; ctime := 1600000000000 |}.

Definition config_3_days : Config :=
  {| recycle_whitelist := []; recycle_blacklist := [];
     enable_inverted_check := false; reserved_buffer_days := 3 |}.

End Inspector.

(** ** The fan-out helper: [SyncExecutor<T>] *)

Module SyncExecutor.

Section Executor.
Context {T : Type}.
(** The predicate given to the constructor. *)
Variable _cancel : T -> bool.

(** Where [Task::operator()] stands.  The accesses to the atomic
    [stop_token] are steps of their own. *)
Inductive task_pc :=
| Queued                (* submitted to the pool, not started *)
| Running               (* read [stop_token] as false; [_callback()] runs *)
| Computed (t : T)      (* [_callback()] returned [t] *)
| Flagged (t : T)       (* past [if (_cancel(t)) stop_token = true] *)
| Signalled.            (* [_count.signal()] done: the task is over *)

Record Task := {
  _callback : unit -> T;
  pc : task_pc;
  _res : option T
}.

Record SyncExecutor := {
  _tasks : list Task;
  _count : Z;             (* bthread::CountdownEvent *)
  _stop_token : bool
}.

Definition init : SyncExecutor :=
  {| _tasks := []; _count := 0; _stop_token := false |}.

(** [add(callback)]. *)
Definition add (callback : unit -> T) (e : SyncExecutor) : SyncExecutor :=
  {| _tasks := _tasks e ++ [{| _callback := callback; pc := Queued; _res := None |}];
     _count := _count e + 1;
     _stop_token := _stop_token e |}.

(** The next step of a task under the current [stop_token]: the task after
    it, the new [stop_token] and whether the task signalled. *)
Definition task_step (t : Task) (stop_token : bool) : Task * bool * bool :=
  match pc t with
  | Queued =>
      if stop_token
      then ({| _callback := _callback t; pc := Signalled; _res := _res t |},
            stop_token, true)
      else ({| _callback := _callback t; pc := Running; _res := _res t |},
            stop_token, false)
  | Running =>
      ({| _callback := _callback t; pc := Computed (_callback t tt); _res := _res t |},
       stop_token, false)
  | Computed r =>
      ({| _callback := _callback t; pc := Flagged r; _res := _res t |},
       if _cancel r then true else stop_token, false)
  | Flagged r =>
      ({| _callback := _callback t; pc := Signalled; _res := Some r |},
       stop_token, true)
  | Signalled => (t, stop_token, false)
  end.

(** A pool thread advances the [i]-th task by one step. *)
Definition run (i : nat) (e : SyncExecutor) : SyncExecutor :=
  match _tasks e !! i with
  | None => e
  | Some t =>
      let '(t', stop_token, signalled) := task_step t (_stop_token e) in
      {| _tasks := <[i := t']> (_tasks e);
         _count := if signalled then _count e - 1 else _count e;
         _stop_token := stop_token |}
  end.

(** The loop of [when_all] over [_tasks]: it stops at the first task that
    has no result. *)
Fixpoint collect (tasks : list Task) : list T :=
  match tasks with
  | [] => []
  | task :: rest =>
      match _res task with
      | Some r => r :: collect rest
      | None => []
      end
  end.

(** [when_all(&finished)]: [None] while [_count.timed_wait] has not returned
    0; else the results, [*finished] and the executor afterwards. *)
Definition when_all (e : SyncExecutor) : option (list T * bool * SyncExecutor) :=
  if decide (_count e = 0) then
    let res := collect (_tasks e) in
    Some (res, bool_decide (length (_tasks e) = length res),
          {| _tasks := []; _count := 0; _stop_token := _stop_token e |})
  else None.

(** [reset()]: [None] while the [when_all] inside it waits. *)
Definition reset (e : SyncExecutor) : option SyncExecutor :=
  match _tasks e with
  | [] => Some {| _tasks := []; _count := _count e; _stop_token := false |}
  | _ :: _ =>
      match when_all e with
      | Some (_, _, e') =>
          Some {| _tasks := _tasks e'; _count := _count e'; _stop_token := false |}
      | None => None
      end
  end.

(** What the caller and the pool threads do, in the order it happens. *)
Inductive event :=
| Add (callback : unit -> T)
| Run (i : nat).

Definition step (e : SyncExecutor) (ev : event) : SyncExecutor :=
  match ev with
  | Add callback => add callback e
  | Run i => run i e
  end.

Definition exec (evs : list event) : SyncExecutor := fold_left step evs init.

(** The callbacks added, in submission order. *)
Fixpoint submitted (evs : list event) : list (unit -> T) :=
  match evs with
  | [] => []
  | Add callback :: rest => callback :: submitted rest
  | Run _ :: rest => submitted rest
  end.

(** How many steps a task still has to make. *)
Definition steps_left (p : task_pc) : nat :=
  match p with
  | Queued => 4
  | Running => 3
  | Computed _ => 2
  | Flagged _ => 1
  | Signalled => 0
  end.

Definition is_signalled (p : task_pc) : bool :=
  match p with Signalled => true | _ => false end.

(** The tasks that are still to signal. *)
Definition outstanding (tasks : list Task) : nat :=
  length (filter (fun t => is_signalled (pc t) = false) tasks).

(** *** What the properties of the executor speak about *)

(** A task agrees with its own program: it has no result before it stored
    one, the value it computed is the one of its callback, and once it is
    over it either stored that value or ended early under a set token. *)
Definition task_ok (stop_token : bool) (t : Task) : Prop :=
  match pc t with
  | Queued | Running => _res t = None
  | Computed r | Flagged r => r = _callback t tt /\ _res t = None
  | Signalled =>
      _res t = Some (_callback t tt) \/ (_res t = None /\ stop_token = true)
  end.

(** Some task got a result that satisfies [_cancel] and is past the test. *)
Definition triggered (tasks : list Task) : Prop :=
  exists t r,
    t ∈ tasks
    /\ (pc t = Flagged r \/ (pc t = Signalled /\ _res t = Some r))
    /\ r = _callback t tt
    /\ _cancel r = true.

Record executor_ok (evs : list event) (e : SyncExecutor) : Prop := {
  ok_callbacks : _callback <$> _tasks e = submitted evs;
  ok_count : _count e = Z.of_nat (outstanding (_tasks e));
  ok_tasks : Forall (task_ok (_stop_token e)) (_tasks e);
  ok_token : _stop_token e = true -> triggered (_tasks e)
}.

(** The task has not started, or ended without running its callback. *)
Definition never_ran (t : Task) : Prop :=
  (pc t = Queued \/ pc t = Signalled) /\ _res t = None.

(** Every task gets its four steps in [sched]. *)
Definition fair (n : nat) (sched : list nat) : Prop :=
  forall i, (i < n)%nat -> (4 <= count_occ Nat.eq_dec sched i)%nat.

End Executor.

(** *** Scenarios *)

Definition negative (z : Z) : bool := z <? 0.

(** Three tasks, none of which cancels; the pool runs them interleaved and
    out of order. *)
Definition three_tasks : list (@event Z) :=
  [Add (fun _ => 1); Add (fun _ => 2); Run 1; Run 0; Add (fun _ => 3);
   Run 1; Run 2; Run 0].

Definition three_tasks_rest : list nat :=
  [2; 2; 2; 1; 1; 0; 0; 0; 1; 2; 0; 1]%nat.

(** The first of three tasks cancels before the others are taken up. *)
Definition first_cancels : list (@event Z) :=
  [Add (fun _ => -1); Add (fun _ => 2); Add (fun _ => 3);
   Run 0; Run 0; Run 0].

(** Two tasks, the second of which cancels; a pool thread takes the first
    task late, after the second has set the token. *)
Definition second_cancels_first : list (@event Z) :=
  [Add (fun _ => 1); Add (fun _ => -1);
   Run 1; Run 1; Run 1; Run 1; Run 0].

End SyncExecutor.

(** * Properties *)

Lemma wrap64_id z : in_int64 z -> wrap64 z = z.
Proof.
  unfold in_int64, INT64_MIN, INT64_MAX, wrap64. intros H.
  rewrite Z.mod_small; lia.
Qed.


Lemma wrap64_in_int64 z : in_int64 (wrap64 z).
Proof.
  unfold in_int64, INT64_MIN, INT64_MAX, wrap64.
  pose proof (Z.mod_pos_bound (z + 2 ^ 63) (2 ^ 64)). lia.
Qed.

(** Adding in 64 bits step by step is adding once and reducing at the end. *)
Lemma wrap64_add_l a b : wrap64 (wrap64 a + b) = wrap64 (a + b).
Proof.
  unfold wrap64. f_equal.
  replace ((a + 2 ^ 63) mod 2 ^ 64 - 2 ^ 63 + b + 2 ^ 63)
    with ((a + 2 ^ 63) mod 2 ^ 64 + b) by lia.
  rewrite Z.add_mod_idemp_l by lia. f_equal. lia.
Qed.
(** ** The daemon's pending queue and working map *)

Module DaemonProps.
Import Daemon.

Lemma enqueue_one_frame cfg s it :
  working_instance_map_ (enqueue_one cfg s it) = working_instance_map_ s
  /\ workers_ (enqueue_one cfg s it) = workers_ s.
Proof.
  unfold enqueue_one. destruct it as [instance t].
  repeat (case_match; simpl); auto.
Qed.

Lemma enqueue_one_queue_matches_map cfg s it :
  queue_matches_map s -> queue_matches_map (enqueue_one cfg s it).
Proof.
  intros [Hnd Hdom]. unfold enqueue_one. destruct it as [instance t].
  destruct (filter_out cfg (instance_id instance)); [done|].
  destruct (decide (status instance = DELETED)); [done|].
  destruct (pending_instance_map_ s !! instance_id instance) eqn:Hl; [done|].
  assert (instance_id instance ∉ queue_ids s) as Hfresh.
  { rewrite <- Hdom. by apply not_elem_of_dom. }
  split; unfold queue_ids in *; simpl.
  - rewrite fmap_app. apply NoDup_app. split; [done|]. split.
    + intros x Hx Hx'. apply list_elem_of_singleton in Hx'. by subst.
    + apply NoDup_singleton.
  - intros id. rewrite dom_insert, fmap_app, elem_of_union, elem_of_app.
    rewrite Hdom. simpl. rewrite elem_of_singleton, list_elem_of_singleton.
    tauto.
Qed.

Lemma enqueue_one_pending cfg s it id :
  id ∈ dom (pending_instance_map_ (enqueue_one cfg s it)) ->
  id ∈ dom (pending_instance_map_ s)
  \/ (id = instance_id it.1 /\ enqueueable cfg it.1 = true).
Proof.
  unfold enqueue_one, enqueueable. destruct it as [instance t]. simpl.
  destruct (filter_out cfg (instance_id instance)); [auto|].
  destruct (decide (status instance = DELETED)); [auto|].
  destruct (pending_instance_map_ s !! instance_id instance); [auto|].
  simpl. rewrite dom_insert, elem_of_union, elem_of_singleton.
  intros [->|?]; [right|by left]. split; [done|].
  by rewrite bool_decide_eq_false_2.
Qed.

Lemma scan_frame cfg instances s :
  working_instance_map_ (scan cfg instances s) = working_instance_map_ s
  /\ workers_ (scan cfg instances s) = workers_ s.
Proof.
  unfold scan. revert s. induction instances as [|it l IH]; intros s; simpl; [done|].
  destruct (IH (enqueue_one cfg s it)) as [-> ->]. apply enqueue_one_frame.
Qed.

Lemma scan_queue_matches_map cfg instances s :
  queue_matches_map s -> queue_matches_map (scan cfg instances s).
Proof.
  unfold scan. revert s. induction instances as [|it l IH]; intros s H; simpl; [done|].
  by apply IH, enqueue_one_queue_matches_map.
Qed.

Lemma scan_pending cfg instances s id :
  id ∈ dom (pending_instance_map_ (scan cfg instances s)) ->
  id ∈ dom (pending_instance_map_ s)
  \/ exists it, it ∈ instances /\ id = instance_id it.1
                /\ enqueueable cfg it.1 = true.
Proof.
  unfold scan. revert s. induction instances as [|it l IH]; intros s; simpl; [auto|].
  intros H. apply IH in H as [H|(it' & ? & ? & ?)].
  - apply enqueue_one_pending in H as [?|[? ?]]; [by left|right].
    exists it. split; [left|done].
  - right. exists it'. split; [by right|done].
Qed.


Lemma queue_matches_map_ext s s' :
  pending_instance_queue_ s' = pending_instance_queue_ s ->
  pending_instance_map_ s' = pending_instance_map_ s ->
  queue_matches_map s -> queue_matches_map s'.
Proof. unfold queue_matches_map, queue_ids. by intros -> ->. Qed.

(** Popping the head takes its id out of both the queue and the map. *)
Lemma pop_queue_matches_map s s' instance rest :
  pending_instance_queue_ s = instance :: rest ->
  pending_instance_queue_ s' = rest ->
  pending_instance_map_ s' = delete (instance_id instance) (pending_instance_map_ s) ->
  queue_matches_map s ->
  queue_matches_map s' /\ instance_id instance ∉ dom (pending_instance_map_ s').
Proof.
  unfold queue_matches_map, queue_ids. intros Hq -> ->. rewrite Hq. simpl.
  intros [Hnd Hdom]. apply NoDup_cons in Hnd as [Hfresh Hnd].
  split; [split; [done|]|].
  - intros id. rewrite dom_delete, elem_of_difference, elem_of_singleton, Hdom.
    rewrite elem_of_cons. split; [intros [[?|?] ?]; by auto|].
    intros Hin. split; [by right|]. intros ->. done.
  - rewrite dom_delete. set_solver.
Qed.

Lemma work_queue_matches_map cfg w o s :
  queue_matches_map s -> queue_matches_map (work cfg w o s).
Proof.
  intros H. unfold work.
  destruct (workers_ s !! w) as [[]|] eqn:Hw; try done;
    repeat (case_match; try done);
    try (by eapply queue_matches_map_ext; [| |exact H]).
  eapply pop_queue_matches_map; [eassumption|done|done|done].
Qed.

Lemma step_queue_matches_map cfg ev s :
  queue_matches_map s -> queue_matches_map (step cfg ev s).
Proof.
  destruct ev; simpl.
  - apply scan_queue_matches_map.
  - apply work_queue_matches_map.
  - unfold lease. by case_decide.
  - done.
Qed.

Lemma start_queue_matches_map n : queue_matches_map (start n).
Proof.
  split; unfold queue_ids; simpl; [constructor|].
  intros id. rewrite dom_empty. set_solver.
Qed.

(** In every reachable state the keys of the pending map are the ids of the
    pending queue, none of them twice. *)
Lemma reachable_queue_matches_map cfg n allowed s :
  reachable cfg n allowed s -> queue_matches_map s.
Proof.
  induction 1; [apply start_queue_matches_map|by apply step_queue_matches_map].
Qed.

Lemma held_insert s s' w pc' id :
  held s' id -> workers_ s' = <[w := pc']> (workers_ s) ->
  pc_holds pc' = Some id \/ held s id.
Proof.
  intros (w' & pc & Hl & Hh) Hws. rewrite Hws in Hl.
  apply list_lookup_insert_Some in Hl as [(-> & -> & _)|[_ Hl]]; [by left|].
  right. by exists w', pc.
Qed.

Lemma held_same s s' id :
  workers_ s' = workers_ s -> held s' id -> held s id.
Proof. unfold held. by intros ->. Qed.

(** Who holds an id after worker [w] moved: [w] itself or a holder of before. *)
Ltac held_cases H :=
  eapply held_insert in H; [|reflexivity]; destruct H as [H|H]; simpl in H.

Lemma scan_deferring_invariant cfg instances s :
  scanner_defers cfg s (Scan instances) ->
  deferring_invariant s -> deferring_invariant (scan cfg instances s).
Proof.
  intros Hdefer (Hq & Hh & Hd).
  destruct (scan_frame cfg instances s) as [Hwm Hws].
  split; [by apply scan_queue_matches_map|]. split.
  - intros id Hheld Hin. apply (held_same s) in Hheld; [|done].
    apply scan_pending in Hin as [Hin|([instance t] & Hit & -> & Hen)].
    + by apply (Hh id).
    + by destruct (Hdefer instance t Hit Hen).
  - unfold pending_working_disjoint. rewrite Hwm. intros id Hin Hw.
    apply scan_pending in Hin as [Hin|([instance t] & Hit & -> & Hen)].
    + by apply (Hd id).
    + by destruct (Hdefer instance t Hit Hen).
Qed.

Lemma work_deferring_invariant cfg w o s :
  deferring_invariant s -> deferring_invariant (work cfg w o s).
Proof.
  intros (Hq & Hh & Hd).
  split; [by apply work_queue_matches_map|].
  unfold work.
  destruct (workers_ s !! w) as [pc|] eqn:Hw; [|done].
  assert (forall id, pc_holds pc = Some id -> id ∉ dom (pending_instance_map_ s))
    as Hmine.
  { intros id Hid. apply Hh. by exists w, pc. }
  unfold holders_not_pending, pending_working_disjoint.
  destruct pc as [|instance t|instance t|instance t c|instance c t|instance|];
    simpl in Hmine.
  - (* AtWait *)
    destruct (stopped_ s).
    { split; [|done]. intros id Hheld. held_cases Hheld; [done|by apply Hh]. }
    destruct (pending_instance_queue_ s) as [|instance rest] eqn:Hqueue; [done|].
    simpl. split.
    + intros id Hheld. held_cases Hheld.
      * injection Hheld as <-. rewrite dom_delete. set_solver.
      * apply Hh in Hheld. rewrite dom_delete. set_solver.
    + rewrite dom_delete. set_solver.
  - (* Popped *)
    destruct (working_instance_map_ s !! instance_id instance); simpl;
      (split; [|done]); intros id Hheld; held_cases Hheld;
      try done; try (by apply Hh).
    by apply Hmine.
  - (* Claimed *)
    repeat case_decide; simpl;
      try (split; [|done]; intros id Hheld; held_cases Hheld;
           [done|by apply Hh]).
    split.
    + intros id Hheld. held_cases Hheld; [done|by apply Hh].
    + destruct (working_instance_map_ s !! instance_id instance); [done|].
      rewrite dom_insert. specialize (Hmine _ eq_refl). set_solver.
  - (* Emplaced *)
    destruct (stopped_ s); simpl; (split; [|done]); intros id Hheld;
      held_cases Hheld; try done; by apply Hh.
  - (* Checking *)
    case_decide; simpl; (split; [|done]); intros id Hheld;
      held_cases Hheld; try done; by apply Hh.
  - (* Erasing *)
    simpl. split.
    + intros id Hheld. held_cases Hheld; [done|by apply Hh].
    + rewrite dom_delete. set_solver.
  - done.
Qed.

Lemma step_deferring_invariant cfg ev s :
  scanner_defers cfg s ev ->
  deferring_invariant s -> deferring_invariant (step cfg ev s).
Proof.
  destruct ev; simpl.
  - apply scan_deferring_invariant.
  - intros _. apply work_deferring_invariant.
  - intros _. unfold lease. by case_decide.
  - by intros _.
Qed.

Lemma start_deferring_invariant n : deferring_invariant (start n).
Proof.
  split; [apply start_queue_matches_map|]. split.
  - intros id (w & pc & Hl & Hh). simpl in Hl.
    apply lookup_replicate in Hl as [-> _]. done.
  - unfold pending_working_disjoint. simpl. rewrite dom_empty. set_solver.
Qed.

Lemma reachable_run cfg n evs : reachable cfg n any_schedule (run cfg n evs).
Proof.
  unfold run. induction evs as [|ev evs IH] using rev_ind; [constructor|].
  rewrite fold_left_app. simpl. by constructor.
Qed.

(** C1, as stated, fails: while a worker has [i1] in the working map the
    scanner enqueues [i1] again, since its insert consults the pending map
    only; [i1] is then a key of both maps. *)
Lemma rescanned_in_pending_and_working :
  ~ (forall cfg n s,
       reachable cfg n any_schedule s -> pending_working_disjoint s).
Proof.
  intros H.
  specialize (H plain_config 1%nat (run plain_config 1 rescanned)
                (reachable_run _ _ _)).
  apply (H "i1"); apply elem_of_dom; eexists; vm_compute; reflexivity.
Qed.

(** C1, amended: in the interleavings in which a scan lists no instance that
    a worker holds (popped, not yet dropped or recorded) or that is a key of
    the working map, no instance id is a key of both the pending map and the
    working map. *)
Theorem pending_working_disjoint_when_scanner_defers cfg n s :
  reachable cfg n (scanner_defers cfg) s -> pending_working_disjoint s.
Proof.
  intros H. enough (deferring_invariant s) as (_ & _ & Hd) by exact Hd.
  induction H as [|s ev _ IH Hallowed].
  - apply start_deferring_invariant.
  - by apply step_deferring_invariant.
Qed.

Lemma until_emplaced_defers :
  reachable plain_config 1 (scanner_defers plain_config)
    (run plain_config 1 until_emplaced).
Proof.
  unfold run, until_emplaced. cbn [fold_left].
  repeat (apply reach_step; [|exact I]).
  apply reach_step; [apply reach_start|].
  intros instance t Hin _.
  apply list_elem_of_singleton in Hin. injection Hin as -> ->.
  split.
  - intros (w & pc & Hl & Hh). change (workers_ (start 1)) with [AtWait] in Hl.
    apply list_elem_of_lookup_2, list_elem_of_singleton in Hl.
    subst pc. discriminate Hh.
  - simpl. rewrite dom_empty. apply not_elem_of_empty.
Defined.

Lemma pending_working_disjoint_until_emplaced :
  pending_working_disjoint (run plain_config 1 until_emplaced).
Proof.
  apply (pending_working_disjoint_when_scanner_defers plain_config 1).
  exact until_emplaced_defers.
Defined.

(** Only the step that ends a check calls [finish_instance_recycle_job]. *)
Lemma work_finish_calls_elsewhere cfg w o s :
  (forall instance c t, workers_ s !! w <> Some (Checking instance c t)) ->
  finish_calls (work cfg w o s) = finish_calls s.
Proof.
  intros H. unfold work.
  destruct (workers_ s !! w) as [[]|]; repeat (case_match; simpl); try done.
  by destruct (H instance checker ctime_ms).
Qed.

(** [ret] after the two checks, case by case: -1 when the inverted check is
    switched on and returns anything but 0, the value of [do_check]
    otherwise. *)
Lemma combined_ret_cases cfg o :
  combined_ret cfg o
  = if enable_inverted_check cfg
       && negb (bool_decide (do_inverted_check_ret o = 0))
    then -1 else do_check_ret o.
Proof.
  unfold combined_ret. destruct (enable_inverted_check cfg); [|done].
  by case_decide; case_bool_decide.
Qed.

(** C4: when the check of a worker is over, with [ret] the value of
    [do_check], or -1 if the inverted check is switched on and returned
    anything but 0, [finish_instance_recycle_job] is called if and only if
    [ret] is not -1 and the checker was not stopped, and then with
    [success = (ret == 0)] and the [ctime_ms] taken before the check;
    otherwise no call is made. *)
Theorem finish_iff_not_aborted cfg w o s instance c ctime_ms :
  workers_ s !! w = Some (Checking instance c ctime_ms) ->
  let ret :=
    if enable_inverted_check cfg
       && negb (bool_decide (do_inverted_check_ret o = 0))
    then -1 else do_check_ret o in
  (ret <> -1 /\ checker_stopped s c = false ->
   finish_calls (work cfg w o s)
   = finish_calls s
       ++ [{| fin_instance_id := instance_id instance;
              fin_success := bool_decide (ret = 0);
              fin_ctime_ms := ctime_ms |}])
  /\ (ret = -1 \/ checker_stopped s c = true ->
      finish_calls (work cfg w o s) = finish_calls s).
Proof.
  intros Hw ret. unfold work. rewrite Hw.
  rewrite combined_ret_cases. fold ret. split.
  - intros [Hret Hstopped]. rewrite decide_False by done. simpl.
    by rewrite Hstopped.
  - intros [Hret|Hstopped].
    + by rewrite decide_True.
    + case_decide; [done|]. simpl. by rewrite Hstopped.
Qed.

Lemma finish_iff_not_aborted_inverted :
  (* the inverted check finds an orphan: no call *)
  finish_calls (work inverted_config 0 orphan_found
                  (run inverted_config 1 until_checking)) = []
  (* both checks are clean: success *)
  /\ finish_calls (work inverted_config 0 clean
                     (run inverted_config 1 until_checking))
     = [{| fin_instance_id := "i1"; fin_success := true;
           fin_ctime_ms := 1700000000000 |}]
  (* do_check lost a segment: no success *)
  /\ finish_calls (work inverted_config 0 segment_lost
                     (run inverted_config 1 until_checking))
     = [{| fin_instance_id := "i1"; fin_success := false;
           fin_ctime_ms := 1700000000000 |}].
Proof.
  assert (workers_ (run inverted_config 1 until_checking) !! 0%nat
          = Some (Checking i1 0 1700000000000)) as Hw
    by (vm_compute; reflexivity).
  assert (checker_stopped (run inverted_config 1 until_checking) 0 = false)
    as Hc by (vm_compute; reflexivity).
  assert (finish_calls (run inverted_config 1 until_checking) = []) as Hf
    by (vm_compute; reflexivity).
  split; [|split].
  - destruct (finish_iff_not_aborted inverted_config 0 orphan_found _ _ _ _ Hw)
      as [_ H].
    rewrite H; [exact Hf|]. left. reflexivity.
  - destruct (finish_iff_not_aborted inverted_config 0 clean _ _ _ _ Hw)
      as [H _].
    rewrite H; [by rewrite Hf|]. split; [discriminate|exact Hc].
  - destruct (finish_iff_not_aborted inverted_config 0 segment_lost _ _ _ _ Hw)
      as [H _].
    rewrite H; [by rewrite Hf|]. split; [discriminate|exact Hc].
Defined.

(** A check that ends with a [ret] other than -1 is followed by the erase. *)
Lemma work_erases_after_check cfg w o o' s instance c ctime_ms :
  workers_ s !! w = Some (Checking instance c ctime_ms) ->
  combined_ret cfg o <> -1 ->
  working_instance_map_ (work cfg w o' (work cfg w o s))
  = delete (instance_id instance) (working_instance_map_ s).
Proof.
  intros Hw Hret.
  assert (w < length (workers_ s))%nat by by eapply lookup_lt_Some.
  unfold work at 2. rewrite Hw. cbv zeta. rewrite decide_False by done.
  unfold work. simpl. by rewrite list_lookup_insert_eq.
Qed.

(** A worker whose check ends with -1 returns from the thread function: the
    entry stays in the working map and that worker makes no further step. *)
Lemma work_exits_on_minus_one cfg w o s instance c ctime_ms :
  workers_ s !! w = Some (Checking instance c ctime_ms) ->
  combined_ret cfg o = -1 ->
  working_instance_map_ (work cfg w o s) = working_instance_map_ s
  /\ workers_ (work cfg w o s) !! w = Some Exited
  /\ forall o', work cfg w o' (work cfg w o s) = work cfg w o s.
Proof.
  intros Hw Hret.
  assert (w < length (workers_ s))%nat by by eapply lookup_lt_Some.
  assert (work cfg w o s = set_worker w Exited s) as ->.
  { unfold work. rewrite Hw. cbv zeta. by rewrite decide_True. }
  simpl. rewrite list_lookup_insert_eq by done. split; [done|]. split; [done|].
  intros o'. unfold work. simpl. by rewrite list_lookup_insert_eq.
Qed.

(** C5 on the code: after do_check returned -1 for [i1] the worker has
    exited, [i1] is still a key of the working map, and no later step of that
    worker changes anything. *)
Theorem check_aborted_keeps_working_entry :
  let s := run plain_config 1 check_aborted in
  working_instance_map_ s !! "i1" = Some 0%nat
  /\ workers_ s !! 0%nat = Some Exited
  /\ forall o, work plain_config 0 o s = s.
Proof.
  intros s.
  assert (s = work plain_config 0 scan_error (run plain_config 1 until_checking))
    as Hs.
  { unfold s, run, check_aborted. by rewrite fold_left_app. }
  assert (workers_ (run plain_config 1 until_checking) !! 0%nat
          = Some (Checking i1 0 1700000000000)) as Hw
    by (vm_compute; reflexivity).
  destruct (work_exits_on_minus_one plain_config 0 scan_error _ _ _ _
              Hw eq_refl) as (_ & Hexited & Hstuck).
  rewrite Hs. split; [vm_compute; reflexivity|]. split; [exact Hexited|].
  exact Hstuck.
Qed.

(** *** Further properties of the daemon *)

(** X1: in every state the daemon reaches, under any interleaving, the keys
    of [pending_instance_map_] are exactly the ids of the instances in
    [pending_instance_queue_], and no id is queued twice. *)
Theorem pending_keys_are_queue_ids cfg n s :
  reachable cfg n any_schedule s ->
  NoDup (queue_ids s)
  /\ forall id, id ∈ dom (pending_instance_map_ s) <-> id ∈ queue_ids s.
Proof. apply reachable_queue_matches_map. Qed.

Lemma pending_keys_are_queue_ids_rescanned :
  NoDup (queue_ids (run plain_config 1 rescanned))
  /\ forall id,
       id ∈ dom (pending_instance_map_ (run plain_config 1 rescanned))
       <-> id ∈ queue_ids (run plain_config 1 rescanned).
Proof.
  apply (pending_keys_are_queue_ids plain_config 1). apply reachable_run.
Defined.

Lemma enqueue_one_queue cfg s it :
  pending_instance_queue_ (enqueue_one cfg s it) = pending_instance_queue_ s
  \/ (pending_instance_queue_ (enqueue_one cfg s it)
      = pending_instance_queue_ s ++ [it.1]
      /\ enqueueable cfg it.1 = true).
Proof.
  unfold enqueue_one, enqueueable. destruct it as [instance t]. simpl.
  destruct (filter_out cfg (instance_id instance)); [by left|].
  destruct (decide (status instance = DELETED)); [by left|].
  destruct (pending_instance_map_ s !! instance_id instance); [by left|].
  right. simpl. split; [done|]. by rewrite bool_decide_eq_false_2.
Qed.

Lemma work_queue_suffix cfg w o s :
  pending_instance_queue_ (work cfg w o s) = pending_instance_queue_ s
  \/ exists instance,
       pending_instance_queue_ s
       = instance :: pending_instance_queue_ (work cfg w o s).
Proof.
  unfold work.
  destruct (workers_ s !! w) as [[]|]; repeat (case_match; simpl);
    try (by left).
  right. by eexists.
Qed.

(** X2: in every state the daemon reaches, every instance in the pending
    queue passed the instance filter and was not DELETED when the scanner
    listed it. *)
Theorem pending_instances_enqueueable cfg n s :
  reachable cfg n any_schedule s ->
  Forall (fun instance => enqueueable cfg instance = true)
    (pending_instance_queue_ s).
Proof.
  induction 1 as [|s ev _ IH _]; [constructor|].
  destruct ev as [instances|w o|id ret|]; simpl.
  - unfold scan. revert s IH.
    induction instances as [|it l IHl]; intros s IH; simpl; [done|].
    apply IHl. destruct (enqueue_one_queue cfg s it) as [->|[-> Hen]]; [done|].
    apply Forall_app. split; [done|]. by constructor.
  - destruct (work_queue_suffix cfg w o s) as [->|[instance Hq]]; [done|].
    rewrite Hq in IH. by apply Forall_cons in IH as [_ IH].
  - unfold lease. by case_decide.
  - done.
Qed.

Lemma pending_instances_enqueueable_without_i3 :
  Forall (fun instance => enqueueable without_i3 instance = true)
    (pending_instance_queue_
       (run without_i3 1 [Scan [(i2_deleted, 5); (i3, 6); (i1, 7)]])).
Proof.
  apply (pending_instances_enqueueable without_i3 1). apply reachable_run.
Defined.

Example scan_skips_deleted_and_filtered :
  queue_ids (run without_i3 1 [Scan [(i2_deleted, 5); (i3, 6); (i1, 7)]])
  = ["i1"].
Proof. vm_compute. reflexivity. Qed.

Lemma enqueue_one_known cfg s it :
  (enqueueable cfg it.1 = true ->
   instance_id it.1 ∈ dom (pending_instance_map_ s)) ->
  enqueue_one cfg s it = s.
Proof.
  unfold enqueue_one, enqueueable. destruct it as [instance t]. simpl.
  destruct (filter_out cfg (instance_id instance)); [done|].
  destruct (decide (status instance = DELETED)) as [|Hnd]; [done|].
  rewrite bool_decide_eq_false_2 by done. simpl. intros H.
  specialize (H eq_refl). apply elem_of_dom in H as [t' ->]. done.
Qed.

Lemma enqueue_one_pending_grows cfg s it id :
  id ∈ dom (pending_instance_map_ s) ->
  id ∈ dom (pending_instance_map_ (enqueue_one cfg s it)).
Proof.
  unfold enqueue_one. destruct it as [instance t].
  repeat (case_match; simpl); try done.
  rewrite dom_insert. set_solver.
Qed.

Lemma enqueue_one_enqueues cfg s it :
  enqueueable cfg it.1 = true ->
  instance_id it.1 ∈ dom (pending_instance_map_ (enqueue_one cfg s it)).
Proof.
  unfold enqueue_one, enqueueable. destruct it as [instance t]. simpl.
  destruct (filter_out cfg (instance_id instance)); [done|].
  destruct (decide (status instance = DELETED)) as [|Hnd].
  { by rewrite bool_decide_eq_true_2. }
  intros _.
  destruct (pending_instance_map_ s !! instance_id instance) eqn:Hl.
  - apply elem_of_dom. by eexists.
  - simpl. rewrite dom_insert. set_solver.
Qed.

Lemma scan_pending_grows cfg l s id :
  id ∈ dom (pending_instance_map_ s) ->
  id ∈ dom (pending_instance_map_ (scan cfg l s)).
Proof.
  unfold scan. revert s. induction l as [|it l IH]; intros s H; simpl; [done|].
  by apply IH, enqueue_one_pending_grows.
Qed.

Lemma scan_enqueues cfg l s it :
  it ∈ l -> enqueueable cfg it.1 = true ->
  instance_id it.1 ∈ dom (pending_instance_map_ (scan cfg l s)).
Proof.
  unfold scan. revert s. induction l as [|it' l IH]; intros s Hin Hen.
  { by apply elem_of_nil in Hin. }
  simpl. apply elem_of_cons in Hin as [->|Hin].
  - apply (scan_pending_grows cfg l). by apply enqueue_one_enqueues.
  - by apply IH.
Qed.

Lemma scan_known cfg l s :
  (forall it, it ∈ l -> enqueueable cfg it.1 = true ->
     instance_id it.1 ∈ dom (pending_instance_map_ s)) ->
  scan cfg l s = s.
Proof.
  unfold scan. induction l as [|it l IH]; intros H; simpl; [done|].
  rewrite enqueue_one_known by (apply H; by left).
  apply IH. intros it' Hin. apply H. by right.
Qed.

(** X3: a scan changes nothing when every instance it lists that passes the
    filter and is not DELETED has the id of an instance that is pending
    already or that the scan before it enqueued, whatever the rest of its
    record, the order of the listing or the clock say: nothing is queued
    twice and the enqueue time of the first scan is kept. *)
Theorem rescan_changes_nothing cfg l1 l2 s :
  (forall instance2 t2,
     (instance2, t2) ∈ l2 -> enqueueable cfg instance2 = true ->
     instance_id instance2 ∈ dom (pending_instance_map_ s)
     \/ exists instance1 t1,
          (instance1, t1) ∈ l1
          /\ enqueueable cfg instance1 = true
          /\ instance_id instance1 = instance_id instance2) ->
  scan cfg l2 (scan cfg l1 s) = scan cfg l1 s.
Proof.
  intros Hknown. apply scan_known. intros [instance2 t2] Hin Hen. simpl in *.
  destruct (Hknown instance2 t2 Hin Hen)
    as [Hpending|(instance1 & t1 & Hin1 & Hen1 & <-)].
  - by apply scan_pending_grows.
  - by apply (scan_enqueues cfg l1 s (instance1, t1)).
Qed.

Lemma rescan_changes_nothing_i1 :
  scan plain_config
    [({| instance_id := "i3"; status := OVERDUE; ctime := 7 |}, 1700000060);
     (i2_deleted, 1700000061);
     (i1, 1700000062)]
    (scan plain_config [(i1, 1699999999); (i3, 1700000000)] (start 1))
  = scan plain_config [(i1, 1699999999); (i3, 1700000000)] (start 1).
Proof.
  apply rescan_changes_nothing. intros instance2 t2 Hin Hen. right.
  apply elem_of_cons in Hin as [[= -> ->]|Hin].
  { exists i3, 1700000000. split_and!; [|reflexivity..].
    apply elem_of_cons. right. apply elem_of_cons. by left. }
  apply elem_of_cons in Hin as [[= -> ->]|Hin].
  { by vm_compute in Hen. }
  apply list_elem_of_singleton in Hin as [= -> ->].
  exists i1, 1699999999. split_and!; [|reflexivity..].
  apply elem_of_cons. by left.
Defined.

(** X4: once the daemon is stopped, a step of a check worker takes nothing
    out of the pending queue, leaves the daemon stopped and does not leave
    that worker with a check in flight. *)
Theorem stopped_worker_starts_nothing cfg w o s :
  stopped_ s = true ->
  pending_instance_queue_ (work cfg w o s) = pending_instance_queue_ s
  /\ pending_instance_map_ (work cfg w o s) = pending_instance_map_ s
  /\ stopped_ (work cfg w o s) = true
  /\ forall instance c t,
       workers_ (work cfg w o s) !! w <> Some (Checking instance c t).
Proof.
  intros Hstopped. unfold work.
  destruct (workers_ s !! w) as [pc|] eqn:Hw.
  2: { repeat split; try done. intros ???. by rewrite Hw. }
  assert (w < length (workers_ s))%nat as Hlt by by eapply lookup_lt_Some.
  destruct pc; rewrite ?Hstopped; repeat (case_match; simpl);
    repeat split; try done; intros ???; simpl;
    rewrite ?list_lookup_insert_eq by done; try done.
  by rewrite Hw.
Qed.

Lemma stopped_worker_starts_nothing_emplaced :
  let s := stop (run plain_config 1 until_emplaced) in
  pending_instance_queue_ (work plain_config 0 clean s)
  = pending_instance_queue_ s
  /\ pending_instance_map_ (work plain_config 0 clean s)
     = pending_instance_map_ s
  /\ stopped_ (work plain_config 0 clean s) = true
  /\ forall instance c t,
       workers_ (work plain_config 0 clean s) !! 0%nat
       <> Some (Checking instance c t).
Proof.
  apply (stopped_worker_starts_nothing plain_config 0 clean). reflexivity.
Defined.

Lemma scan_checkers cfg instances s :
  checkers (scan cfg instances s) = checkers s.
Proof.
  unfold scan. revert s. induction instances as [|[instance t] l IH];
    intros s; simpl; [done|].
  rewrite IH. unfold enqueue_one. by repeat case_match.
Qed.

(** Marking the checkers of a list of map entries as stopped. *)
Lemma stop_all_spec (l : list (string * nat)) (cs : list bool) :
  let cs' :=
    foldr (uncurry (fun (_ : string) (c : nat) (cs : list bool) =>
                      <[c := true]> cs)) cs l in
  length cs' = length cs
  /\ forall id c, (id, c) ∈ l -> (c < length cs)%nat -> cs' !! c = Some true.
Proof.
  induction l as [|[id0 c0] l [IHlen IH]]; simpl.
  { split; [done|]. intros id c Hin. by apply elem_of_nil in Hin. }
  split; [by rewrite length_insert|].
  intros id c Hin Hc. destruct (decide (c0 = c)) as [->|Hne].
  - apply list_lookup_insert_eq. by rewrite IHlen.
  - rewrite list_lookup_insert_ne by done.
    apply elem_of_cons in Hin as [[= _ ?]|Hin]; [done|]. by apply (IH id).
Qed.

Lemma stop_checkers s :
  length (checkers (stop s)) = length (checkers s)
  /\ forall id c, working_instance_map_ s !! id = Some c ->
       (c < length (checkers s))%nat ->
       checkers (stop s) !! c = Some true.
Proof.
  unfold stop. simpl. rewrite map_fold_foldr.
  destruct (stop_all_spec (map_to_list (working_instance_map_ s)) (checkers s))
    as [Hlen H].
  split; [exact Hlen|]. intros id c Hl Hc.
  apply (H id); [|done]. by apply elem_of_map_to_list.
Qed.

Lemma start_checkers_allocated n : checkers_allocated (start n).
Proof.
  split; simpl.
  - intros id c H. by rewrite lookup_empty in H.
  - intros w pc c Hl Hc. apply lookup_replicate in Hl as [-> _]. done.
Qed.

Lemma work_checkers_allocated cfg w o s :
  checkers_allocated s -> checkers_allocated (work cfg w o s).
Proof.
  intros [Hmap Hws]. unfold work.
  destruct (workers_ s !! w) as [pc|] eqn:Hw; [|done].
  assert (forall c, pc_checker pc = Some c -> (c < length (checkers s))%nat)
    as Hmine by (intros c; by apply (Hws w)).
  assert (forall pc' (cs : list bool),
            (length (checkers s) <= length cs)%nat ->
            (forall c, pc_checker pc' = Some c -> (c < length cs)%nat) ->
            forall w' pc'' c, <[w := pc']> (workers_ s) !! w' = Some pc'' ->
              pc_checker pc'' = Some c -> (c < length cs)%nat) as Hset.
  { intros pc' cs Hlen Hpc' w' pc'' c Hl Hc.
    apply list_lookup_insert_Some in Hl as [(_ & <- & _)|[_ Hl]]; [by apply Hpc'|].
    specialize (Hws w' pc'' c Hl Hc). lia. }
  destruct pc; simpl in Hmine; repeat (case_match; simpl);
    try (by split);
    (split; simpl;
     [ intros id c Hl; rewrite ?length_app; simpl;
       try (apply lookup_insert_Some in Hl as [[_ <-]|[_ Hl]]; [lia|]);
       try (apply lookup_delete_Some in Hl as [_ Hl]);
       specialize (Hmap id c Hl); lia
     | apply Hset;
       [ rewrite ?length_app; simpl; lia
       | intros c' Hc'; simpl in Hc'; try done; injection Hc' as <-;
         rewrite ?length_app; simpl; try lia;
         specialize (Hmine _ eq_refl); lia ] ]).
Qed.

(** In every reachable state the checkers referred to exist. *)
Lemma reachable_checkers_allocated cfg n allowed s :
  reachable cfg n allowed s -> checkers_allocated s.
Proof.
  induction 1 as [|s ev _ IH _]; [apply start_checkers_allocated|].
  destruct ev as [instances|w o|id ret|]; simpl.
  - destruct IH as [Hmap Hws].
    destruct (scan_frame cfg instances s) as [Hwm Hwk].
    split; rewrite scan_checkers.
    + by rewrite Hwm.
    + by rewrite Hwk.
  - by apply work_checkers_allocated.
  - unfold lease. case_decide; [|done]. destruct IH as [Hmap Hws].
    assert (length (stop_checker_of id s) = length (checkers s)) as Hlen.
    { unfold stop_checker_of. case_match; [apply length_insert|done]. }
    split; simpl; rewrite Hlen; done.
  - destruct IH as [Hmap Hws]. destruct (stop_checkers s) as [Hlen _].
    split; rewrite Hlen; done.
Qed.

(** X5: when the lease of an instance is lost ([lease_instance_recycle_job]
    answers 1) while a worker checks it with the checker recorded in the
    working map, that worker's check ends without a call of
    [finish_instance_recycle_job], whatever the check returns. *)
Theorem lease_lost_no_finish cfg n s w o instance c ctime_ms :
  reachable cfg n any_schedule s ->
  workers_ s !! w = Some (Checking instance c ctime_ms) ->
  working_instance_map_ s !! instance_id instance = Some c ->
  finish_calls (work cfg w o (lease (instance_id instance) 1 s))
  = finish_calls s.
Proof.
  intros Hreach Hw Hmap.
  destruct (reachable_checkers_allocated _ _ _ _ Hreach) as [Hc _].
  specialize (Hc _ _ Hmap).
  unfold lease. rewrite decide_True by done.
  unfold work. simpl. rewrite Hw. cbv zeta.
  case_decide; [done|]. simpl.
  unfold checker_stopped, stop_checker_of. simpl. rewrite Hmap.
  by rewrite list_lookup_insert_eq.
Qed.

Lemma lease_lost_no_finish_i1 :
  finish_calls
    (work plain_config 0 clean
       (lease "i1" 1 (run plain_config 1 until_checking)))
  = finish_calls (run plain_config 1 until_checking).
Proof.
  apply (lease_lost_no_finish plain_config 1 _ 0 clean i1 0 1700000000000).
  - apply reachable_run.
  - vm_compute. reflexivity.
  - vm_compute. reflexivity.
Defined.

(** X6: [Checker::stop()] sets the stop flag and stops every checker of the
    working map, so that a worker checking with a recorded checker ends its
    check without a call of [finish_instance_recycle_job]. *)
Theorem stop_no_finish cfg n s w o instance c ctime_ms :
  reachable cfg n any_schedule s ->
  workers_ s !! w = Some (Checking instance c ctime_ms) ->
  working_instance_map_ s !! instance_id instance = Some c ->
  stopped_ (stop s) = true
  /\ (forall id c', working_instance_map_ s !! id = Some c' ->
        checker_stopped (stop s) c' = true)
  /\ finish_calls (work cfg w o (stop s)) = finish_calls s.
Proof.
  intros Hreach Hw Hmap.
  destruct (reachable_checkers_allocated _ _ _ _ Hreach) as [Hc _].
  destruct (stop_checkers s) as [_ Hstopped].
  assert (forall id c', working_instance_map_ s !! id = Some c' ->
            checker_stopped (stop s) c' = true) as Hall.
  { intros id c' Hl. unfold checker_stopped.
    by rewrite (Hstopped id c' Hl (Hc _ _ Hl)). }
  split; [done|]. split; [exact Hall|].
  unfold work. change (workers_ (stop s)) with (workers_ s). rewrite Hw.
  cbv zeta. case_decide; [done|].
  cbn [finish_calls]. rewrite (Hall _ _ Hmap). done.
Qed.

Lemma stop_no_finish_i1 :
  stopped_ (stop (run plain_config 1 until_checking)) = true
  /\ (forall id c', working_instance_map_ (run plain_config 1 until_checking)
                      !! id = Some c' ->
        checker_stopped (stop (run plain_config 1 until_checking)) c' = true)
  /\ finish_calls
       (work plain_config 0 clean (stop (run plain_config 1 until_checking)))
     = finish_calls (run plain_config 1 until_checking).
Proof.
  apply (stop_no_finish plain_config 1 _ 0 clean i1 0 1700000000000).
  - apply reachable_run.
  - vm_compute. reflexivity.
  - vm_compute. reflexivity.
Defined.

End DaemonProps.

(** ** The forward check *)

Module ForwardCheckProps.
Import InstanceChecker.

Lemma same_but_probes_refl st : same_but_probes st st.
Proof. by repeat split. Qed.

Lemma same_but_probes_trans st1 st2 st3 :
  same_but_probes st1 st2 -> same_but_probes st2 st3 -> same_but_probes st1 st3.
Proof.
  intros (?&?&?&?&?&?) (?&?&?&?&?&?). repeat split; congruence.
Qed.

(** A segment that is listed costs nothing. *)
Lemma check_segment_listed kv vault rs key st i :
  segment_path vault (tablet_id rs) (rowset_id_v2 rs) i
    ∈ files (tablet_files_cache st) ->
  check_segment kv vault rs key st i = st.
Proof. intros H. unfold check_segment. by rewrite decide_True. Qed.

(** A segment that is not listed, of a rowset whose key reads as not found,
    is passed over: one more probe, no failure counted, nothing logged. *)
Lemma check_segment_deleted kv vault rs key st i :
  segment_path vault (tablet_id rs) (rowset_id_v2 rs) i
    ∉ files (tablet_files_cache st) ->
  kv_probe kv (probes st) key
  = {| create_txn := TXN_OK; get := TXN_KEY_NOT_FOUND |} ->
  check_segment kv vault rs key st i = probed [] st.
Proof.
  intros Habsent Hprobe. unfold check_segment.
  rewrite decide_False by done. rewrite Hprobe. simpl. done.
Qed.

(** A segment that is not listed, of a rowset whose key is still there (or
    cannot be read), is counted and logged. *)
Lemma check_segment_lost kv vault rs key st i :
  segment_path vault (tablet_id rs) (rowset_id_v2 rs) i
    ∉ files (tablet_files_cache st) ->
  (key_exist (kv_probe kv (probes st) key)).1 <> 1 ->
  let st' := check_segment kv vault rs key st i in
  num_check_failed st' = num_check_failed st + 1
  /\ object_not_exist
       (segment_path vault (tablet_id rs) (rowset_id_v2 rs) i) key
     ∈ warnings st'.
Proof.
  intros Habsent Hprobe. unfold check_segment.
  rewrite decide_False by done.
  destruct (key_exist (kv_probe kv (probes st) key)) as [r ws]. simpl in *.
  rewrite decide_False by done. simpl. split; [done|].
  rewrite !elem_of_app. right. apply list_elem_of_singleton. done.
Qed.

(** So the missing segment of a rowset that was deleted in the meantime
    leaves [num_check_failed] and the warnings as they are. *)
Lemma missing_segment_of_deleted_rowset kv vault rs key st i :
  segment_path vault (tablet_id rs) (rowset_id_v2 rs) i
    ∉ files (tablet_files_cache st) ->
  kv_probe kv (probes st) key
  = {| create_txn := TXN_OK; get := TXN_KEY_NOT_FOUND |} ->
  num_check_failed (check_segment kv vault rs key st i) = num_check_failed st
  /\ warnings (check_segment kv vault rs key st i) = warnings st.
Proof.
  intros Habsent Hprobe. rewrite check_segment_deleted by done. simpl.
  by rewrite app_nil_r.
Qed.

Lemma probed_nil_same st : same_but_probes st (probed [] st).
Proof. repeat split. simpl. apply app_nil_r. Qed.

Lemma check_segments_same kv vault rs key l st :
  (forall i, i ∈ l ->
     segment_path vault (tablet_id rs) (rowset_id_v2 rs) i
       ∈ files (tablet_files_cache st)
     \/ deleted kv key) ->
  same_but_probes st (fold_left (check_segment kv vault rs key) l st).
Proof.
  revert st. induction l as [|i l IH]; intros st H; simpl.
  { apply same_but_probes_refl. }
  assert (same_but_probes st (check_segment kv vault rs key st i)) as Hsame.
  { destruct (decide (segment_path vault (tablet_id rs) (rowset_id_v2 rs) i
                        ∈ files (tablet_files_cache st))) as [Hin|Hout].
    - rewrite check_segment_listed by done. apply same_but_probes_refl.
    - destruct (H i) as [?|Hdel]; [by left|done|].
      rewrite check_segment_deleted by done. apply probed_nil_same. }
  eapply same_but_probes_trans; [exact Hsame|]. apply IH.
  intros j Hj. destruct Hsame as (_&_&_&_&->&_). apply H. by right.
Qed.

Lemma clean_so_far_same ck kv st st' :
  same_but_probes st st' -> clean_so_far ck kv st -> clean_so_far ck kv st'.
Proof.
  intros (_&_&Hf&_&Hc&Hw) (?&?&?). unfold clean_so_far.
  rewrite Hf, Hc, Hw. done.
Qed.

Lemma rowsets_of_elem kv key rs :
  (key, Some rs) ∈ range_kvs (visible_rowsets kv) -> rs ∈ rowsets_of kv.
Proof.
  intros H. unfold rowsets_of. apply list_elem_of_omap.
  exists (key, Some rs). done.
Qed.

(** One rowset that has nothing wrong leaves the scan clean. *)
Lemma check_rowset_objects_clean ck kv rs key st :
  rs ∈ rowsets_of kv ->
  one_vault_per_tablet kv ->
  (num_segments rs <> 0 -> tablet_id rs <> 0 /\ vault_listed ck rs) ->
  (forall i, 0 <= i < num_segments rs ->
     segment_listed ck rs i \/ deleted kv key) ->
  clean_so_far ck kv st ->
  exists st',
    check_rowset_objects ck kv rs key st = Some st'
    /\ clean_so_far ck kv st'
    /\ num_scanned st' = num_scanned st.
Proof.
  intros Hin Hone Hsegments Hsegs (Hfailed & Hwarn & Hcache).
  unfold check_rowset_objects.
  destruct (decide (num_segments rs = 0)) as [|Hn]; [by exists st|].
  destruct (Hsegments Hn) as (Hnz & vault & Hvault & Hlist).
  (* the segments, once the cache holds the listing of the vault of [rs] *)
  assert (forall st0 : check_state,
            files (tablet_files_cache st0) = tablet_listing vault (tablet_id rs) ->
            same_but_probes st0
              (fold_left (check_segment kv vault rs key)
                 (seqZ 0 (num_segments rs)) st0)) as Hloop.
  { intros st0 Hfiles.
    apply check_segments_same. intros i Hi. apply elem_of_seqZ in Hi.
    destruct (Hsegs i) as [(vault' & Hv' & Hl)|Hd]; [lia| |by right].
    left. rewrite Hfiles. congruence. }
  unfold refresh_cache. cbn [tablet_files_cache incr_with_segment].
  destruct (decide (tf_tablet_id (tablet_files_cache st) = tablet_id rs))
    as [Hhit|Hmiss].
  - (* the cache is for this tablet: it was filled from the same vault *)
    destruct Hcache
      as [Hempty|(rs0 & vault0 & Hin0 & Hn0 & Htab & Hsv & Hv0 & Hfiles)].
    { rewrite Hempty in Hhit. simpl in Hhit. congruence. }
    assert (vault0 = vault) as ->.
    { assert (resource_id rs0 = resource_id rs) as Hsame
        by (apply Hone; congruence).
      congruence. }
    cbn [tablet_files_cache incr_with_segment]. rewrite Hsv.
    eexists. split; [done|].
    specialize (Hloop (incr_with_segment st) ltac:(simpl; congruence)).
    split.
    + eapply clean_so_far_same; [exact Hloop|].
      split_and!; try done. right. by exists rs0, vault.
    + by destruct Hloop as (-> & _).
  - (* another tablet: list its directory *)
    rewrite Hvault. rewrite decide_True by done.
    cbn [tablet_files_cache add_volume set_cache storage_vault].
    eexists. split; [done|].
    match goal with |- context [fold_left _ _ ?st0] =>
      specialize (Hloop st0 eq_refl)
    end.
    split.
    + eapply clean_so_far_same; [exact Hloop|].
      split_and!; try done. right. by exists rs, vault.
    + by destruct Hloop as (-> & _).
Qed.

(** The loop over the range keeps the scan clean and counts every record. *)
Lemma scan_rowsets_clean ck kv l st :
  one_vault_per_tablet kv ->
  (forall key o, (key, o) ∈ l ->
     exists rs, o = Some rs /\ rs ∈ rowsets_of kv
                /\ (num_segments rs <> 0 ->
                    tablet_id rs <> 0 /\ vault_listed ck rs)
                /\ forall i, 0 <= i < num_segments rs ->
                     segment_listed ck rs i \/ deleted kv key) ->
  clean_so_far ck kv st ->
  exists st',
    scan_rowsets ck kv l st = Some st'
    /\ clean_so_far ck kv st'
    /\ num_scanned st' = num_scanned st + Z.of_nat (length l).
Proof.
  intros Hone. revert st. induction l as [|[key o] l IH]; intros st H Hclean.
  { exists st. simpl. split_and!; try apply Hclean; try done. lia. }
  destruct (H key o) as (rs & -> & Hin & Hv & Hsegs); [by left|].
  destruct (check_rowset_objects_clean ck kv rs key (incr_scanned st))
    as (st1 & Hrow & Hclean1 & Hn1); try done.
  cbn [scan_rowsets]. unfold scan_rowset. cbn [snd fst]. rewrite Hrow.
  destruct (IH st1) as (st2 & Hrest & Hclean2 & Hn2); [|done|].
  { intros key' o' Hin'. apply H. by right. }
  exists st2. split; [done|]. split; [done|].
  rewrite Hn2, Hn1. cbn [num_scanned incr_scanned length]. lia.
Qed.

Lemma check_start_clean ck kv : clean_so_far ck kv check_start.
Proof. split_and!; try done. by left. Qed.

(** The forward check of a store in which nothing is wrong but segments of
    rowsets deleted while the check runs: every record deserializes; no
    record with segments has the tablet id 0; each record with segments
    names a vault of the registry whose tablet listing succeeds, the same
    vault for all the rowsets of one tablet; each segment is in that listing
    or the key of its rowset is gone when it is read again; and the range
    iterator is valid at the end. *)
Lemma do_check_listed_or_deleted ck kv :
  Forall (fun kvp => is_Some kvp.2) (range_kvs (visible_rowsets kv)) ->
  no_tablet_zero kv ->
  one_vault_per_tablet kv ->
  (forall rs, rs ∈ rowsets_of kv -> num_segments rs <> 0 -> vault_listed ck rs) ->
  (forall key rs i,
     (key, Some rs) ∈ range_kvs (visible_rowsets kv) ->
     0 <= i < num_segments rs ->
     segment_listed ck rs i \/ deleted kv key) ->
  range_valid (visible_rowsets kv) = true ->
  exists st,
    do_check ck kv = Returned 0 st
    /\ num_check_failed st = 0
    /\ num_scanned st = Z.of_nat (length (range_kvs (visible_rowsets kv)))
    /\ warnings st = [].
Proof.
  intros Hparsed Htab Hone Hvaults Hsegs Hvalid.
  destruct (scan_rowsets_clean ck kv (range_kvs (visible_rowsets kv)) check_start)
    as (st & Hscan & (Hf & Hw & _) & Hn); [done| |apply check_start_clean|].
  - intros key o Hin.
    pose proof (proj1 (Forall_forall _ _) Hparsed _ Hin) as [rs Hrs].
    simpl in Hrs. subst o. exists rs.
    pose proof (rowsets_of_elem _ _ _ Hin) as Hrs.
    split; [done|]. split; [done|]. split.
    + intros Hn. split; [by apply Htab|by apply Hvaults].
    + intros i Hi. by apply (Hsegs key rs i).
  - exists st. unfold do_check. rewrite Hscan, Hvalid, Hf. simpl.
    split_and!; done.
Qed.

(** A record with segments and the tablet id 0, met while the cache is as it
    starts, ends the scan in the exception of [storage_vault.value()]: the
    record is taken for a cache hit, and the cache holds no vault. *)
Lemma scan_rowsets_tablet_zero_throws ck kv key rs rest st :
  tablet_files_cache st = empty_TabletFiles ->
  tablet_id rs = 0 -> num_segments rs <> 0 ->
  scan_rowsets ck kv ((key, Some rs) :: rest) st = None.
Proof.
  intros Hcache Htab Hn. cbn [scan_rowsets]. unfold scan_rowset. cbn [fst snd].
  unfold check_rowset_objects. rewrite decide_False by done.
  unfold refresh_cache. cbn [tablet_files_cache incr_with_segment incr_scanned].
  rewrite Hcache. cbn [tf_tablet_id empty_TabletFiles].
  rewrite decide_True by done.
  cbn [tablet_files_cache incr_with_segment incr_scanned].
  by rewrite Hcache.
Qed.

Lemma rowsets_of_kv_of key rs probe rs' :
  rs' ∈ rowsets_of (kv_of key rs probe) -> rs' = rs.
Proof. intros Hin. by apply list_elem_of_singleton in Hin. Qed.

Lemma rowsets_of_two_vaults rs :
  rs ∈ rowsets_of two_vaults_kv -> rs = R1 100 1 \/ rs = R2 100 1.
Proof.
  unfold rowsets_of. simpl. intros Hin.
  apply elem_of_cons in Hin as [->|Hin]; [by left|].
  apply list_elem_of_singleton in Hin. by right.
Qed.

(** C2, as stated, fails: tablet 100 has a rowset in each of two vaults and
    the segment of each is listed in the tablet directory of the vault the
    rowset names, so every premise is met; [do_check] lists the tablet once,
    in the vault of the first rowset, looks for the segment of the second
    rowset there and returns -2. *)
Lemma two_vaults_do_check_reports_loss :
  ~ (forall ck kv,
       complete ck kv ->
       exists st,
         do_check ck kv = Returned 0 st
         /\ num_check_failed st = 0
         /\ num_scanned st = Z.of_nat (length (range_kvs (visible_rowsets kv)))).
Proof.
  intros H. destruct (H two_vaults_checker two_vaults_kv) as (st & Hret & _).
  - split.
    + repeat constructor; by eexists.
    + intros rs [-> | ->]%rowsets_of_two_vaults;
        (eexists; split; [reflexivity|reflexivity]).
    + intros rs i [-> | ->]%rowsets_of_two_vaults Hi;
        cbn [num_segments R1 R2] in Hi; assert (i = 0) as -> by lia;
        (eexists; split; [reflexivity|vm_compute; reflexivity]).
    + reflexivity.
  - vm_compute in Hret. discriminate Hret.
Qed.

(** C2, amended: over a store with N rowset records that all deserialize,
    each naming a vault of the registry whose tablet listing succeeds and
    has every segment of the rowset, the rowsets with segments of one tablet
    all naming the same vault and none of them with the tablet id 0, and
    with the range iterator valid at the end, [do_check] returns 0 with
    [num_check_failed = 0] and [num_scanned = N]. *)
Theorem do_check_complete ck kv :
  complete ck kv ->
  one_vault_per_tablet kv ->
  no_tablet_zero kv ->
  exists st,
    do_check ck kv = Returned 0 st
    /\ num_check_failed st = 0
    /\ num_scanned st = Z.of_nat (length (range_kvs (visible_rowsets kv))).
Proof.
  intros [Hparsed Hvaults Hsegs Hvalid] Hone Htab.
  destruct (do_check_listed_or_deleted ck kv) as (st & ? & ? & ? & _);
    try done.
  - intros rs Hin _. by apply Hvaults.
  - intros key rs i Hin Hi. left.
    apply Hsegs; [|done]. by eapply rowsets_of_elem.
  - by exists st.
Qed.

Lemma rowsets_of_two_tablets rs :
  rs ∈ rowsets_of two_tablets_kv ->
  resource_id rs = "v1"
  /\ (rs = R1 0 0 \/ rs = R1 100 2
      \/ rs = {| tablet_id := 100; rowset_id_v2 := "R3";
                 resource_id := "v1"; num_segments := 1 |}
      \/ rs = R1 200 1).
Proof.
  unfold rowsets_of. simpl. intros Hin.
  repeat (apply elem_of_cons in Hin as [->|Hin]; [split; [done|tauto]|]).
  by apply elem_of_nil in Hin.
Qed.

Lemma two_tablets_complete : complete two_tablets_checker two_tablets_kv.
Proof.
  split.
  - repeat constructor; by eexists.
  - intros rs [_ Hrs]%rowsets_of_two_tablets.
    destruct Hrs as [->|[->|[->| ->]]]; (eexists; split; reflexivity).
  - intros rs i [_ Hrs]%rowsets_of_two_tablets Hi.
    assert (num_segments rs <= 2) as Hle
      by (destruct Hrs as [->|[->|[->| ->]]]; simpl; lia).
    assert (i = 0 \/ i = 1) as Hi01 by lia.
    destruct Hrs as [->|[->|[->| ->]]]; cbn [num_segments R1] in Hi;
      destruct Hi01 as [-> | ->]; try lia;
      (eexists; split; [reflexivity|vm_compute; reflexivity]).
  - reflexivity.
Defined.

Lemma do_check_complete_two_tablets :
  exists st,
    do_check two_tablets_checker two_tablets_kv = Returned 0 st
    /\ num_check_failed st = 0
    /\ num_scanned st = 4.
Proof.
  apply (do_check_complete two_tablets_checker two_tablets_kv
           two_tablets_complete).
  - intros rs rs' [Hv _]%rowsets_of_two_tablets
      [Hv' _]%rowsets_of_two_tablets _ _ _. congruence.
  - intros rs [_ Hrs]%rowsets_of_two_tablets Hn.
    destruct Hrs as [->|[->|[->| ->]]]; done.
Defined.

Example two_tablets_do_check :
  exists st,
    do_check two_tablets_checker two_tablets_kv = Returned 0 st
    /\ num_scanned st = 4 /\ num_scanned_with_segment st = 3
    /\ instance_volume st = 100 /\ warnings st = [].
Proof. eexists. vm_compute. split_and!; reflexivity. Qed.

Lemma S1_complete : complete S1_checker S1_kv.
Proof.
  split.
  - repeat constructor. by eexists.
  - intros rs ->%rowsets_of_kv_of. eexists. split; reflexivity.
  - intros rs i ->%rowsets_of_kv_of Hi. cbn [num_segments R1] in Hi.
    assert (i = 0 \/ i = 1) as [-> | ->] by lia;
      (eexists; split; [reflexivity|vm_compute; reflexivity]).
  - reflexivity.
Qed.

(** What the check reports for the tablet in two vaults: the segment of the
    second rowset, looked for in the vault of the first. *)
Example two_vaults_do_check :
  exists st, do_check two_vaults_checker two_vaults_kv = Returned (-2) st
             /\ num_scanned st = 2 /\ num_check_failed st = 1
             /\ warnings st
                = [object_not_exist "data/100/R2_0.dat" "meta_rowset/i1/100/3"].
Proof. eexists. vm_compute. split_and!; reflexivity. Qed.

(** C3 on the code: the one record has the tablet id 0 and one segment, which
    is not in the listing of its vault, and its key reads TXN_KEY_NOT_FOUND
    whenever it is read again: the only missing segment is that of a deleted
    rowset.  The claim has [do_check] return 0; it ends in
    [std::bad_optional_access] instead, before the segment is looked at. *)
Theorem deleted_rowset_of_tablet_zero_throws :
  range_kvs (visible_rowsets tablet0_deleted_kv)
  = [("meta_rowset/i1/0/2", Some (R1 0 1))]
  /\ range_valid (visible_rowsets tablet0_deleted_kv) = true
  /\ vault_listed tablet0_deleted_checker (R1 0 1)
  /\ ~ segment_listed tablet0_deleted_checker (R1 0 1) 0
  /\ deleted tablet0_deleted_kv "meta_rowset/i1/0/2"
  /\ do_check tablet0_deleted_checker tablet0_deleted_kv = Threw.
Proof.
  split; [reflexivity|]. split; [reflexivity|]. split; [|split; [|split]].
  - eexists. split; reflexivity.
  - intros (vault & Hv & Hin). injection Hv as <-.
    unfold tablet_listing in Hin. apply elem_of_list_to_set in Hin.
    vm_compute in Hin. by apply elem_of_nil in Hin.
  - intros n. reflexivity.
  - unfold do_check.
    change (range_kvs (visible_rowsets tablet0_deleted_kv))
      with [("meta_rowset/i1/0/2", Some (R1 0 1))].
    by rewrite scan_rowsets_tablet_zero_throws.
Qed.

(** With a tablet id other than 0 the missing segment of the deleted rowset
    is passed over and the check is clean. *)
Example S3_do_check :
  exists st,
    do_check S2_checker S3_kv = Returned 0 st
    /\ num_check_failed st = 0 /\ warnings st = [].
Proof. eexists. vm_compute. split_and!; reflexivity. Qed.

(** S2, real loss: the key of the rowset is still there, the check returns
    -2 and logs the one path. *)
Example S2_do_check :
  exists st,
    do_check S2_checker S2_kv = Returned (-2) st
    /\ num_check_failed st = 1
    /\ warnings st
       = [object_not_exist "data/100/R1_1.dat" "meta_rowset/i1/100/2"].
Proof. eexists. vm_compute. repeat split; reflexivity. Qed.

Example S1_do_check :
  exists st, do_check S1_checker S1_kv = Returned 0 st
             /\ num_scanned st = 1 /\ num_scanned_with_segment st = 1
             /\ num_check_failed st = 0 /\ instance_volume st = 30
             /\ warnings st = [].
Proof. eexists. vm_compute. repeat split; reflexivity. Qed.

(** The return value -1 of the daemon's scenario [scan_error]. *)
Example broken_range_do_check :
  exists st, do_check S1_checker broken_range_kv = Returned (-1) st
             /\ num_check_failed st = 0
             /\ warnings st = [failed_to_get_rowset_kv].
Proof. eexists. vm_compute. repeat split; reflexivity. Qed.

Example tablet0_do_check : do_check tablet0_checker tablet0_kv = Threw.
Proof. vm_compute. reflexivity. Qed.

(** *** Further properties of the forward check *)

Lemma grows_refl st : grows st st.
Proof. repeat split; try lia. exists []. by rewrite app_nil_r. Qed.

Lemma grows_trans st1 st2 st3 : grows st1 st2 -> grows st2 st3 -> grows st1 st3.
Proof.
  intros (? & ? & ws1 & H1) (? & ? & ws2 & H2). repeat split; try lia.
  exists (ws1 ++ ws2). by rewrite H2, H1, app_assoc.
Qed.

Lemma grows_warning st st' w : grows st st' -> w ∈ warnings st -> w ∈ warnings st'.
Proof. intros (_ & _ & ws & ->) H. apply elem_of_app. by left. Qed.

(** What one segment can change. *)
Lemma check_segment_step kv vault rs key st i :
  let st' := check_segment kv vault rs key st i in
  tablet_files_cache st' = tablet_files_cache st
  /\ num_scanned st' = num_scanned st
  /\ num_scanned_with_segment st' = num_scanned_with_segment st
  /\ instance_volume st' = instance_volume st
  /\ grows st st'.
Proof.
  unfold check_segment, grows.
  destruct (decide (_ ∈ _)); [repeat split; try lia; exists []; by rewrite app_nil_r|].
  destruct (key_exist (kv_probe kv (probes st) key)) as [r ws].
  destruct (decide (r = 1)); simpl; repeat split; try lia.
  - by exists ws.
  - eexists. by rewrite <- app_assoc.
Qed.

Lemma check_segments_step kv vault rs key l st :
  let st' := fold_left (check_segment kv vault rs key) l st in
  tablet_files_cache st' = tablet_files_cache st
  /\ num_scanned st' = num_scanned st
  /\ num_scanned_with_segment st' = num_scanned_with_segment st
  /\ instance_volume st' = instance_volume st
  /\ grows st st'.
Proof.
  revert st. induction l as [|i l IH]; intros st; simpl.
  { split_and!; try done. apply grows_refl. }
  destruct (check_segment_step kv vault rs key st i) as (Hc & Hn & Hs & Hv & Hg).
  destruct (IH (check_segment kv vault rs key st i)) as (Hc' & Hn' & Hs' & Hv' & Hg').
  split_and!; try congruence. by eapply grows_trans.
Qed.

(** A segment that is missing, of a rowset that is not deleted, is counted
    wherever it stands in the loop. *)
Lemma check_segments_lost kv vault rs key l st i :
  i ∈ l ->
  segment_path vault (tablet_id rs) (rowset_id_v2 rs) i
    ∉ files (tablet_files_cache st) ->
  (forall n, (key_exist (kv_probe kv n key)).1 <> 1) ->
  num_check_failed st + 1
  <= num_check_failed (fold_left (check_segment kv vault rs key) l st).
Proof.
  revert st. induction l as [|j l IH]; intros st Hin Habsent Hprobe.
  { by apply elem_of_nil in Hin. }
  simpl.
  destruct (check_segment_step kv vault rs key st j) as (Hc & _ & _ & _ & Hg & _).
  apply elem_of_cons in Hin as [->|Hin].
  - destruct (check_segment_lost kv vault rs key st j Habsent (Hprobe _)) as [Hf _].
    destruct (check_segments_step kv vault rs key l
                (check_segment kv vault rs key st j)) as (_&_&_&_&Hg'&_).
    lia.
  - specialize (IH (check_segment kv vault rs key st j) Hin).
    rewrite Hc in IH. specialize (IH Habsent Hprobe). lia.
Qed.

(** What one rowset can change, when the lambda returns. *)
Lemma check_rowset_objects_step ck kv rs key st st' :
  check_rowset_objects ck kv rs key st = Some st' ->
  num_scanned st' = num_scanned st
  /\ num_scanned_with_segment st' <= num_scanned_with_segment st + 1
  /\ grows st st'.
Proof.
  unfold check_rowset_objects, refresh_cache.
  destruct (decide (num_segments rs = 0)).
  { intros [= <-]. split_and!; try lia. apply grows_refl. }
  assert (grows st (incr_with_segment st)) as Hg0.
  { unfold grows. simpl. split_and!; try lia. exists []. by rewrite app_nil_r. }
  assert (forall vault (st0 : check_state),
            num_scanned st0 = num_scanned st ->
            num_scanned_with_segment st0 = num_scanned_with_segment st + 1 ->
            grows st st0 ->
            Some (fold_left (check_segment kv vault rs key)
                    (seqZ 0 (num_segments rs)) st0) = Some st' ->
            num_scanned st' = num_scanned st
            /\ num_scanned_with_segment st' <= num_scanned_with_segment st + 1
            /\ grows st st') as Hloop.
  { intros vault st0 Hn Hs Hg [= <-].
    destruct (check_segments_step kv vault rs key (seqZ 0 (num_segments rs)) st0)
      as (_ & Hn' & Hs' & _ & Hg').
    split_and!; try lia. by eapply grows_trans. }
  destruct (decide (_ = tablet_id rs)).
  - cbn [tablet_files_cache incr_with_segment].
    destruct (storage_vault (tablet_files_cache st)) as [vault|]; [|done].
    by apply Hloop.
  - cbn [tablet_files_cache incr_with_segment set_cache].
    destruct (storage_vault_map_ ck !! resource_id rs) as [vault|].
    + destruct (decide (list_ret _ = 0)).
      * cbn [tablet_files_cache add_volume set_cache storage_vault].
        apply Hloop; try done.
      * intros [= <-]. unfold grows. simpl. split_and!; try lia.
        exists []. by rewrite app_nil_r.
    + intros [= <-]. unfold grows. simpl. split_and!; try lia. by eexists.
Qed.

(** What the loop over the range changes, when it ends: every record is
    counted, and a malformed one is counted as failed and logged. *)
Lemma scan_rowsets_step ck kv l st st' :
  scan_rowsets ck kv l st = Some st' ->
  num_scanned st' = num_scanned st + Z.of_nat (length l)
  /\ num_scanned_with_segment st'
     <= num_scanned_with_segment st + Z.of_nat (length l)
  /\ grows st st'
  /\ forall key, (key, None) ∈ l ->
       num_check_failed st + 1 <= num_check_failed st'
       /\ malformed_rowset_meta key ∈ warnings st'.
Proof.
  revert st. induction l as [|[key o] l IH]; intros st.
  { intros [= <-]. simpl. split_and!; try lia; [apply grows_refl|].
    intros key H. by apply elem_of_nil in H. }
  cbn [scan_rowsets]. unfold scan_rowset. cbn [fst snd].
  destruct o as [rs|].
  - destruct (check_rowset_objects ck kv rs key (incr_scanned st))
      as [st1|] eqn:Hrow; [|done].
    intros Hrest.
    destruct (check_rowset_objects_step _ _ _ _ _ _ Hrow) as (Hn & Hs & Hg).
    destruct (IH st1 Hrest) as (Hn' & Hs' & Hg' & Hmal).
    assert (grows st st1) as Hg1.
    { eapply grows_trans; [|exact Hg]. unfold grows. simpl.
      split_and!; try lia. exists []. by rewrite app_nil_r. }
    simpl in Hn, Hs. cbn [length]. split_and!; try lia.
    + by eapply grows_trans.
    + intros key' H. apply elem_of_cons in H as [[=]|H].
      destruct (Hmal key' H) as [? ?]. destruct Hg1 as (? & _).
      split; [lia|done].
  - intros Hrest.
    destruct (IH _ Hrest) as (Hn' & Hs' & (Hf & Hss & ws & Hw) & Hmal).
    simpl in *. split_and!; try lia.
    + unfold grows. split_and!; try lia.
      exists ([malformed_rowset_meta key] ++ ws). by rewrite Hw, <- app_assoc.
    + intros key' H. apply elem_of_cons in H as [[= ->]|H]; [|split].
      * split; [lia|]. rewrite Hw. rewrite !elem_of_app. left. right.
        by apply list_elem_of_singleton.
      * destruct (Hmal key' H). lia.
      * by apply Hmal.
Qed.

(** X7: whenever [do_check] returns, [num_scanned] is the number of records
    the range delivered, [num_scanned_with_segment] is between 0 and
    [num_scanned], [num_check_failed] is not negative, and the return value
    is -1 exactly when the range iterator is invalid at the end, 0 exactly
    when it is valid and nothing failed, and -2 exactly when it is valid and
    something failed. *)
Theorem do_check_return_value ck kv ret st :
  do_check ck kv = Returned ret st ->
  num_scanned st = Z.of_nat (length (range_kvs (visible_rowsets kv)))
  /\ 0 <= num_scanned_with_segment st <= num_scanned st
  /\ 0 <= num_check_failed st
  /\ (ret = -1 <-> range_valid (visible_rowsets kv) = false)
  /\ (ret = 0 <->
      range_valid (visible_rowsets kv) = true /\ num_check_failed st = 0)
  /\ (ret = -2 <->
      range_valid (visible_rowsets kv) = true /\ num_check_failed st <> 0).
Proof.
  unfold do_check.
  destruct (scan_rowsets ck kv (range_kvs (visible_rowsets kv)) check_start)
    as [st0|] eqn:Hscan; [|done].
  destruct (scan_rowsets_step _ _ _ _ _ Hscan)
    as (Hn & Hs & (Hf & Hss & _) & _).
  simpl in Hn, Hs, Hf, Hss.
  destruct (range_valid (visible_rowsets kv)).
  - destruct (decide (num_check_failed st0 = 0)); intros [= <- <-];
      repeat split; try done; try lia; try (by intros [_ ?]).
  - intros [= <- <-]. simpl. repeat split; try done; try lia;
      by intros [? _].
Qed.

Lemma do_check_return_value_S2 :
  exists st,
    num_scanned st = 1
    /\ 0 <= num_scanned_with_segment st <= num_scanned st
    /\ 0 <= num_check_failed st
    /\ (-2 = -1 <-> range_valid (visible_rowsets S2_kv) = false)
    /\ (-2 = 0 <->
        range_valid (visible_rowsets S2_kv) = true /\ num_check_failed st = 0)
    /\ (-2 = -2 <->
        range_valid (visible_rowsets S2_kv) = true /\ num_check_failed st <> 0).
Proof.
  eexists. apply (do_check_return_value S2_checker S2_kv (-2)).
  vm_compute. reflexivity.
Defined.

(** X8: a record whose value does not deserialize never passes silently:
    whenever [do_check] returns, the return value is not 0, the record is
    counted in [num_check_failed] and its key is logged; and the records
    after it are still scanned. *)
Theorem malformed_record_is_counted ck kv key ret st :
  (key, None) ∈ range_kvs (visible_rowsets kv) ->
  do_check ck kv = Returned ret st ->
  ret <> 0
  /\ 1 <= num_check_failed st
  /\ malformed_rowset_meta key ∈ warnings st
  /\ num_scanned st = Z.of_nat (length (range_kvs (visible_rowsets kv))).
Proof.
  intros Hin Hret. unfold do_check in Hret.
  destruct (scan_rowsets ck kv (range_kvs (visible_rowsets kv)) check_start)
    as [st0|] eqn:Hscan; [|done].
  destruct (scan_rowsets_step _ _ _ _ _ Hscan) as (Hn & _ & _ & Hmal).
  destruct (Hmal key Hin) as [Hf Hw]. simpl in Hf, Hn.
  destruct (range_valid (visible_rowsets kv)).
  - destruct (decide (num_check_failed st0 = 0)); [lia|].
    injection Hret as <- <-. split_and!; try done; lia.
  - injection Hret as <- <-. simpl. split_and!; try done; try lia.
    apply elem_of_app. by left.
Qed.

Lemma malformed_record_is_counted_S1 :
  exists st,
    -2 <> 0
    /\ 1 <= num_check_failed st
    /\ malformed_rowset_meta "meta_rowset/i1/100/3" ∈ warnings st
    /\ num_scanned st = 2.
Proof.
  eexists.
  apply (malformed_record_is_counted S1_checker malformed_kv
           "meta_rowset/i1/100/3" (-2)).
  - right. left.
  - vm_compute. reflexivity.
Defined.

Lemma cache_filled_empty ck c : tf_tablet_id c = 0 -> cache_filled ck c.
Proof. intros H Hnz. done. Qed.

(** One rowset, when no record with segments has tablet id 0: the lambda
    returns, the cache stays filled, and a lost segment is counted. *)
Lemma check_rowset_objects_sound ck kv rs key st :
  cache_filled ck (tablet_files_cache st) ->
  (num_segments rs <> 0 -> tablet_id rs <> 0) ->
  exists st',
    check_rowset_objects ck kv rs key st = Some st'
    /\ cache_filled ck (tablet_files_cache st')
    /\ (lost_segment ck kv key rs ->
        num_check_failed st + 1 <= num_check_failed st').
Proof.
  intros Hfilled Hnz. unfold check_rowset_objects.
  destruct (decide (num_segments rs = 0)) as [Hn0|Hn].
  { exists st. split_and!; try done. intros (i & Hi & _). lia. }
  specialize (Hnz Hn).
  assert (forall id vault (st0 : check_state),
            storage_vault_map_ ck !! id = Some vault ->
            storage_vault (tablet_files_cache st0) = Some vault ->
            tf_tablet_id (tablet_files_cache st0) = tablet_id rs ->
            files (tablet_files_cache st0) = tablet_listing vault (tablet_id rs) ->
            num_check_failed st0 = num_check_failed st ->
            let st' := fold_left (check_segment kv vault rs key)
                         (seqZ 0 (num_segments rs)) st0 in
            cache_filled ck (tablet_files_cache st')
            /\ (lost_segment ck kv key rs ->
                num_check_failed st + 1 <= num_check_failed st')) as Hloop.
  { intros id vault st0 Hv Hsv Htab Hfiles Hf st'.
    destruct (check_segments_step kv vault rs key (seqZ 0 (num_segments rs)) st0)
      as (Hc & _).
    split.
    - unfold st'. rewrite Hc. intros _. exists id, vault.
      by rewrite Htab.
    - intros (i & Hi & Hnone & Hprobe). rewrite <- Hf.
      apply check_segments_lost with i; [|by rewrite Hfiles; eapply Hnone|done].
      apply elem_of_seqZ. lia. }
  unfold refresh_cache. cbn [tablet_files_cache incr_with_segment].
  destruct (decide (tf_tablet_id (tablet_files_cache st) = tablet_id rs))
    as [Hhit|Hmiss].
  - destruct Hfilled as (id & vault & Hv & Hsv & Hfiles); [congruence|].
    cbn [tablet_files_cache incr_with_segment]. rewrite Hsv.
    eexists. split; [done|].
    apply (Hloop id vault (incr_with_segment st)); simpl; try done.
    by rewrite Hfiles, Hhit.
  - cbn [tablet_files_cache set_cache].
    destruct (storage_vault_map_ ck !! resource_id rs) as [vault|] eqn:Hv.
    + destruct (decide (list_ret _ = 0)).
      * cbn [tablet_files_cache add_volume set_cache storage_vault].
        eexists. split; [done|].
        by apply (Hloop (resource_id rs) vault).
      * eexists. split; [done|]. simpl.
        split; [by apply cache_filled_empty|]. intros _. lia.
    + eexists. split; [done|]. simpl.
      split; [by apply cache_filled_empty|]. intros _. lia.
Qed.

Lemma scan_rowsets_sound ck kv l st :
  cache_filled ck (tablet_files_cache st) ->
  (forall key rs, (key, Some rs) ∈ l ->
     num_segments rs <> 0 -> tablet_id rs <> 0) ->
  exists st',
    scan_rowsets ck kv l st = Some st'
    /\ forall key rs, (key, Some rs) ∈ l -> lost_segment ck kv key rs ->
         num_check_failed st + 1 <= num_check_failed st'.
Proof.
  revert st. induction l as [|[key o] l IH]; intros st Hfilled Hnz.
  { exists st. split; [done|]. intros ?? H. by apply elem_of_nil in H. }
  cbn [scan_rowsets]. unfold scan_rowset. cbn [fst snd].
  assert (forall key rs, (key, Some rs) ∈ l ->
            num_segments rs <> 0 -> tablet_id rs <> 0) as Hnz'.
  { intros key' rs' H. apply (Hnz key' rs'). by right. }
  destruct o as [rs|].
  - destruct (check_rowset_objects_sound ck kv rs key (incr_scanned st))
      as (st1 & Hrow & Hfilled1 & Hlost); [done|apply (Hnz key rs); by left|].
    rewrite Hrow.
    destruct (IH st1 Hfilled1 Hnz') as (st2 & Hrest & Hlost').
    exists st2. split; [done|]. intros key' rs' Hin Hl.
    destruct (scan_rowsets_step _ _ _ _ _ Hrest) as (_ & _ & (Hmono & _) & _).
    destruct (check_rowset_objects_step _ _ _ _ _ _ Hrow) as (_ & _ & (Hmono1 & _)).
    simpl in Hlost, Hmono1.
    apply elem_of_cons in Hin as [[= -> ->]|Hin].
    + specialize (Hlost Hl). lia.
    + specialize (Hlost' _ _ Hin Hl). lia.
  - destruct (IH (warn (malformed_rowset_meta key) (incr_failed (incr_scanned st))))
      as (st2 & Hrest & Hlost'); [done|done|].
    exists st2. split; [done|]. intros key' rs' Hin Hl.
    apply elem_of_cons in Hin as [[=]|Hin].
    specialize (Hlost' _ _ Hin Hl). simpl in Hlost'. lia.
Qed.

Lemma no_tablet_zero_rows kv key rs :
  no_tablet_zero kv ->
  (key, Some rs) ∈ range_kvs (visible_rowsets kv) ->
  num_segments rs <> 0 -> tablet_id rs <> 0.
Proof. intros H Hin. apply H. by eapply rowsets_of_elem. Qed.

(** X9: when no record that has segments carries the tablet id 0,
    [do_check] returns: it never ends in the exception of
    [storage_vault.value()], whatever is malformed, missing or fails to
    list. *)
Theorem do_check_returns ck kv :
  no_tablet_zero kv ->
  exists ret st, do_check ck kv = Returned ret st.
Proof.
  intros Hnz.
  destruct (scan_rowsets_sound ck kv (range_kvs (visible_rowsets kv)) check_start)
    as (st & Hscan & _).
  - by apply cache_filled_empty.
  - intros key rs. by apply no_tablet_zero_rows.
  - unfold do_check. rewrite Hscan.
    destruct (range_valid (visible_rowsets kv)); by eauto.
Qed.

Lemma S2_no_tablet_zero : no_tablet_zero S2_kv.
Proof. intros rs ->%rowsets_of_kv_of _. discriminate. Defined.

Lemma do_check_returns_S2 :
  exists ret st, do_check S2_checker S2_kv = Returned ret st.
Proof. apply do_check_returns. exact S2_no_tablet_zero. Defined.

(** X10: a lost segment is never missed.  When a record has a segment that
    is in the tablet listing of no vault of the registry, and its key never
    reads as deleted, then [do_check] (over records none of which has
    segments and tablet id 0) returns a value other than 0 and counts at
    least one failure. *)
Theorem lost_segment_is_reported ck kv key rs :
  no_tablet_zero kv ->
  (key, Some rs) ∈ range_kvs (visible_rowsets kv) ->
  lost_segment ck kv key rs ->
  exists ret st,
    do_check ck kv = Returned ret st
    /\ ret <> 0 /\ 1 <= num_check_failed st.
Proof.
  intros Hnz Hin Hlost.
  destruct (scan_rowsets_sound ck kv (range_kvs (visible_rowsets kv)) check_start)
    as (st & Hscan & Hfound).
  - by apply cache_filled_empty.
  - intros key' rs'. by apply no_tablet_zero_rows.
  - specialize (Hfound key rs Hin Hlost). simpl in Hfound.
    unfold do_check. rewrite Hscan.
    destruct (range_valid (visible_rowsets kv)).
    + rewrite decide_False by lia. eexists _, _. split_and!; [done|done|lia].
    + eexists _, _. split_and!; [done|done|simpl; lia].
Qed.

Lemma S2_lost_segment :
  lost_segment S2_checker S2_kv "meta_rowset/i1/100/2" (R1 100 2).
Proof.
  exists 1. split; [done|]. split.
  - intros id vault Hv. unfold S2_checker, checker_of in Hv. simpl in Hv.
    apply lookup_singleton_Some in Hv as [_ <-].
    unfold tablet_listing. intros H%elem_of_list_to_set. vm_compute in H.
    apply list_elem_of_singleton in H. discriminate.
  - intros n. vm_compute. discriminate.
Defined.

Lemma lost_segment_is_reported_S2 :
  exists ret st,
    do_check S2_checker S2_kv = Returned ret st
    /\ ret <> 0 /\ 1 <= num_check_failed st.
Proof.
  apply (lost_segment_is_reported S2_checker S2_kv "meta_rowset/i1/100/2"
           (R1 100 2)).
  - exact S2_no_tablet_zero.
  - left.
  - exact S2_lost_segment.
Defined.

(** The 64-bit sum the listing loop computes is the sum of the sizes, reduced
    to 64 bits. *)
Lemma total_size_wrap fs : total_size fs = wrap64 (sum_sizes fs).
Proof.
  unfold total_size.
  assert (forall a,
            fold_left (fun v f => wrap64 (v + size f)) fs (wrap64 a)
            = wrap64 (a + sum_sizes fs)) as H.
  { induction fs as [|f fs IH]; intros a; simpl.
    - f_equal. lia.
    - rewrite wrap64_add_l, IH. f_equal. lia. }
  specialize (H 0). by rewrite wrap64_id in H by (by vm_compute).
Qed.

Lemma scan_rowsets_one_tablet ck kv vault t l listed st :
  t <> 0 ->
  list_ret (list_directory vault (tablet_path vault t)) = 0 ->
  (forall key rs, (key, Some rs) ∈ l ->
     tablet_id rs = t /\ storage_vault_map_ ck !! resource_id rs = Some vault) ->
  one_listing vault t listed st ->
  exists st',
    scan_rowsets ck kv l st = Some st'
    /\ one_listing vault t (listed || has_segments l) st'.
Proof.
  intros Ht Hlist. revert listed st.
  induction l as [|[key o] l IH]; intros listed st Hrows Hone.
  { exists st. split; [done|]. by rewrite orb_false_r. }
  cbn [scan_rowsets]. unfold scan_rowset. cbn [fst snd].
  assert (forall key rs, (key, Some rs) ∈ l ->
            tablet_id rs = t /\ storage_vault_map_ ck !! resource_id rs = Some vault)
    as Hrows'.
  { intros key' rs' H. apply (Hrows key' rs'). by right. }
  unfold has_segments. cbn [existsb snd]. fold (has_segments l).
  destruct o as [rs|].
  2: { destruct (IH listed (warn (malformed_rowset_meta key)
                              (incr_failed (incr_scanned st))))
         as (st' & Hscan & Hone'); [done| |].
       - by destruct listed.
       - exists st'. by split. }
  destruct (Hrows key rs) as [Htab Hv]; [by left|].
  unfold check_rowset_objects.
  destruct (decide (num_segments rs = 0)) as [Hn0|Hn].
  { rewrite bool_decide_eq_true_2 by done. simpl.
    destruct (IH listed (incr_scanned st)) as (st' & Hscan & Hone');
      [done|by destruct listed|].
    exists st'. by split. }
  rewrite bool_decide_eq_false_2 by done. cbn [negb orb].
  rewrite orb_true_r.
  assert (forall st0 : check_state,
            one_listing vault t true st0 ->
            exists st',
              scan_rowsets ck kv l
                (fold_left (check_segment kv vault rs key)
                   (seqZ 0 (num_segments rs)) st0) = Some st'
              /\ one_listing vault t true st') as Hgo.
  { intros st0 (Htf & Hsv & Hvol).
    destruct (check_segments_step kv vault rs key (seqZ 0 (num_segments rs)) st0)
      as (Hc & _ & _ & Hv' & _).
    destruct (IH true (fold_left (check_segment kv vault rs key)
                         (seqZ 0 (num_segments rs)) st0))
      as (st' & Hscan & Hone'); [done| |by exists st'].
    simpl. by rewrite Hc, Hv'. }
  unfold refresh_cache. cbn [tablet_files_cache incr_with_segment incr_scanned].
  destruct listed; simpl in Hone.
  - destruct Hone as (Htf & Hsv & Hvol).
    rewrite decide_True by congruence.
    cbn [tablet_files_cache incr_with_segment incr_scanned]. rewrite Hsv.
    apply Hgo. by split_and!.
  - destruct Hone as (Hempty & Hvol). rewrite Hempty.
    rewrite decide_False by (simpl; congruence).
    cbn [tablet_files_cache set_cache]. rewrite Hv, Htab.
    rewrite decide_True by done.
    cbn [tablet_files_cache add_volume set_cache storage_vault].
    apply Hgo. simpl. split_and!; try done.
    rewrite Hvol, total_size_wrap, Z.add_0_l. apply wrap64_id, wrap64_in_int64.
Qed.

(** X11: the volume of a tablet is counted once.  When all records of the
    range belong to one tablet (other than 0) whose vault lists its
    directory, [do_check] returns with [instance_volume] equal to the sum of
    the sizes of that one listing, reduced to 64 bits as the [long]
    additions of the code are, if some record has segments, and 0 otherwise,
    however many rowsets the tablet has; a sum that fits in 64 bits is
    reported as it is. *)
Theorem tablet_volume_counted_once ck kv vault t :
  t <> 0 ->
  list_ret (list_directory vault (tablet_path vault t)) = 0 ->
  (forall rs, rs ∈ rowsets_of kv ->
     tablet_id rs = t /\ storage_vault_map_ ck !! resource_id rs = Some vault) ->
  let sum :=
    sum_sizes (list_files (list_directory vault (tablet_path vault t))) in
  exists ret st,
    do_check ck kv = Returned ret st
    /\ instance_volume st
       = (if has_segments (range_kvs (visible_rowsets kv))
          then wrap64 sum else 0)
    /\ (in_int64 sum ->
        instance_volume st
        = if has_segments (range_kvs (visible_rowsets kv)) then sum else 0).
Proof.
  intros Ht Hlist Hrows sum.
  destruct (scan_rowsets_one_tablet ck kv vault t
              (range_kvs (visible_rowsets kv)) false check_start)
    as (st & Hscan & Hone); try done.
  { intros key rs Hin. apply Hrows. by eapply rowsets_of_elem. }
  unfold do_check. rewrite Hscan. simpl in Hone.
  assert (instance_volume st
          = if has_segments (range_kvs (visible_rowsets kv))
            then wrap64 sum else 0) as Hvol.
  { destruct (has_segments _); simpl in Hone.
    - by destruct Hone as (_ & _ & ?).
    - by destruct Hone as (_ & ?). }
  assert (in_int64 sum ->
          instance_volume st
          = if has_segments (range_kvs (visible_rowsets kv)) then sum else 0)
    as Hfits.
  { intros Hin. rewrite Hvol. by rewrite wrap64_id. }
  destruct (range_valid (visible_rowsets kv)); eexists _, _; by split_and!.
Qed.

Lemma tablet_volume_counted_once_three :
  exists ret st,
    do_check S1_checker three_rowsets_kv = Returned ret st
    /\ instance_volume st = 30
    /\ (in_int64 30 -> instance_volume st = 30).
Proof.
  apply (tablet_volume_counted_once S1_checker three_rowsets_kv
           (s3_vault [ {| path := "data/100/R1_0.dat"; size := 10 |};
                       {| path := "data/100/R1_1.dat"; size := 20 |} ]) 100).
  - discriminate.
  - reflexivity.
  - intros rs Hin. unfold rowsets_of in Hin. simpl in Hin.
    repeat (apply elem_of_cons in Hin as [->|Hin]; [by split|]).
    by apply elem_of_nil in Hin.
Defined.

End ForwardCheckProps.

(** ** The vault registry *)

Module VaultRegistryProps.
Import InstanceChecker VaultRegistry.

Lemma emplace_union id vault (m : gmap string StorageVault) :
  emplace id vault m = m ∪ {[ id := vault ]}.
Proof.
  unfold emplace. destruct (m !! id) as [v|] eqn:Hl.
  - apply map_eq. intros j. rewrite lookup_union.
    destruct (decide (id = j)) as [<-|Hne].
    + rewrite Hl, lookup_singleton_eq. done.
    + rewrite lookup_singleton_ne by done. by destruct (m !! j).
  - rewrite insert_union_singleton_r by done. done.
Qed.

Lemma init_obj_store_accessors_spec id_ infos m :
  let r := init_obj_store_accessors id_ infos m in
  (ret r = 0 \/ ret r = -1)
  /\ (ret r = 0 <-> Forall (fun info => is_Some (obj_created info)) infos)
  /\ (ret r = 0 ->
      registry r
      = m ∪ list_to_map
              (omap (fun info => (fun v => (obj_id info, v)) <$> obj_created info)
                 infos)).
Proof.
  revert m. induction infos as [|info infos IH]; intros m; simpl.
  { split; [by left|]. split; [done|]. intros _. symmetry. apply (right_id_L ∅ (∪)). }
  destruct (obj_created info) as [vault|] eqn:Hc; simpl.
  - destruct (IH (emplace (obj_id info) vault m)) as (H01 & Hiff & Hreg).
    split; [done|]. split.
    + rewrite Hiff, Forall_cons, Hc. split; [by eauto|by intros [_ ?]].
    + intros H0. rewrite (Hreg H0), emplace_union, <- (assoc_L (∪)).
      by rewrite <- insert_union_singleton_l.
  - split; [by right|]. split; [|done]. split; [done|].
    intros [[? ?] _]%Forall_cons. congruence.
Qed.

Lemma load_vaults_spec id_ kvs m :
  let r := load_vaults id_ kvs m in
  (ret r = 0 \/ ret r = -1)
  /\ (ret r = 0 <->
      Forall (fun kvp => exists vault, kvp.2 = Some vault
                                       /\ is_Some (vault_created vault)) kvs)
  /\ (ret r = 0 ->
      registry r
      = m ∪ list_to_map
              (omap (fun kvp =>
                       vault ← kvp.2;
                       (fun v => (vault_id vault, v)) <$> vault_created vault)
                 kvs)).
Proof.
  revert m. induction kvs as [|[k o] kvs IH]; intros m; simpl.
  { split; [by left|]. split; [done|]. intros _. symmetry. apply (right_id_L ∅ (∪)). }
  destruct o as [vault|]; simpl.
  2: { split; [by right|]. split; [|done]. split; [done|].
       intros [(? & ? & _) _]%Forall_cons. done. }
  destruct (vault_created vault) as [v|] eqn:Hc; simpl.
  - destruct (IH (emplace (vault_id vault) v m)) as (H01 & Hiff & Hreg).
    split; [done|]. split.
    + rewrite Hiff, Forall_cons. simpl. split; [|by intros [_ ?]].
      intros ?. split; [|done]. exists vault. rewrite Hc. by eauto.
    + intros H0. rewrite (Hreg H0), emplace_union, <- (assoc_L (∪)).
      by rewrite <- insert_union_singleton_l.
  - split; [by right|]. split; [|done]. split; [done|].
    intros [(v' & [= <-] & [? ?]) _]%Forall_cons. congruence.
Qed.

(** X25: when [init] succeeds, the registry holds exactly the vaults it
    created, and where an id occurs more than once the first occurrence
    wins: an inline vault of [obj_info] is not replaced by a vault of the KV
    store with the same id. *)
Theorem init_registry_first_wins id_ instance kv :
  ret (init id_ instance kv) = 0 ->
  registry (init id_ instance kv) = list_to_map (sources instance kv)
  /\ forall before id vault after,
       sources instance kv = before ++ (id, vault) :: after ->
       id ∉ before.*1 ->
       registry (init id_ instance kv) !! id = Some vault.
Proof.
  intros Hret.
  assert (registry (init id_ instance kv) = list_to_map (sources instance kv))
    as Hreg.
  { unfold init, sources in *.
    destruct (init_obj_store_accessors_spec id_ (obj_info instance) ∅)
      as (_ & _ & Hobj).
    destruct (decide (ret (init_obj_store_accessors id_ (obj_info instance) ∅) = 0))
      as [H0|]; [|done].
    rewrite (left_id_L ∅ (∪)) in Hobj. specialize (Hobj H0).
    unfold init_storage_vault_accessors in *.
    destruct (resource_ids instance).
    { simpl. by rewrite app_nil_r. }
    destruct (load_vaults_spec id_ (vault_kvs kv)
                (registry (init_obj_store_accessors id_ (obj_info instance) ∅)))
      as (_ & _ & Hload).
    destruct (decide (ret (load_vaults id_ (vault_kvs kv) _) = 0)) as [H1|];
      [|done].
    destruct (vault_range_valid kv); [|done].
    rewrite (Hload H1), Hobj. by rewrite list_to_map_app. }
  split; [done|]. intros before id vault after Hsrc Hfresh.
  rewrite Hreg, Hsrc, list_to_map_app. rewrite lookup_union_r.
  - apply lookup_insert_eq.
  - by apply not_elem_of_list_to_map_1.
Qed.

Lemma init_registry_first_wins_two_sources :
  registry (init "i1" two_sources two_sources_kv)
  = list_to_map (sources two_sources two_sources_kv)
  /\ forall before id vault after,
       sources two_sources two_sources_kv = before ++ (id, vault) :: after ->
       id ∉ before.*1 ->
       registry (init "i1" two_sources two_sources_kv) !! id = Some vault.
Proof.
  apply (init_registry_first_wins "i1" two_sources two_sources_kv).
  vm_compute. reflexivity.
Defined.

Example two_sources_inline_wins :
  registry (init "i1" two_sources two_sources_kv) !! "v1" = Some inline_vault
  /\ registry (init "i1" two_sources two_sources_kv) !! "v2" = Some kv_vault.
Proof. split; vm_compute; reflexivity. Qed.

(** X26: [init] returns 0 or -1; it returns 0 exactly when every inline
    vault is created and, if the instance has resource ids, every vault of
    the KV range deserializes and is created and the range iterator is valid
    at the end; and for an instance without resource ids the KV range is not
    consulted at all. *)
Theorem init_succeeds_iff id_ instance kv :
  (ret (init id_ instance kv) = 0 \/ ret (init id_ instance kv) = -1)
  /\ (ret (init id_ instance kv) = 0 <-> all_created instance kv)
  /\ (resource_ids instance = [] ->
      forall kv', init id_ instance kv' = init id_ instance kv).
Proof.
  unfold init, all_created.
  destruct (init_obj_store_accessors_spec id_ (obj_info instance) ∅)
    as (H01 & Hiff & _).
  destruct (decide (ret (init_obj_store_accessors id_ (obj_info instance) ∅) = 0))
    as [H0|Hn0].
  2: { split; [done|]. split; [|done]. rewrite Hiff. tauto. }
  unfold init_storage_vault_accessors.
  destruct (resource_ids instance) as [|rid rids].
  { simpl. split; [by left|]. split; [|done]. split; [|done]. intros _.
    split; [by apply Hiff|done]. }
  destruct (load_vaults_spec id_ (vault_kvs kv)
              (registry (init_obj_store_accessors id_ (obj_info instance) ∅)))
    as (H01' & Hiff' & _).
  split; [|split; [|done]].
  - destruct (decide (ret (load_vaults id_ (vault_kvs kv) _) = 0)); [|done].
    destruct (vault_range_valid kv); [done|by right].
  - destruct (decide (ret (load_vaults id_ (vault_kvs kv) _) = 0)) as [H1|Hn1].
    + destruct (vault_range_valid kv); simpl.
      * split; [|done]. intros _. split; [by apply Hiff|]. intros _.
        split; [by apply Hiff'|done].
      * split; [done|]. intros [_ H]. by destruct H as [_ ?].
    + split; [done|]. intros [_ H]. destruct H as [H _]; [done|].
      by apply Hiff' in H.
Qed.

End VaultRegistryProps.

(** ** The object keys of the inverted check *)

Module InvertedCheckProps.
Import InstanceChecker InvertedCheck.

Lemma find_None c s : find c s = None <-> ~ occurs c s.
Proof.
  unfold occurs. induction s as [|a s IH]; simpl.
  - split; [intros _ []|done].
  - destruct (decide (a = c)) as [->|Hne].
    + split; [done|]. intros H. destruct H. by left.
    + destruct (find c s); simpl.
      * split; [done|]. intros H.
        assert (~ In c (list_ascii_of_string s)) as Hn
          by (intros ?; apply H; by right).
        by apply IH in Hn.
      * split; [|done]. intros _ [?|?]; [done|]. by apply IH.
Qed.

Lemma append_cons a r s : String a r +:+ s = String a (r +:+ s).
Proof. reflexivity. Qed.

Lemma append_empty s : EmptyString +:+ s = s.
Proof. reflexivity. Qed.

(** [find] gives the length of the longest prefix free of [c]. *)
Lemma find_Some c s pos :
  find c s = Some pos ->
  exists rest, s = substr0 pos s +:+ String c rest
               /\ ~ occurs c (substr0 pos s)
               /\ String.length (substr0 pos s) = pos.
Proof.
  unfold occurs, substr0. revert pos. induction s as [|a s IH]; intros pos; simpl.
  - done.
  - destruct (decide (a = c)) as [->|Hne].
    + intros [= <-]. exists s. simpl. rewrite append_empty.
      split; [done|]. split; [intros []|done].
    + destruct (find c s) as [p|] eqn:Hf; simpl; [|done].
      intros [= <-]. destruct (IH p eq_refl) as (rest & Hs & Hno & Hlen).
      exists rest. simpl. rewrite append_cons, <- Hs. split; [done|].
      split; [|by rewrite Hlen]. intros [?|?]; [done|]. by apply Hno.
Qed.

Lemma find_prefix c r rest :
  ~ occurs c r ->
  find c (r +:+ String c rest) = Some (String.length r)
  /\ substr0 (String.length r) (r +:+ String c rest) = r.
Proof.
  unfold occurs, substr0. induction r as [|a r IH]; intros Hno.
  - rewrite append_empty. simpl. rewrite decide_True by done. done.
  - rewrite append_cons. simpl in *.
    rewrite decide_False by (intros ->; apply Hno; by left).
    destruct IH as [-> ->]; [intros ?; apply Hno; by right|]. done.
Qed.

Lemma occurs_app_cons c r rest : occurs c (r +:+ String c rest).
Proof.
  unfold occurs. induction r as [|a r IH].
  - rewrite append_empty. by left.
  - rewrite append_cons. by right.
Qed.

(** C8: the head of [check_segment_file] accepts an object key exactly when
    its split on '/' has at least 3 components, component 1 reads ([atol]) as
    a tablet id above 0 and the last component has an underscore; the rowset
    id is then the part of the last component before its first underscore;
    and a key that does not meet the three rules adds one to
    [num_check_failed]. *)
Theorem parse_obj_key_rules obj_key :
  let str := SplitString obj_key "/"%char in
  (forall tablet_id rowset_id,
     parse_obj_key obj_key = Parsed tablet_id rowset_id
     <-> well_shaped str
         /\ tablet_id = atol (default EmptyString (str !! 1%nat))
         /\ exists rest,
              back str = rowset_id +:+ String "_"%char rest
              /\ ~ occurs "_"%char rowset_id)
  /\ (~ well_shaped str ->
      forall kv vault st file,
        path file = obj_key ->
        inv_num_check_failed (scan_file kv vault st file)
        = inv_num_check_failed st + 1).
Proof.
  intros str. unfold well_shaped. split.
  - intros tablet_id rowset_id. unfold parse_obj_key. fold str.
    destruct (decide (length str < 3)%nat) as [Hshort|Hlong].
    { split; [done|]. intros ((? & _) & _). lia. }
    destruct (decide (atol (default EmptyString (str !! 1%nat)) <= 0))
      as [Hbad|Hgood].
    { split; [done|]. intros ((_ & ? & _) & _). lia. }
    destruct (find "_"%char (back str)) as [pos|] eqn:Hfind.
    + split.
      * intros [= <- <-].
        destruct (find_Some _ _ _ Hfind) as (rest & Hs & Hno & _).
        split; [split; [lia|split; [lia|]]|].
        { rewrite Hs. apply occurs_app_cons. }
        split; [done|]. by exists rest.
      * intros (_ & -> & rest & Hback & Hno).
        destruct (find_prefix "_"%char rowset_id rest Hno) as [Hf Hsub].
        rewrite <- Hback in Hf, Hsub. rewrite Hfind in Hf.
        injection Hf as ->. by rewrite Hsub.
    + split; [done|]. intros ((_ & _ & Hocc) & _).
      by apply find_None in Hfind.
  - intros Hnot kv vault st file <-. fold str in Hnot.
    assert (forall t r, parse_obj_key (path file) <> Parsed t r) as Hparse.
    { intros t r Hp. apply Hnot. unfold parse_obj_key in Hp. fold str in Hp.
      destruct (decide (length str < 3)%nat); [done|].
      destruct (decide (atol (default EmptyString (str !! 1%nat)) <= 0)); [done|].
      destruct (find "_"%char (back str)) as [pos|] eqn:Hfind; [|done].
      destruct (find_Some _ _ _ Hfind) as (rest & Hs & _).
      split; [lia|]. split; [lia|]. rewrite Hs. apply occurs_app_cons. }
    unfold scan_file, check_segment_file.
    destruct (parse_obj_key (path file)) as [| | |t r]; simpl; try done.
    by destruct (Hparse t r).
Qed.

Lemma find_occurs c s pos : find c s = Some pos -> occurs c s.
Proof.
  intros (rest & Hs & _)%find_Some. rewrite Hs. apply occurs_app_cons.
Qed.

Local Ltac accepted rest :=
  apply (proj1 (parse_obj_key_rules _)); split;
  [split_and!;
   [vm_compute; lia|by vm_compute|eapply find_occurs; vm_compute; reflexivity]
  |split; [by vm_compute|];
   exists rest; split; [by vm_compute|apply find_None; by vm_compute]].

Local Ltac rejected key :=
  intros ? ? ?; apply (proj2 (parse_obj_key_rules key)); [|done];
  intros (Hlen & Hid & Hrs);
  first [ by vm_compute in Hid
        | vm_compute in Hlen; lia
        | apply find_None in Hrs; [done|by vm_compute] ].

(** Keys that are accepted, with what is read from them, and keys that are
    rejected and counted: the plain segment key; a key with more components
    and more underscores; a tablet id with white space around it, with a
    sign, followed by letters, and beyond the range of [long]; a tablet id
    that is negative, zero or no number; a last component without
    underscore; a key of two components. *)
Lemma parse_obj_key_rules_keys :
  parse_obj_key "data/100/R1_0.dat" = Parsed 100 "R1"
  /\ parse_obj_key "data/10086/index/0200000000001394_3_2.idx"
     = Parsed 10086 "0200000000001394"
  /\ parse_obj_key "data/ 100 /R1_0.dat" = Parsed 100 "R1"
  /\ parse_obj_key "data/+7/R1_0.dat" = Parsed 7 "R1"
  /\ parse_obj_key "data/12abc/R1_0.dat" = Parsed 12 "R1"
  /\ parse_obj_key "data/99999999999999999999/R1_0.dat"
     = Parsed INT64_MAX "R1"
  /\ (forall kv vault st,
        inv_num_check_failed
          (scan_file kv vault st {| path := "data/-100/R1_0.dat"; size := 1 |})
        = inv_num_check_failed st + 1)
  /\ (forall kv vault st,
        inv_num_check_failed
          (scan_file kv vault st {| path := "data/0/R1_0.dat"; size := 1 |})
        = inv_num_check_failed st + 1)
  /\ (forall kv vault st,
        inv_num_check_failed
          (scan_file kv vault st {| path := "data/tmp/R1_0.dat"; size := 1 |})
        = inv_num_check_failed st + 1)
  /\ (forall kv vault st,
        inv_num_check_failed
          (scan_file kv vault st {| path := "data/100/R1.dat"; size := 1 |})
        = inv_num_check_failed st + 1)
  /\ (forall kv vault st,
        inv_num_check_failed
          (scan_file kv vault st {| path := "100/R1_0.dat"; size := 1 |})
        = inv_num_check_failed st + 1).
Proof.
  split_and!.
  - accepted "0.dat".
  - accepted "3_2.idx".
  - accepted "0.dat".
  - accepted "0.dat".
  - accepted "0.dat".
  - accepted "0.dat".
  - rejected "data/-100/R1_0.dat".
  - rejected "data/0/R1_0.dat".
  - rejected "data/tmp/R1_0.dat".
  - rejected "data/100/R1.dat".
  - rejected "100/R1_0.dat".
Defined.

Example parse_segment_key :
  parse_obj_key "data/100/R1_0.dat" = Parsed 100 "R1".
Proof. vm_compute. reflexivity. Qed.

Example parse_nested_key :
  parse_obj_key "data/100/inverted/R2_0_1.idx" = Parsed 100 "R2".
Proof. vm_compute. reflexivity. Qed.

Example parse_short_key : parse_obj_key "data/100" = TooFewComponents.
Proof. vm_compute. reflexivity. Qed.

Example parse_bad_tablet : parse_obj_key "data/tmp/R1_0.dat" = BadTabletId.
Proof. vm_compute. reflexivity. Qed.

Example parse_no_underscore : parse_obj_key "data/100/R1.dat" = NoRowsetId.
Proof. vm_compute. reflexivity. Qed.


(** *** Further properties of the inverted check *)

Lemma load_rowset_ids_loads kvps ids :
  Forall (fun kvp : string * option RowsetMetaCloudPB => is_Some kvp.2) kvps ->
  load_rowset_ids kvps ids
  = (None, list_to_set (rowset_id_v2 <$> omap snd kvps) ∪ ids).
Proof.
  revert ids. induction kvps as [|[k o] l IH]; intros ids Hall; simpl.
  { f_equal. set_solver. }
  apply Forall_cons in Hall as [[rs Hrs] Hall]. simpl in Hrs. subst o.
  rewrite IH by done. simpl. f_equal. set_solver.
Qed.

Lemma check_segment_file_miss kv obj_key cache tablet_id rowset_id :
  parse_obj_key obj_key = Parsed tablet_id rowset_id ->
  tr_tablet_id cache <> tablet_id ->
  loads (tablet_rowsets kv tablet_id) ->
  check_segment_file kv obj_key cache
  = (0, {| tr_tablet_id := tablet_id;
           rowset_ids := rowset_ids_of (tablet_rowsets kv tablet_id) |}, []).
Proof.
  intros Hparse Hmiss [Hall Hvalid]. unfold check_segment_file.
  rewrite Hparse, decide_False by done.
  rewrite load_rowset_ids_loads by done. rewrite Hvalid.
  unfold rowset_ids_of. do 3 f_equal. set_solver.
Qed.

(** X12: the first object of a tablet passes unexamined.  When an object key
    parses to a tablet other than the cached one and the rowsets of that
    tablet load, [check_segment_file] caches their ids and returns 0 without
    a warning, whether or not the object's rowset id is among them. *)
Theorem first_object_of_tablet_passes kv obj_key cache tablet_id rowset_id :
  parse_obj_key obj_key = Parsed tablet_id rowset_id ->
  tr_tablet_id cache <> tablet_id ->
  loads (tablet_rowsets kv tablet_id) ->
  check_segment_file kv obj_key cache
  = (0, {| tr_tablet_id := tablet_id;
           rowset_ids := rowset_ids_of (tablet_rowsets kv tablet_id) |}, []).
Proof. apply check_segment_file_miss. Qed.

Lemma first_object_of_tablet_passes_orphan :
  check_segment_file S4_kv "data/100/R2_0.dat"
    (tablet_rowsets_cache inverted_start)
  = (0, {| tr_tablet_id := 100;
           rowset_ids := rowset_ids_of (tablet_rowsets S4_kv 100) |}, []).
Proof.
  apply (first_object_of_tablet_passes S4_kv _ _ 100 "R2").
  - vm_compute. reflexivity.
  - discriminate.
  - split; [|reflexivity]. repeat constructor. by eexists.
Defined.

Lemma scan_file_miss kv vault st file t r :
  parse_obj_key (path file) = Parsed t r ->
  tr_tablet_id (tablet_rowsets_cache st) <> t ->
  loads (tablet_rowsets kv t) ->
  scan_file kv vault st file
  = {| inv_num_scanned := inv_num_scanned st + 1;
       inv_num_check_failed := inv_num_check_failed st;
       tablet_rowsets_cache :=
         {| tr_tablet_id := t;
            rowset_ids := rowset_ids_of (tablet_rowsets kv t) |};
       inv_warnings := inv_warnings st ++ [] |}.
Proof.
  intros Hp Hmiss Hloads. unfold scan_file.
  by rewrite (check_segment_file_miss kv _ _ _ _ Hp Hmiss Hloads).
Qed.

Lemma scan_file_hit kv vault st file t r :
  parse_obj_key (path file) = Parsed t r ->
  tr_tablet_id (tablet_rowsets_cache st) = t ->
  scan_file kv vault st file
  = if decide (r ∈ rowset_ids (tablet_rowsets_cache st)) then
      {| inv_num_scanned := inv_num_scanned st + 1;
         inv_num_check_failed := inv_num_check_failed st;
         tablet_rowsets_cache := tablet_rowsets_cache st;
         inv_warnings := inv_warnings st ++ [] |}
    else
      {| inv_num_scanned := inv_num_scanned st + 1;
         inv_num_check_failed := inv_num_check_failed st + 1;
         tablet_rowsets_cache := tablet_rowsets_cache st;
         inv_warnings :=
           inv_warnings st ++ [rowset_not_exists (path file)]
             ++ [failed_to_check_segment_file (uri vault) (path file)] |}.
Proof.
  intros Hp Hhit. unfold scan_file, check_segment_file.
  rewrite Hp, decide_True by done. by case_decide.
Qed.

(** X13: the later objects of a tablet are judged by the cached rowset ids.
    Once the first object of a tablet has loaded the tablet's rowsets, an
    object of the same tablet is accepted exactly when its rowset id is among
    the ids of those rowsets; otherwise the loop counts one more failure. *)
Theorem later_object_of_tablet_checked kv vault st file1 file2 t r1 r2 :
  parse_obj_key (path file1) = Parsed t r1 ->
  parse_obj_key (path file2) = Parsed t r2 ->
  tr_tablet_id (tablet_rowsets_cache st) <> t ->
  loads (tablet_rowsets kv t) ->
  let st1 := scan_file kv vault st file1 in
  let st2 := scan_file kv vault st1 file2 in
  inv_num_check_failed st1 = inv_num_check_failed st
  /\ inv_num_scanned st2 = inv_num_scanned st + 2
  /\ (r2 ∈ rowset_ids_of (tablet_rowsets kv t) ->
      inv_num_check_failed st2 = inv_num_check_failed st)
  /\ (r2 ∉ rowset_ids_of (tablet_rowsets kv t) ->
      inv_num_check_failed st2 = inv_num_check_failed st + 1
      /\ rowset_not_exists (path file2) ∈ inv_warnings st2).
Proof.
  intros Hp1 Hp2 Hmiss Hloads st1 st2. unfold st2, st1.
  rewrite (scan_file_miss kv vault st file1 t r1 Hp1 Hmiss Hloads).
  rewrite (scan_file_hit kv vault _ file2 t r2 Hp2) by done. simpl.
  destruct (decide (r2 ∈ rowset_ids_of (tablet_rowsets kv t))); simpl;
    split_and!; try done; try lia.
  intros _. split; [done|]. apply elem_of_app. right. by left.
Qed.

Lemma later_object_of_tablet_checked_S4 :
  let file1 := {| path := "data/100/R1_0.dat"; size := 10 |} in
  let file2 := {| path := "data/100/R2_0.dat"; size := 10 |} in
  let vault := s3_vault [file1; file2] in
  let st1 := scan_file S4_kv vault inverted_start file1 in
  let st2 := scan_file S4_kv vault st1 file2 in
  inv_num_check_failed st1 = 0
  /\ inv_num_scanned st2 = 2
  /\ ("R2" ∈ rowset_ids_of (tablet_rowsets S4_kv 100) ->
      inv_num_check_failed st2 = 0)
  /\ ("R2" ∉ rowset_ids_of (tablet_rowsets S4_kv 100) ->
      inv_num_check_failed st2 = 0 + 1
      /\ rowset_not_exists "data/100/R2_0.dat" ∈ inv_warnings st2).
Proof.
  intros file1 file2 vault.
  apply (later_object_of_tablet_checked S4_kv vault inverted_start
           file1 file2 100 "R1" "R2").
  - vm_compute. reflexivity.
  - vm_compute. reflexivity.
  - discriminate.
  - split; [|reflexivity]. repeat constructor. by eexists.
Defined.

(** S4 on the code: an orphan that is the only object of its tablet is not
    reported; behind an object of the same tablet it is. *)
Example S4_orphan_only_passes :
  (do_inverted_check S4_orphan_only S4_kv).1 = 0.
Proof. vm_compute. reflexivity. Qed.

Example S4_orphan_second_reported :
  (do_inverted_check S4_orphan_second S4_kv).1 = -1
  /\ inv_num_check_failed (do_inverted_check S4_orphan_second S4_kv).2 = 1.
Proof. vm_compute. split; reflexivity. Qed.

Lemma scan_file_counts kv vault st file :
  inv_num_scanned (scan_file kv vault st file) = inv_num_scanned st + 1
  /\ inv_num_check_failed st
     <= inv_num_check_failed (scan_file kv vault st file)
     <= inv_num_check_failed st + 1.
Proof.
  unfold scan_file.
  destruct (check_segment_file kv (path file) (tablet_rowsets_cache st))
    as [[r cache] ws].
  case_decide; simpl; lia.
Qed.

Lemma scan_files_counts kv vault files st :
  let st' := fold_left (scan_file kv vault) files st in
  inv_num_scanned st' = inv_num_scanned st + Z.of_nat (length files)
  /\ inv_num_check_failed st <= inv_num_check_failed st'
     <= inv_num_check_failed st + Z.of_nat (length files).
Proof.
  revert st. induction files as [|file files IH]; intros st; simpl; [lia|].
  destruct (scan_file_counts kv vault st file) as [Hn Hf].
  destruct (IH (scan_file kv vault st file)) as [Hn' Hf']. lia.
Qed.

(** The loop over the vaults ends early exactly at a vault whose [data]
    directory does not list; the failures never exceed the objects scanned. *)
Lemma scan_vaults_spec kv vaults st :
  inv_num_check_failed st <= inv_num_scanned st ->
  match scan_vaults kv vaults st with
  | inr st' =>
      Forall lists_data vaults
      /\ inv_num_check_failed st <= inv_num_check_failed st' <= inv_num_scanned st'
  | inl st' =>
      Exists (fun vault => ~ lists_data vault) vaults
      /\ inv_num_check_failed st <= inv_num_check_failed st' <= inv_num_scanned st'
  end.
Proof.
  revert st. induction vaults as [|vault vaults IH]; intros st Hle.
  { simpl. split; [constructor|lia]. }
  simpl.
  destruct (decide (list_ret (list_directory vault "data") = 0)) as [Hret|Hret].
  - destruct (scan_files_counts kv vault
                (list_files (list_directory vault "data")) st) as [Hn Hf].
    destruct (list_valid (list_directory vault "data")) eqn:Hvalid.
    + specialize (IH (fold_left (scan_file kv vault)
                        (list_files (list_directory vault "data")) st)
                    ltac:(lia)).
      destruct (scan_vaults kv vaults _) as [st'|st'].
      * destruct IH as [Hex ?]. split; [by right|lia].
      * destruct IH as [Hall ?]. split; [constructor; [by split|done]|lia].
    + simpl. split; [|lia]. left. unfold lists_data. rewrite Hvalid.
      by intros [_ ?].
  - split; [|lia]. left. unfold lists_data. by intros [? _].
Qed.

(** X14: [do_inverted_check] returns 0 or -1; it returns 0 exactly when the
    [data] directory of every vault of the registry lists completely and no
    object failed its check; and the failures it counts never exceed the
    objects it scanned. *)
Theorem do_inverted_check_return_value ck kv :
  let r := do_inverted_check ck kv in
  (r.1 = 0 \/ r.1 = -1)
  /\ (r.1 = 0 <->
      (forall id vault, storage_vault_map_ ck !! id = Some vault ->
         lists_data vault)
      /\ inv_num_check_failed r.2 = 0)
  /\ 0 <= inv_num_check_failed r.2 <= inv_num_scanned r.2.
Proof.
  unfold do_inverted_check.
  pose proof (scan_vaults_spec kv ((map_to_list (storage_vault_map_ ck)).*2)
                inverted_start ltac:(done)) as H.
  assert (Forall lists_data (map_to_list (storage_vault_map_ ck)).*2
          <-> forall id vault, storage_vault_map_ ck !! id = Some vault ->
                lists_data vault) as Hall.
  { rewrite Forall_forall. split.
    - intros Hf id vault Hl. apply Hf. apply list_elem_of_fmap.
      exists (id, vault). split; [done|]. by apply elem_of_map_to_list.
    - intros Hf vault ([id v] & -> & Hin)%list_elem_of_fmap.
      apply (Hf id). by apply elem_of_map_to_list. }
  destruct (scan_vaults kv _ inverted_start) as [st|st]; simpl in *.
  - destruct H as [Hex Hle]. split; [by right|]. split; [|lia].
    split; [done|]. intros [Hlists _]. apply Hall in Hlists.
    apply Exists_exists in Hex as (vault & Hin & Hnot).
    destruct Hnot. by apply (proj1 (Forall_forall _ _) Hlists).
  - destruct H as [Hlists Hle].
    destruct (decide (inv_num_check_failed st = 0)); simpl.
    + split; [by left|]. split; [|lia]. split; [|done]. intros _.
      split; [by apply Hall|done].
    + split; [by right|]. split; [|lia]. split; [done|]. by intros [_ ?].
Qed.

(** *** Object keys in the path layout v0 *)

Lemma pretty_N_char_digit d :
  (d < 10)%N ->
  is_digit (pretty_N_char d) = true
  /\ digit_value (pretty_N_char d) = Z.of_N d.
Proof.
  intros H.
  assert (d = 0 \/ d = 1 \/ d = 2 \/ d = 3 \/ d = 4 \/ d = 5 \/ d = 6
          \/ d = 7 \/ d = 8 \/ d = 9)%N as Hd by lia.
  repeat (destruct Hd as [->|Hd]; [by vm_compute|]). subst. by vm_compute.
Qed.

Lemma digits_pretty_N_go x s :
  digits 0 (pretty_N_go x s) = digits (Z.of_N x) s.
Proof.
  revert s. induction (N.lt_wf_0 x) as [x _ IH]; intros s.
  destruct (decide (x = 0%N)) as [->|Hx]; [by rewrite pretty_N_go_0|].
  rewrite pretty_N_go_step by lia. rewrite IH by (apply N.div_lt; lia).
  destruct (pretty_N_char_digit (x `mod` 10)) as [Hd Hv];
    [apply N.mod_lt; lia|].
  cbn [digits]. rewrite Hd, Hv. f_equal.
  pose proof (N.div_mod x 10 ltac:(lia)). lia.
Qed.

Lemma occurs_append a s1 s2 :
  occurs a (s1 +:+ s2) <-> occurs a s1 \/ occurs a s2.
Proof.
  unfold occurs. induction s1 as [|b s1 IH].
  - rewrite append_empty. simpl. tauto.
  - rewrite append_cons. simpl. tauto.
Qed.

Lemma occurs_cons a b s : occurs a (String b s) <-> b = a \/ occurs a s.
Proof. done. Qed.

Lemma occurs_pretty_N_go a x s :
  occurs a (pretty_N_go x s) -> is_digit a = true \/ occurs a s.
Proof.
  revert s. induction (N.lt_wf_0 x) as [x _ IH]; intros s.
  destruct (decide (x = 0%N)) as [->|Hx]; [rewrite pretty_N_go_0; by right|].
  rewrite pretty_N_go_step by lia. intros H.
  apply IH in H; [|apply N.div_lt; lia].
  destruct H as [?|H]; [by left|].
  apply occurs_cons in H as [<-|?]; [|by right].
  left. apply pretty_N_char_digit, N.mod_lt. lia.
Qed.

Lemma occurs_pretty_Z a (z : Z) :
  occurs a (pretty z) -> is_digit a = true \/ a = "-"%char.
Proof.
  assert (forall p, occurs a (pretty (N.pos p)) -> is_digit a = true) as Hpos.
  { intros p. unfold pretty, pretty_N. rewrite decide_False by done.
    intros [?|[]]%occurs_pretty_N_go. done. }
  destruct z as [|p|p]; unfold pretty, pretty_Z.
  - intros [<-|[]]. by left.
  - intros H. left. by apply (Hpos p).
  - intros [<-|H]%occurs_cons; [by right|]. left. by apply (Hpos p).
Qed.

Lemma is_digit_plain a :
  is_digit a = true \/ a = "-"%char ->
  a <> "/"%char /\ a <> "_"%char /\ is_space a = false
  /\ (is_digit a = true -> a <> "-"%char /\ a <> "+"%char).
Proof.
  intros [H| ->]; [|by vm_compute].
  split_and!; try (intros ->; by vm_compute in H).
  - unfold is_digit, is_space in *. 
    destruct (nat_of_ascii a) as [|n]; [done|]. 
    apply andb_true_iff in H as [H1 H2].
    apply Nat.leb_le in H1, H2. 
    apply orb_false_iff. split.
    + apply andb_false_iff. right. apply Nat.leb_gt. lia.
    + apply Nat.eqb_neq. lia.
  - intros _. split; intros ->; by vm_compute in H.
Qed.

Lemma pieces_no_sep c s : ~ occurs c s -> pieces c s = [s].
Proof.
  induction s as [|a s IH]; intros Hno; simpl; [done|].
  rewrite decide_False by (intros ->; apply Hno; by left).
  rewrite IH; [done|]. intros ?. apply Hno. by right.
Qed.

Lemma pieces_sep c s rest :
  ~ occurs c s -> pieces c (s +:+ String c rest) = s :: pieces c rest.
Proof.
  induction s as [|a s IH]; intros Hno.
  - rewrite append_empty. simpl. by rewrite decide_True.
  - rewrite append_cons. simpl.
    rewrite decide_False by (intros ->; apply Hno; by left).
    rewrite IH; [done|]. intros ?. apply Hno. by right.
Qed.

Lemma trim_right_no_space s :
  (forall a, occurs a s -> is_space a = false) -> trim_right s = s.
Proof.
  induction s as [|a s IH]; intros Hno; simpl; [done|].
  rewrite IH by (intros b ?; apply Hno; by right).
  destruct s; [|done]. rewrite Hno; [done|by left].
Qed.

Lemma TrimWhitespace_no_space s :
  (forall a, occurs a s -> is_space a = false) -> TrimWhitespace s = s.
Proof.
  intros Hno. unfold TrimWhitespace.
  assert (trim_left s = s) as ->.
  { destruct s as [|a s]; simpl; [done|]. rewrite Hno; [done|by left]. }
  by apply trim_right_no_space.
Qed.

Lemma atol_pretty t : 0 < t <= INT64_MAX -> atol (pretty t) = t.
Proof.
  intros Ht. destruct t as [|p|p]; [lia| |lia].
  unfold pretty, pretty_Z, pretty, pretty_positive, pretty, pretty_N.
  rewrite decide_False by done.
  assert (digits 0 (pretty_N_go (N.pos p) "") = Z.pos p) as Hd.
  { rewrite digits_pretty_N_go. done. }
  assert (forall a, occurs a (pretty_N_go (N.pos p) "") -> is_digit a = true)
    as Hall.
  { intros a [?|[]]%occurs_pretty_N_go. done. }
  destruct (pretty_N_go (N.pos p) "") as [|a s] eqn:Hs.
  { simpl in Hd. lia. }
  assert (is_digit a = true) as Ha by (apply Hall; by left).
  destruct (is_digit_plain a (or_introl Ha)) as (_ & _ & Hsp & Hsign).
  destruct (Hsign Ha) as [Hm Hp].
  unfold atol. cbn [trim_left]. rewrite Hsp.
  assert (Z.min INT64_MAX (digits 0 (String a s)) = Z.pos p) as Hmin
    by (rewrite Hd; lia).
  destruct a as [[] [] [] [] [] [] [] []]; try done.
Qed.

Lemma plain_pretty a (z : Z) :
  occurs a (pretty z) ->
  a <> "/"%char /\ a <> "_"%char /\ is_space a = false.
Proof.
  intros H%occurs_pretty_Z. destruct (is_digit_plain a H) as (?&?&?&_). done.
Qed.

Lemma SplitString_segment_path t r seg :
  plain_id r ->
  SplitString (segment_path_v0 t r seg) "/"
  = ["data"; pretty t; r +:+ "_" +:+ pretty seg +:+ ".dat"].
Proof.
  intros Hr. unfold SplitString, segment_path_v0.
  set (last := r +:+ "_" +:+ pretty seg +:+ ".dat").
  assert (forall a, occurs a last ->
            a <> "/"%char /\ is_space a = false) as Hlast.
  { intros a. unfold last. rewrite !occurs_append.
    intros [H|[H|[H|H]]].
    - destruct (Hr a H) as (?&?&?). done.
    - destruct H as [<-|[]]. by vm_compute.
    - destruct (plain_pretty a seg H) as (?&?&?). done.
    - repeat (destruct H as [<-|H]; [by vm_compute|]). done. }
  change ("data/" +:+ pretty t +:+ "/" +:+ last)
    with ("data" +:+ String "/" (pretty t +:+ String "/" last)).
  rewrite pieces_sep.
  2: { intros H. repeat (destruct H as [H|H]; [discriminate H|]). done. }
  rewrite pieces_sep by (intros H; by destruct (plain_pretty _ _ H) as (?&_)).
  rewrite pieces_no_sep by (intros H; by destruct (Hlast _ H) as (?&_)).
  cbn [fmap list_fmap].
  rewrite (TrimWhitespace_no_space (pretty t))
    by (intros a H; by destruct (plain_pretty _ _ H) as (_&_&?)).
  rewrite (TrimWhitespace_no_space last)
    by (intros a H; by destruct (Hlast _ H) as (_&?)).
  done.
Qed.

Lemma atol_pretty_nonpos t : t <= 0 -> atol (pretty t) <= 0.
Proof.
  intros Ht. destruct t as [|p|p]; [by vm_compute|lia|].
  unfold pretty, pretty_Z, pretty, pretty_positive, pretty, pretty_N.
  rewrite decide_False by done.
  change ("-" +:+ pretty_N_go (N.pos p) "")
    with (String "-" (pretty_N_go (N.pos p) "")).
  unfold atol. cbn [trim_left].
  change (is_space "-") with false. cbv iota.
  rewrite digits_pretty_N_go. cbn [digits].
  unfold INT64_MIN. lia.
Qed.

(** X27: the inverted check reads back what the forward check writes: for a
    rowset id without '/', '_' and white space, the object key of a segment
    in the path layout v0, [data/{tablet_id}/{rowset_id}_{seg}.dat], parses
    to its tablet id and rowset id when the tablet id is above 0, and is
    rejected as a bad tablet id when it is 0 or below. *)
Theorem segment_path_parses_back t r seg :
  plain_id r ->
  (0 < t <= INT64_MAX ->
   parse_obj_key (segment_path_v0 t r seg) = Parsed t r)
  /\ (t <= 0 -> parse_obj_key (segment_path_v0 t r seg) = BadTabletId).
Proof.
  intros Hr. unfold parse_obj_key.
  rewrite SplitString_segment_path by done.
  cbn [length lookup list_lookup default back List.last].
  rewrite decide_False by lia. unfold id. split.
  - intros Ht. rewrite atol_pretty by done.
    rewrite decide_False by lia.
    assert (~ occurs "_"%char r) as Hno
      by (intros H; by destruct (Hr _ H) as (_&?&_)).
    change (r +:+ "_" +:+ pretty seg +:+ ".dat")
      with (r +:+ String "_" (pretty seg +:+ ".dat")).
    destruct (find_prefix "_"%char r (pretty seg +:+ ".dat") Hno) as [-> ->].
    done.
  - intros Ht. by rewrite decide_True by by apply atol_pretty_nonpos.
Qed.

Lemma segment_path_parses_back_10086 :
  parse_obj_key (segment_path_v0 10086 "0200000000001394" 3)
  = Parsed 10086 "0200000000001394".
Proof.
  apply (segment_path_parses_back 10086 "0200000000001394" 3); [|done].
  intros a H. unfold occurs in H. simpl in H.
  repeat (destruct H as [<-|H]; [by vm_compute|]). done.
Defined.

End InvertedCheckProps.

(** ** The interval inspector *)

Module InspectorProps.
Import InstanceChecker Inspector.

(** Without overflow the 64-bit [expiration_ms] is the one of the
    specification. *)
Lemma expiration_ms_spec L B :
  in_int64 (spec_expiration_ms L B) -> expiration_ms L B = spec_expiration_ms L B.
Proof.
  unfold expiration_ms, spec_expiration_ms. intros H.
  destruct (decide (L > B)).
  - assert (in_int64 (L - B)) as Hd.
    { unfold in_int64, INT64_MIN, INT64_MAX in *. lia. }
    by rewrite (wrap64_id _ Hd), (wrap64_id _ H).
  - by rewrite wrap64_id.
Qed.

(** What [do_inspect] does once it got as far as the comparison. *)
Lemma do_inspect_inspected cfg instance env L :
  inspected env L ->
  exists h,
    do_inspect cfg instance env
    = {| alarms :=
           hl_alarms h
           ++ (if decide (wrap64 (now env - spec_last_ctime_ms instance env)
                          >= expiration_ms L (reserved_buffer_days cfg))
               then [check_risks (instance_id instance)
                       (spec_last_ctime_ms instance env) (hl_job_status h) L
                       (reserved_buffer_days cfg)
                       (expiration_ms L (reserved_buffer_days cfg))]
               else []);
         last_success_time_ms_puts := hl_puts h |}
    /\ Forall (fun a => is_check_risks a = false) (hl_alarms h).
Proof.
  intros (Htxn & Hget & Hinit & Hlc & Hmax). unfold do_inspect.
  rewrite decide_True by done. rewrite decide_True by done.
  rewrite decide_True by done. rewrite Hlc.
  rewrite decide_True by done. rewrite decide_False by done.
  unfold spec_last_ctime_ms.
  destruct (decide (get_err env = TXN_KEY_NOT_FOUND)) as [Hnf|Hfound].
  - eexists. split; [reflexivity|]. constructor.
  - exists (has_last_ctime instance env). unfold has_last_ctime.
    destruct (last_ctime_ms (job_info env)) as [t|]; simpl;
      (split; [reflexivity|]); destruct (parse_ok env); by repeat constructor.
Qed.

Lemma filter_check_risks_others (l : list alarm) :
  Forall (fun a => is_check_risks a = false) l ->
  List.filter is_check_risks l = [].
Proof.
  induction 1 as [|a l Ha _ IH]; simpl; [done|]. by rewrite Ha.
Qed.

(** C6: with L the bucket lifecycle in days and B [reserved_buffer_days],
    [expiration_ms] is [(L - B) * 86400000] when [L > B] and [L * 86400000]
    otherwise, and the "check risks" alarm is written if and only if
    [now - last_ctime_ms >= expiration_ms], where [last_ctime_ms] is the one
    of the job record when there is one and [instance.ctime] otherwise (for
    values whose differences and products fit 64 bits). *)
Theorem check_risks_iff_expired cfg instance env L :
  inspected env L ->
  let B := reserved_buffer_days cfg in
  let last := spec_last_ctime_ms instance env in
  in_int64 (now env - last) ->
  in_int64 (spec_expiration_ms L B) ->
  expiration_ms L B = spec_expiration_ms L B
  /\ (now env - last >= spec_expiration_ms L B ->
      exists job_status,
        List.filter is_check_risks (alarms (do_inspect cfg instance env))
        = [check_risks (instance_id instance) last job_status L B
             (spec_expiration_ms L B)])
  /\ (now env - last < spec_expiration_ms L B ->
      List.filter is_check_risks (alarms (do_inspect cfg instance env)) = []).
Proof.
  intros Hins B last Hdiff Hexp.
  destruct (do_inspect_inspected cfg instance env L Hins) as (h & -> & Hothers).
  fold B last. rewrite (wrap64_id _ Hdiff), (expiration_ms_spec _ _ Hexp).
  split; [done|]. simpl. rewrite List.filter_app.
  rewrite (filter_check_risks_others _ Hothers). simpl.
  split; intros Hcmp.
  - rewrite decide_True by done. by exists (hl_job_status h).
  - rewrite decide_False by lia. done.
Qed.

(** Property 7 of section 8: lifecycle 7 days, buffer 3 days, last check 5
    days ago: the alarm is written, with an expiration of 4 days. *)
Lemma check_risks_7_3_5 :
  exists job_status,
    List.filter is_check_risks
      (alarms (do_inspect config_3_days instance1 (checked_days_ago 7 5)))
    = [check_risks "i1" (1700000000000 - 5 * day_ms) job_status 7 3
         (4 * day_ms)].
Proof.
  assert (inspected (checked_days_ago 7 5) 7) as Hins.
  { repeat split; try reflexivity; [by left|discriminate]. }
  destruct (check_risks_iff_expired config_3_days instance1
              (checked_days_ago 7 5) 7 Hins) as (_ & Hfires & _).
  - vm_compute. split; discriminate.
  - vm_compute. split; discriminate.
  - apply Hfires. vm_compute. discriminate.
Defined.

(** S5: lifecycle 10 days, buffer 3 days, last check 8 days ago. *)
Example S5_inspector_alarm :
  alarms (do_inspect config_3_days instance1 (checked_days_ago 10 8))
  = [check_risks "i1" (1700000000000 - 8 * day_ms) IDLE 10 3 (7 * day_ms)].
Proof. vm_compute. reflexivity. Qed.

(** The instances a cycle examines are those that pass the filter and are
    not DELETED. *)
Lemma inspect_cycle_examines cfg instances id out :
  (id, out) ∈ inspect_cycle cfg instances ->
  exists instance stopped env,
    (instance, stopped, env) ∈ instances
    /\ filter_out cfg (instance_id instance) = false
    /\ status instance <> DELETED
    /\ id = instance_id instance
    /\ out = do_inspect cfg instance env.
Proof.
  induction instances as [|[[instance stopped] env] l IH]; simpl.
  { intros H. by apply elem_of_nil in H. }
  assert ((id, out) ∈ inspect_cycle cfg l ->
          exists i s e,
            (i, s, e) ∈ (instance, stopped, env) :: l
            /\ filter_out cfg (instance_id i) = false
            /\ status i <> DELETED /\ id = instance_id i
            /\ out = do_inspect cfg i e) as Hrest.
  { intros (i & s & e & Hin & H)%IH. exists i, s, e. split; [by right|done]. }
  destruct (filter_out cfg (instance_id instance)) eqn:Hf; [by apply Hrest|].
  destruct stopped; [intros H; by apply elem_of_nil in H|].
  destruct (decide (status instance = DELETED)); [by apply Hrest|].
  intros [[= -> ->]|Hin]%elem_of_cons; [|by apply Hrest].
  exists instance, false, env. split; [by left|done].
Qed.

(** C7, as stated, fails: for an instance that has no job record yet the
    inspector gets through (the checker initialises, the lifecycle is
    fetched) and puts nothing into the metric. *)
Lemma never_checked_exports_nothing :
  ~ (forall cfg instance env L,
       filter_out cfg (instance_id instance) = false ->
       status instance <> DELETED ->
       create_txn_err env = TXN_OK ->
       (get_err env = TXN_OK \/ get_err env = TXN_KEY_NOT_FOUND) ->
       init_ret env = 0 ->
       get_bucket_lifecycle (checker env) 0 = (0, L) ->
       exists v,
         (instance_id instance, v)
           ∈ last_success_time_ms_puts (do_inspect cfg instance env)).
Proof.
  intros H.
  destruct (H config_3_days instance1 (never_checked 7) 7) as [v Hv];
    try reflexivity; try discriminate; [by right|].
  vm_compute in Hv. by apply elem_of_nil in Hv.
Qed.

(** C7, amended: [do_inspect] puts the record's [last_success_time_ms] (0
    when the field is not set) into the metric exactly when the transaction
    and the read of the job record succeed with the record found, the checker
    initialises, the lifecycle fetch succeeds with some S3 bucket (a lifecycle
    other than INT64_MAX), and the record has [last_ctime_ms]; otherwise it
    puts nothing. *)
Theorem last_success_time_ms_exported cfg instance env :
  last_success_time_ms_puts (do_inspect cfg instance env)
  = if decide (create_txn_err env = TXN_OK
               /\ get_err env = TXN_OK
               /\ init_ret env = 0
               /\ (get_bucket_lifecycle (checker env) 0).1 = 0
               /\ (get_bucket_lifecycle (checker env) 0).2 <> INT64_MAX
               /\ is_Some (last_ctime_ms (job_info env)))
    then [(instance_id instance,
           default 0 (last_success_time_ms (job_info env)))]
    else [].
Proof.
  unfold do_inspect.
  destruct (decide (create_txn_err env = TXN_OK)) as [Htxn|Htxn];
    [|rewrite decide_False by tauto; done].
  destruct (decide (get_err env = TXN_OK \/ get_err env = TXN_KEY_NOT_FOUND))
    as [Hget|Hget]; [|rewrite decide_False by tauto; done].
  destruct (decide (init_ret env = 0)) as [Hinit|Hinit];
    [|rewrite decide_False by tauto; done].
  destruct (get_bucket_lifecycle (checker env) 0) as [ret L]. simpl.
  destruct (decide (ret = 0)) as [Hret|Hret];
    [|rewrite decide_False by tauto; done].
  destruct (decide (L = INT64_MAX)) as [HL|HL];
    [rewrite decide_False by tauto; done|].
  destruct (decide (get_err env = TXN_KEY_NOT_FOUND)) as [Hnf|Hfound]; simpl.
  { rewrite decide_False; [done|]. intros (_ & Hok & _). congruence. }
  unfold has_last_ctime.
  destruct (last_ctime_ms (job_info env)) as [t|] eqn:Hlast; simpl.
  - rewrite decide_True; [done|]. destruct Hget; [|done].
    repeat split; try done; by eexists.
  - rewrite decide_False; [done|]. intros (_ & _ & _ & _ & _ & []). done.
Qed.

Example checked_exports :
  last_success_time_ms_puts
    (do_inspect config_3_days instance1 (checked_days_ago 7 5))
  = [("i1", 1700000000000 - 5 * day_ms + 5000)].
Proof. vm_compute. reflexivity. Qed.


(** *** Further properties of the inspector *)

(** The loop of [get_bucket_lifecycle], whatever the order of the vaults. *)
Lemma min_lifecycle_spec vaults m :
  match min_lifecycle vaults m with
  | None => Exists fails_lifecycle vaults
  | Some d =>
      Forall (fun vault => ~ fails_lifecycle vault) vaults
      /\ d <= m
      /\ Forall (fun vault => accessor_type vault = S3 ->
                              d <= (get_life_cycle vault).2) vaults
      /\ (d = m
          \/ Exists (fun vault => accessor_type vault = S3
                                  /\ d = (get_life_cycle vault).2) vaults)
  end.
Proof.
  revert m. induction vaults as [|vault vaults IH]; intros m; simpl.
  { split_and!; try constructor; try lia. }
  destruct (decide (accessor_type vault = S3)) as [Hs3|Hs3].
  2: { specialize (IH m). destruct (min_lifecycle vaults m) as [d|].
       - destruct IH as (Hok & Hle & Hmin & Hwit).
         split_and!; try done;
           try (constructor; [unfold fails_lifecycle; tauto|done]).
         destruct Hwit as [?|?]; [by left|right; by right].
       - by right. }
  destruct (decide (check_versioning vault = 0)) as [Hv|Hv].
  2: { left. unfold fails_lifecycle. tauto. }
  destruct (decide ((get_life_cycle vault).1 = 0)) as [Hl|Hl].
  2: { left. unfold fails_lifecycle. tauto. }
  match goal with |- context [min_lifecycle vaults ?m'] =>
    specialize (IH m'); destruct (min_lifecycle vaults m') as [d|]
  end.
  - destruct IH as (Hok & Hle & Hmin & Hwit).
    split_and!.
    + constructor; [|done]. unfold fails_lifecycle. intros [_ [?|?]]; done.
    + case_decide; lia.
    + constructor; [|done]. intros _. case_decide; lia.
    + case_decide.
      * destruct Hwit as [->|?]; [right; by left|right; by right].
      * destruct Hwit as [->|?]; [by left|right; by right].
  - by right.
Qed.


Lemma map_values_Exists (ck : InstanceChecker) (P : StorageVault -> Prop) :
  Exists P (map_to_list (storage_vault_map_ ck)).*2
  <-> exists id vault, storage_vault_map_ ck !! id = Some vault /\ P vault.
Proof.
  rewrite Exists_exists. split.
  - intros (vault & ([id v] & -> & Hin)%list_elem_of_fmap & HP).
    exists id, v. split; [|done]. by apply elem_of_map_to_list.
  - intros (id & vault & Hl & HP). exists vault. split; [|done].
    apply list_elem_of_fmap. exists (id, vault). split; [done|].
    by apply elem_of_map_to_list.
Qed.


Example lifecycle_of_bucket : get_bucket_lifecycle (bucket 7) 0 = (0, 7).
Proof. vm_compute. reflexivity. Qed.

Lemma no_s3_lifecycle ck d0 :
  (forall id vault, storage_vault_map_ ck !! id = Some vault ->
     accessor_type vault <> S3) ->
  get_bucket_lifecycle ck d0 = (0, INT64_MAX).
Proof.
  intros Hno. unfold get_bucket_lifecycle.
  pose proof (min_lifecycle_spec (map_to_list (storage_vault_map_ ck)).*2
                INT64_MAX) as H.
  destruct (min_lifecycle _ INT64_MAX) as [d|].
  - destruct H as (_ & _ & _ & [->|Hex]); [done|].
    destruct (proj1 (map_values_Exists ck _) Hex) as (id & vault & Hl & Hs3 & _).
    by destruct (Hno id vault Hl).
  - destruct (proj1 (map_values_Exists ck _) H) as (id & vault & Hl & Hs3 & _).
    by destruct (Hno id vault Hl).
Qed.

(** X16: when [do_inspect] cannot create the transaction, read the job key,
    initialise the checker or fetch the bucket lifecycle, it writes exactly
    one alarm line, which is not the "check risks" alarm, and exports
    nothing. *)
Theorem do_inspect_gives_up cfg instance env :
  ~ gets_lifecycle env ->
  exists a,
    alarms (do_inspect cfg instance env) = [a]
    /\ is_check_risks a = false
    /\ last_success_time_ms_puts (do_inspect cfg instance env) = [].
Proof.
  unfold gets_lifecycle, do_inspect. intros Hnot.
  destruct (decide (create_txn_err env = TXN_OK)); [|by eexists].
  destruct (decide (get_err env = TXN_OK \/ get_err env = TXN_KEY_NOT_FOUND));
    [|by eexists].
  destruct (decide (init_ret env = 0)); [|by eexists].
  destruct (get_bucket_lifecycle (checker env) 0) as [ret L]. simpl in Hnot.
  destruct (decide (ret = 0)); [tauto|by eexists].
Qed.

Lemma do_inspect_gives_up_kv_down :
  exists a,
    alarms (do_inspect config_3_days instance1 kv_down) = [a]
    /\ is_check_risks a = false
    /\ last_success_time_ms_puts (do_inspect config_3_days instance1 kv_down)
       = [].
Proof.
  apply do_inspect_gives_up. intros (H & _). discriminate H.
Defined.

(** X17: for an instance none of whose vaults is an S3 bucket (all on HDFS,
    say) [do_inspect] never writes the "check risks" alarm and exports
    nothing, however long ago the instance was checked; and when the
    transaction is created, the job key is read (found or not) and the
    checker initialises, it writes no alarm at all. *)
Theorem do_inspect_skips_without_s3 cfg instance env :
  (forall id vault, storage_vault_map_ (checker env) !! id = Some vault ->
     accessor_type vault <> S3) ->
  Forall (fun a => is_check_risks a = false)
    (alarms (do_inspect cfg instance env))
  /\ last_success_time_ms_puts (do_inspect cfg instance env) = []
  /\ (create_txn_err env = TXN_OK ->
      (get_err env = TXN_OK \/ get_err env = TXN_KEY_NOT_FOUND) ->
      init_ret env = 0 ->
      do_inspect cfg instance env
      = {| alarms := []; last_success_time_ms_puts := [] |}).
Proof.
  intros Hno. unfold do_inspect.
  rewrite (no_s3_lifecycle _ _ Hno). rewrite !(decide_True (P := 0 = 0)) by done.
  rewrite !(decide_True (P := INT64_MAX = INT64_MAX)) by done.
  destruct (decide (create_txn_err env = TXN_OK));
    [|split_and!; [by repeat constructor|done..]].
  destruct (decide (get_err env = TXN_OK \/ get_err env = TXN_KEY_NOT_FOUND));
    [|split_and!; [by repeat constructor|done..]].
  destruct (decide (init_ret env = 0));
    [|split_and!; [by repeat constructor|done..]].
  split_and!; [by constructor|done..].
Qed.

Lemma do_inspect_skips_hdfs_only :
  do_inspect config_3_days instance1 hdfs_only
  = {| alarms := []; last_success_time_ms_puts := [] |}.
Proof.
  destruct (do_inspect_skips_without_s3 config_3_days instance1 hdfs_only)
    as (_ & _ & H).
  - intros id vault Hl. unfold hdfs_only in Hl. simpl in Hl.
    apply lookup_singleton_Some in Hl as [_ <-]. discriminate.
  - apply H; [reflexivity|by left|reflexivity].
Defined.

(** X18: a pass of [inspect_instance_check_interval] calls [do_inspect] only
    for instances that pass the instance filter and are not DELETED. *)
Theorem inspect_cycle_only_live cfg instances id out :
  (id, out) ∈ inspect_cycle cfg instances ->
  exists instance stopped env,
    (instance, stopped, env) ∈ instances
    /\ filter_out cfg (instance_id instance) = false
    /\ status instance <> DELETED
    /\ id = instance_id instance
    /\ out = do_inspect cfg instance env.
Proof. apply inspect_cycle_examines. Qed.

Lemma inspect_cycle_only_live_i1 :
  exists instance stopped env,
    (instance, stopped, env)
      ∈ [(instance2_deleted, false, checked_days_ago 7 5);
         (instance1, false, checked_days_ago 7 5)]
    /\ filter_out config_3_days (instance_id instance) = false
    /\ status instance <> DELETED
    /\ "i1" = instance_id instance
    /\ do_inspect config_3_days instance1 (checked_days_ago 7 5)
       = do_inspect config_3_days instance env.
Proof.
  apply (inspect_cycle_only_live config_3_days
           [(instance2_deleted, false, checked_days_ago 7 5);
            (instance1, false, checked_days_ago 7 5)] "i1").
  left.
Defined.

(** X19: once the loop of [inspect_instance_check_interval] polls
    [stopped()] as true at an instance that passes the filter, it inspects
    neither that instance nor any instance listed after it. *)
Theorem inspect_cycle_stops cfg before instance env rest :
  filter_out cfg (instance_id instance) = false ->
  inspect_cycle cfg (before ++ (instance, true, env) :: rest)
  = inspect_cycle cfg before.
Proof.
  intros Hpass. induction before as [|[[i s] e] l IH]; simpl.
  - by rewrite Hpass.
  - by rewrite IH.
Qed.

Lemma inspect_cycle_stops_i1 :
  inspect_cycle config_3_days
    ([(instance1, false, checked_days_ago 7 5)]
       ++ (instance1, true, checked_days_ago 7 5)
       :: [(instance1, false, never_checked 7)])
  = inspect_cycle config_3_days [(instance1, false, checked_days_ago 7 5)].
Proof. apply inspect_cycle_stops. reflexivity. Defined.

End InspectorProps.

(** ** The fan-out helper *)

Module SyncExecutorProps.
Import SyncExecutor.

Section ExecutorProps.
Context {T : Type} (cancel : T -> bool).

Local Abbreviation Task := (@Task T).
Local Abbreviation exec := (exec cancel).
Local Abbreviation step := (step cancel).
Local Abbreviation run := (run cancel).
Local Abbreviation task_step := (task_step cancel).

Lemma exec_snoc evs ev : exec (evs ++ [ev]) = step (exec evs) ev.
Proof. unfold exec. by rewrite fold_left_app. Qed.

Lemma exec_app evs evs' : exec (evs ++ evs') = fold_left step evs' (exec evs).
Proof. unfold exec. by rewrite fold_left_app. Qed.

Lemma submitted_app (evs evs' : list (@event T)) :
  submitted (evs ++ evs') = submitted evs ++ submitted evs'.
Proof.
  induction evs as [|[cb|i] evs IH]; simpl; [done| |done]. by rewrite IH.
Qed.

Lemma submitted_runs (sched : list nat) : submitted (@Run T <$> sched) = [].
Proof. induction sched; simpl; done. Qed.

Lemma outstanding_app (l1 l2 : list Task) :
  outstanding (l1 ++ l2) = (outstanding l1 + outstanding l2)%nat.
Proof. unfold outstanding. by rewrite filter_app, length_app. Qed.

Lemma outstanding_one (t : Task) :
  outstanding [t] = if is_signalled (pc t) then 0%nat else 1%nat.
Proof.
  unfold outstanding. rewrite filter_cons, filter_nil.
  destruct (is_signalled (pc t)); by case_decide.
Qed.

Lemma outstanding_cons (t : Task) l :
  outstanding (t :: l) = (outstanding [t] + outstanding l)%nat.
Proof. apply (outstanding_app [t] l). Qed.

Lemma task_ok_mono (t : Task) : task_ok false t -> forall b, task_ok b t.
Proof.
  unfold task_ok. destruct (pc t); try done.
  intros [?|[_ ?]] b; [by left|done].
Qed.

Lemma task_ok_set (t : Task) b : task_ok b t -> task_ok true t.
Proof.
  unfold task_ok. destruct (pc t); try done.
  intros [?|[? _]]; [by left|by right].
Qed.

(** What one step does to the task that makes it. *)
Lemma task_step_spec (t : Task) stop :
  task_ok stop t ->
  forall t' stop' signalled,
    task_step t stop = (t', stop', signalled) ->
    task_ok stop' t'
    /\ _callback t' = _callback t
    /\ (stop = true -> stop' = true)
    /\ (stop = false -> stop' = true ->
        exists r, pc t' = Flagged r /\ r = _callback t tt /\ cancel r = true)
    /\ (outstanding [t]
        = (outstanding [t'] + if signalled then 1 else 0)%nat)
    /\ (steps_left (pc t') <= pred (steps_left (pc t)))%nat
    /\ (forall r, pc t = Flagged r \/ (pc t = Signalled /\ _res t = Some r) ->
          pc t' = Signalled /\ _res t' = Some r).
Proof.
  intros Hok t' stop' signalled. unfold task_step, task_ok in *.
  rewrite !outstanding_one.
  destruct t as [cb p res]. simpl in *.
  destruct p as [| |v|v|]; simpl.
  - destruct stop; intros [= <- <- <-]; simpl;
      repeat split; try done; try lia; try (by right); naive_solver.
  - intros [= <- <- <-]; simpl. repeat split; try done; try lia; naive_solver.
  - intros [= <- <- <-]; simpl. destruct Hok as [-> ->].
    destruct (cancel (cb tt)) eqn:Hc;
      repeat split; try done; try lia; naive_solver.
  - intros [= <- <- <-]; simpl. destruct Hok as [-> ->].
    repeat split; try done; try lia; try (by left); naive_solver.
  - intros [= <- <- <-]; simpl.
    repeat split; try done; try lia; naive_solver.
Qed.

Lemma tasks_split (l : list Task) i t :
  l !! i = Some t ->
  exists l1 l2,
    l = l1 ++ t :: l2 /\ length l1 = i
    /\ forall t', <[i := t']> l = l1 ++ t' :: l2.
Proof.
  intros Hl. exists (take i l), (drop (S i) l).
  pose proof (lookup_lt_Some _ _ _ Hl) as Hlt.
  assert (length (take i l) = i) as Hlen by (rewrite length_take; lia).
  split; [by rewrite take_drop_middle|]. split; [done|].
  intros t'. rewrite <- (take_drop_middle l i t Hl) at 1.
  rewrite insert_app_r_alt by lia. by rewrite Hlen, Nat.sub_diag.
Qed.

Lemma add_ok evs callback e :
  executor_ok cancel evs e ->
  executor_ok cancel (evs ++ [Add callback]) (add callback e).
Proof.
  intros [Hcb Hcount Htasks Htoken]. split; simpl.
  - rewrite fmap_app, submitted_app, Hcb. done.
  - rewrite outstanding_app, outstanding_one, Hcount. simpl. lia.
  - apply Forall_app. split; [done|]. by repeat constructor.
  - intros Hset. destruct (Htoken Hset) as (t & r & Hin & H).
    exists t, r. split; [|done]. apply elem_of_app. by left.
Qed.

Lemma run_ok evs i e :
  executor_ok cancel evs e -> executor_ok cancel (evs ++ [Run i]) (run i e).
Proof.
  intros [Hcb Hcount Htasks Htoken].
  assert (submitted (evs ++ [@Run T i]) = submitted evs) as Hsub
    by (rewrite submitted_app; apply app_nil_r).
  unfold run. destruct (_tasks e !! i) as [t|] eqn:Hl.
  2: { split; try done. by rewrite Hsub. }
  destruct (tasks_split _ _ _ Hl) as (l1 & l2 & Heq & Hlen & Hins).
  destruct (task_step t (_stop_token e)) as [[t' stop'] signalled] eqn:Hstep.
  rewrite Heq in Htasks.
  apply Forall_app in Htasks as [Hl1 Hl2].
  apply Forall_cons in Hl2 as [Ht Hl2].
  destruct (task_step_spec t _ Ht _ _ _ Hstep)
    as (Ht' & Hcb' & Hmono & Hnew & Hout & _ & Hkeep).
  assert (forall u : Task, task_ok (_stop_token e) u -> task_ok stop' u) as Hlift.
  { intros u Hu. destruct (_stop_token e) eqn:Hs.
    - by rewrite Hmono.
    - by apply task_ok_mono. }
  split; simpl; rewrite Hins.
  - rewrite Hsub, <- Hcb, Heq, !fmap_app, !fmap_cons. by rewrite Hcb'.
  - rewrite Hcount, Heq, !outstanding_app.
    rewrite (outstanding_cons t), (outstanding_cons t'), Hout.
    destruct signalled; lia.
  - apply Forall_app. split; [by eapply Forall_impl|].
    apply Forall_cons. split; [done|by eapply Forall_impl].
  - intros Hset. destruct (_stop_token e) eqn:Hs.
    + destruct (Htoken eq_refl) as (u & r & Hin & Hpc & Hr & Hc).
      rewrite Heq in Hin.
      apply elem_of_app in Hin as [Hin|Hin];
        [exists u, r; rewrite elem_of_app; by eauto|].
      apply elem_of_cons in Hin as [->|Hin].
      * destruct (Hkeep r Hpc) as [Hpc' Hres'].
        exists t', r. rewrite elem_of_app, elem_of_cons, Hcb'. by eauto 10.
      * exists u, r. rewrite elem_of_app, elem_of_cons. by eauto 10.
    + destruct (Hnew eq_refl Hset) as (r & Hpc' & Hr & Hc).
      exists t', r. rewrite elem_of_app, elem_of_cons, Hcb'. by eauto 10.
Qed.

Lemma init_ok : executor_ok cancel [] (@init T).
Proof. split; simpl; try done. Qed.

(** The facts of [executor_ok] hold along every run. *)
Lemma exec_ok evs : executor_ok cancel evs (exec evs).
Proof.
  induction evs as [|ev evs IH] using rev_ind; [apply init_ok|].
  rewrite exec_snoc. destruct ev; simpl; [by apply add_ok|by apply run_ok].
Qed.

Lemma task_step_steps_left (t : Task) stop :
  (steps_left (pc (task_step t stop).1.1) <= pred (steps_left (pc t)))%nat.
Proof.
  unfold task_step. destruct (pc t) eqn:Hpc; simpl; try lia.
  - destruct stop; simpl; lia.
  - rewrite Hpc. simpl. lia.
Qed.

(** A schedule that gives every task the steps it still needs brings every
    task to its end. *)
Lemma drain sched (e : SyncExecutor) :
  (forall i t, _tasks e !! i = Some t ->
     (steps_left (pc t) <= count_occ Nat.eq_dec sched i)%nat) ->
  Forall (fun t => is_signalled (pc t) = true)
    (_tasks (fold_left step (Run <$> sched) e)).
Proof.
  revert e. induction sched as [|j sched IH]; intros e H.
  - simpl. apply Forall_lookup. intros i t Hl. specialize (H i t Hl).
    simpl in H. destruct (pc t); simpl in *; done || lia.
  - simpl. apply IH. intros i t' Hl'. unfold run in Hl'.
    destruct (_tasks e !! j) as [t|] eqn:Hl.
    + destruct (task_step t (_stop_token e)) as [[tj stop'] signalled] eqn:Hstep.
      simpl in Hl'.
      destruct (decide (j = i)) as [->|Hne].
      * rewrite list_lookup_insert_eq in Hl' by by eapply lookup_lt_Some.
        injection Hl' as <-. specialize (H i t Hl).
        rewrite count_occ_cons_eq in H by done.
        pose proof (task_step_steps_left t (_stop_token e)) as Hless.
        rewrite Hstep in Hless. simpl in Hless. lia.
      * rewrite list_lookup_insert_ne in Hl' by done.
        specialize (H i t' Hl'). by rewrite count_occ_cons_neq in H.
    + specialize (H i t' Hl').
      destruct (decide (j = i)) as [->|Hne]; [congruence|].
      by rewrite count_occ_cons_neq in H.
Qed.

Lemma outstanding_none (l : list Task) :
  outstanding l = 0%nat <-> Forall (fun t => is_signalled (pc t) = true) l.
Proof.
  induction l as [|t l IH]; [done|].
  rewrite outstanding_cons, outstanding_one, Forall_cons, <- IH.
  destruct (is_signalled (pc t)); simpl; [|split; [lia|by intros [? _]]].
  split; [by intros ?|by intros [_ ?]].
Qed.

Lemma collect_all (l : list Task) :
  Forall (fun t => _res t = Some (_callback t tt)) l ->
  collect l = (fun t => _callback t tt) <$> l.
Proof.
  induction 1 as [|t l Ht _ IH]; simpl; [done|]. by rewrite Ht, IH.
Qed.

(** [collect] keeps a result whose predecessors all have one ... *)
Lemma collect_lookup (l : list Task) i t r :
  l !! i = Some t -> _res t = Some r ->
  (forall j u, (j < i)%nat -> l !! j = Some u -> is_Some (_res u)) ->
  collect l !! i = Some r.
Proof.
  revert i. induction l as [|t0 l IH]; intros i Hl Hr Hbefore; [done|].
  destruct i as [|i]; simpl in *.
  - injection Hl as ->. by rewrite Hr.
  - destruct (Hbefore 0%nat t0) as [r0 Hr0]; [lia|done|].
    rewrite Hr0. simpl. apply IH; [done|done|].
    intros j u Hj Hu. apply (Hbefore (S j) u); [lia|done].
Qed.

(** ... and drops every result behind a task that has none. *)
Lemma collect_gap (l : list Task) i j u :
  (j < i)%nat -> l !! j = Some u -> _res u = None -> collect l !! i = None.
Proof.
  revert i j. induction l as [|t0 l IH]; intros i j Hj Hu Hnone; [done|].
  simpl. destruct (_res t0) as [r0|] eqn:Hr0; [|done].
  destruct i as [|i]; [lia|]. destruct j as [|j]; simpl in *.
  - injection Hu as ->. congruence.
  - apply (IH i j); [lia|done|done].
Qed.

(** No token without a result that asks for it. *)
Lemma never_cancelled evs :
  Forall (fun callback => cancel (callback tt) = false) (submitted evs) ->
  _stop_token (exec evs) = false.
Proof.
  intros Hno. destruct (exec_ok evs) as [Hcb _ _ Htoken].
  destruct (_stop_token (exec evs)); [|done].
  destruct (Htoken eq_refl) as (t & r & Hin & _ & -> & Hc).
  assert (_callback t ∈ submitted evs) as Hsub.
  { rewrite <- Hcb. apply list_elem_of_fmap. by exists t. }
  pose proof (proj1 (Forall_forall _ _) Hno _ Hsub). simpl in *. congruence.
Qed.

Lemma when_all_without_cancel evs res finished e' :
  Forall (fun callback => cancel (callback tt) = false) (submitted evs) ->
  when_all (exec evs) = Some (res, finished, e') ->
  res = (fun callback => callback tt) <$> submitted evs /\ finished = true.
Proof.
  intros Hno Hall. pose proof (never_cancelled evs Hno) as Htoken.
  destruct (exec_ok evs) as [Hcb Hcount Htasks _].
  unfold when_all in Hall. case_decide as Hzero; [|done].
  injection Hall as <- <- <-.
  assert (Forall (fun t => _res t = Some (_callback t tt)) (_tasks (exec evs)))
    as Hres.
  { rewrite Hcount in Hzero.
    assert (outstanding (_tasks (exec evs)) = 0%nat) as Hout by lia.
    apply outstanding_none in Hout. rewrite Htoken in Htasks.
    apply Forall_forall. intros t Hin.
    pose proof (proj1 (Forall_forall _ _) Hout t Hin) as Hsig.
    pose proof (proj1 (Forall_forall _ _) Htasks t Hin) as Hok.
    simpl in Hsig. unfold task_ok in Hok.
    destruct (pc t); simpl in *; try done.
    by destruct Hok as [?|[_ ?]]. }
  rewrite (collect_all _ Hres). split.
  - rewrite <- Hcb. by rewrite <- list_fmap_compose.
  - apply bool_decide_eq_true. by rewrite length_fmap.
Qed.

(** C9: when M tasks are added to a new executor and no result satisfies
    [cancel], then under every interleaving of the adds with the steps of
    the pool [when_all], once it returns, returns the M results in submission
    order with [finished = true], and it does return once every task had its
    steps; and in every case [finished] says whether as many results were
    collected as tasks were submitted. *)
Theorem when_all_collects_all evs :
  (Forall (fun callback => cancel (callback tt) = false) (submitted evs) ->
   (forall res finished e',
      when_all (exec evs) = Some (res, finished, e') ->
      res = (fun callback => callback tt) <$> submitted evs
      /\ finished = true)
   /\ (forall sched,
         fair (length (submitted evs)) sched ->
         exists e',
           when_all (exec (evs ++ (Run <$> sched)))
           = Some ((fun callback => callback tt) <$> submitted evs, true, e')))
  /\ (forall res finished e',
        when_all (exec evs) = Some (res, finished, e') ->
        finished = bool_decide (length res = length (submitted evs))).
Proof.
  split.
  - intros Hno. split; [intros; by eapply when_all_without_cancel|].
    intros sched Hfair.
    assert (submitted (evs ++ (@Run T <$> sched)) = submitted evs) as Hsub
      by (rewrite submitted_app, submitted_runs; apply app_nil_r).
    destruct (exec_ok (evs ++ (Run <$> sched))) as [Hcb Hcount _ _].
    destruct (when_all (exec (evs ++ (Run <$> sched))))
      as [[[res finished] e']|] eqn:Hall.
    + exists e'.
      destruct (when_all_without_cancel _ _ _ _ ltac:(by rewrite Hsub) Hall)
        as [-> ->].
      by rewrite Hsub.
    + exfalso. unfold when_all in Hall. case_decide as Hzero; [done|].
      apply Hzero. rewrite Hcount.
      enough (outstanding (_tasks (exec (evs ++ (Run <$> sched)))) = 0%nat)
        as -> by done.
      apply outstanding_none. rewrite exec_app. apply drain.
      intros i t Hl. destruct (exec_ok evs) as [Hcb0 _ _ _].
      assert (i < length (submitted evs))%nat as Hi.
      { rewrite <- Hcb0, length_fmap. by eapply lookup_lt_Some. }
      specialize (Hfair i Hi). destruct (pc t); simpl; lia.
  - intros res finished e' Hall.
    destruct (exec_ok evs) as [Hcb _ _ _].
    unfold when_all in Hall. case_decide; [|done].
    injection Hall as <- <- <-.
    rewrite <- Hcb, length_fmap. apply bool_decide_ext. split; congruence.
Qed.

(** What every interleaving keeps of a cancellation: the token is set only
    when some task is past its callback with a result that satisfies
    [cancel]; a task that is over either stored the result of its callback
    or has none and the token is set; and [when_all] returns the results of
    the tasks up to the first one that has none: a stored result is returned
    when every task submitted before has one too, and is dropped when one of
    them was skipped. *)
Lemma cancel_stores_and_collects_prefix evs :
  (_stop_token (exec evs) = true -> triggered cancel (_tasks (exec evs)))
  /\ (forall t, t ∈ _tasks (exec evs) -> pc t = Signalled ->
        _res t = Some (_callback t tt)
        \/ (_res t = None /\ _stop_token (exec evs) = true))
  /\ (forall res finished e',
        when_all (exec evs) = Some (res, finished, e') ->
        forall i t r,
          _tasks (exec evs) !! i = Some t -> _res t = Some r ->
          ((forall j u, (j < i)%nat -> _tasks (exec evs) !! j = Some u ->
              is_Some (_res u)) ->
           res !! i = Some r)
          /\ (forall j u, (j < i)%nat -> _tasks (exec evs) !! j = Some u ->
                _res u = None -> res !! i = None)).
Proof.
  destruct (exec_ok evs) as [_ _ Htasks Htoken].
  split; [done|]. split.
  - intros t Hin Hpc.
    pose proof (proj1 (Forall_forall _ _) Htasks t Hin) as Hok.
    unfold task_ok in Hok. by rewrite Hpc in Hok.
  - intros res finished e' Hall i t r Hl Hr.
    unfold when_all in Hall. case_decide; [|done].
    injection Hall as <- <- <-. split.
    + by apply collect_lookup with t.
    + intros j u. apply collect_gap.
Qed.

(** [reset()] after a round in which every task is over gives an executor as
    new; [when_all] alone leaves the token as it is. *)
Lemma reset_fresh evs e :
  reset (exec evs) = Some e -> e = init.
Proof.
  unfold reset, when_all.
  destruct (exec_ok evs) as [_ Hcount _ _].
  destruct (_tasks (exec evs)) as [|t l] eqn:Htasks.
  - intros [= <-]. rewrite Hcount. done.
  - case_decide; [|done]. by intros [= <-].
Qed.

End ExecutorProps.

Lemma three_tasks_fair : fair 3 three_tasks_rest.
Proof.
  intros i Hi.
  assert (i = 0 \/ i = 1 \/ i = 2)%nat as [->|[->| ->]] by lia;
    vm_compute; lia.
Defined.

Lemma when_all_collects_three :
  exists e',
    when_all (exec negative (three_tasks ++ (Run <$> three_tasks_rest)))
    = Some ([1; 2; 3], true, e').
Proof.
  apply (proj2 (proj1 (when_all_collects_all negative three_tasks)
                  ltac:(repeat constructor))).
  exact three_tasks_fair.
Defined.

(** C10 on the code: two tasks are added; the pool runs the second one first,
    its result -1 satisfies [cancel], so it sets the token and stores the
    result; the first task starts after that, sees the token and returns
    without a result.  [when_all] stops at the first task without a result:
    it returns no result at all and [finished = false], and the result of
    the task that triggered the cancellation, stored though it is, is not
    among the collected ones. *)
Theorem triggering_result_dropped :
  let e := exec negative second_cancels_first in
  _stop_token e = true
  /\ (_res <$> _tasks e) = [None; Some (-1)]
  /\ negative (-1) = true
  /\ exists e', when_all e = Some ([], false, e').
Proof.
  cbv zeta. split_and!; [by vm_compute..|].
  eexists. vm_compute. reflexivity.
Qed.

(** Had the pool run the two tasks in submission order, the result of the
    cancelling task would have been returned. *)
Example second_cancels_in_order :
  (fun r => r.1)
    <$> when_all (exec negative
                    [Add (fun _ => 1); Add (fun _ => -1);
                     Run 0; Run 0; Run 0; Run 0; Run 1; Run 1; Run 1; Run 1])
  = Some ([1; -1], true).
Proof. vm_compute. reflexivity. Qed.

(** *** Further properties of the executor *)

Section ExecutorMore.
Context {T : Type} (cancel : T -> bool).

Local Abbreviation Task := (@Task T).
Local Abbreviation exec := (exec cancel).
Local Abbreviation step := (step cancel).
Local Abbreviation run := (run cancel).

Lemma signalled_pc (t : Task) : is_signalled (pc t) = true <-> pc t = Signalled.
Proof. destruct (pc t); simpl; split; done. Qed.

Lemma returns_iff_signalled evs :
  is_Some (when_all (exec evs))
  <-> Forall (fun t => pc t = Signalled) (_tasks (exec evs)).
Proof.
  destruct (exec_ok cancel evs) as [_ Hcount _ _].
  unfold when_all. rewrite Hcount.
  assert (Forall (fun t : Task => pc t = Signalled) (_tasks (exec evs))
          <-> outstanding (_tasks (exec evs)) = 0%nat) as ->.
  { rewrite outstanding_none. apply Forall_iff. intros t.
    symmetry. apply signalled_pc. }
  case_decide as Hz.
  - split; [intros _; lia|intros _; by eexists].
  - split; [by intros [? ?]|intros ?; lia].
Qed.

(** X20: under every interleaving [when_all] returns exactly when every task
    added has signalled: the countdown event counts the tasks that are not
    over. *)
Theorem when_all_waits_for_all evs :
  is_Some (when_all (exec evs))
  <-> Forall (fun t => pc t = Signalled) (_tasks (exec evs)).
Proof. apply returns_iff_signalled. Qed.

(** X21: [when_all] returns under every fair schedule, cancellation or not:
    once every task submitted had its steps, the wait is over. *)
Theorem when_all_returns evs sched :
  fair (length (submitted evs)) sched ->
  is_Some (when_all (exec (evs ++ (Run <$> sched)))).
Proof.
  intros Hfair.
  destruct (exec_ok cancel (evs ++ (Run <$> sched))) as [_ Hcount _ _].
  unfold when_all. rewrite decide_True; [by eexists|].
  rewrite Hcount.
  enough (outstanding (_tasks (exec (evs ++ (Run <$> sched)))) = 0%nat)
    as -> by done.
  apply outstanding_none. rewrite exec_app. apply drain.
  intros i t Hl. destruct (exec_ok cancel evs) as [Hcb0 _ _ _].
  assert (i < length (submitted evs))%nat as Hi.
  { rewrite <- Hcb0, length_fmap. by eapply lookup_lt_Some. }
  specialize (Hfair i Hi). destruct (pc t); simpl; lia.
Qed.

Lemma collect_prefix (l : list Task) :
  Forall (fun t => _res t = None \/ _res t = Some (_callback t tt)) l ->
  collect l = take (length (collect l)) ((fun t => _callback t tt) <$> l)
  /\ (length (collect l) = length l <-> Forall (fun t => is_Some (_res t)) l).
Proof.
  induction 1 as [|t l Ht _ [IH1 IH2]]; simpl.
  { split; [done|]. split; [constructor|done]. }
  destruct Ht as [Hnone|Hsome].
  - rewrite Hnone. simpl. split; [done|]. split; [done|].
    intros [[? ?] _]%Forall_cons. congruence.
  - rewrite Hsome. simpl. split; [f_equal; exact IH1|].
    rewrite Forall_cons, <- IH2. rewrite Hsome.
    split; [intros ?; split; [by eexists|lia]|intros [_ ?]; lia].
Qed.

(** X22: whatever is cancelled, the results [when_all] returns are the
    results of the callbacks of the first tasks, in submission order, and
    [finished] is false exactly when some task ended without a result. *)
Theorem when_all_returns_prefix evs res finished e' :
  when_all (exec evs) = Some (res, finished, e') ->
  res = take (length res) ((fun callback => callback tt) <$> submitted evs)
  /\ (finished = false <->
      exists t, t ∈ _tasks (exec evs) /\ _res t = None).
Proof.
  intros Hall. destruct (exec_ok cancel evs) as [Hcb Hcount Htasks _].
  assert (Forall (fun t : Task => pc t = Signalled) (_tasks (exec evs))) as Hsig.
  { apply returns_iff_signalled. by eexists. }
  unfold when_all in Hall. case_decide; [|done].
  injection Hall as <- <- <-.
  destruct (collect_prefix (_tasks (exec evs))) as [Hpre Hlen].
  { apply Forall_forall. intros t Hin.
    pose proof (proj1 (Forall_forall _ _) Htasks t Hin) as Hok.
    pose proof (proj1 (Forall_forall _ _) Hsig t Hin) as Hpc. simpl in Hpc.
    unfold task_ok in Hok. rewrite Hpc in Hok.
    destruct Hok as [?|[? _]]; [by right|by left]. }
  split.
  - rewrite <- Hcb, <- list_fmap_compose. exact Hpre.
  - rewrite bool_decide_eq_false.
    split.
    + intros Hne.
      destruct (decide (Forall (fun t : Task => is_Some (_res t))
                          (_tasks (exec evs)))) as [Hall|Hnot].
      * destruct Hne. symmetry. by apply Hlen.
      * apply not_Forall_Exists in Hnot; [|apply _].
        apply Exists_exists in Hnot as (t & Hin & Hnone).
        exists t. split; [done|].
        destruct (_res t) eqn:Hres; [|done]. destruct Hnone. by eexists.
    + intros (t & Hin & Hnone) Heq. symmetry in Heq. apply Hlen in Heq.
      pose proof (proj1 (Forall_forall _ _) Heq t Hin) as [? ?]. congruence.
Qed.

Lemma task_step_keeps_token (t : Task) :
  (task_step cancel t true).1.2 = true.
Proof.
  unfold task_step. destruct (pc t); simpl; try done. by destruct (cancel t0).
Qed.

Lemma task_step_never_ran (t : Task) :
  never_ran t -> never_ran (task_step cancel t true).1.1.
Proof.
  intros [[Hpc|Hpc] Hres]; unfold task_step; rewrite Hpc; simpl.
  - split; [by right|done].
  - split; [by right|done].
Qed.

(** After a step of anyone, under a set token, a task that never ran still
    never ran. *)
Lemma step_never_ran e ev i t :
  _stop_token e = true ->
  _tasks e !! i = Some t -> never_ran t ->
  _stop_token (step e ev) = true
  /\ exists t', _tasks (step e ev) !! i = Some t' /\ never_ran t'.
Proof.
  intros Htoken Hl Hnr. destruct ev as [callback|j]; simpl.
  - split; [done|]. exists t. split; [|done]. by apply lookup_app_l_Some.
  - unfold run. destruct (_tasks e !! j) as [tj|] eqn:Hj; [|by eauto].
    rewrite Htoken.
    pose proof (task_step_keeps_token tj) as Hkeep.
    destruct (task_step cancel tj true) as [[tj' stop'] signalled] eqn:Hstep.
    simpl in *. split; [done|].
    destruct (decide (j = i)) as [->|Hne].
    + rewrite list_lookup_insert_eq by by eapply lookup_lt_Some.
      exists tj'. split; [done|].
      assert (tj = t) as -> by congruence.
      pose proof (task_step_never_ran t Hnr) as H. by rewrite Hstep in H.
    + rewrite list_lookup_insert_ne by done. by exists t.
Qed.

Lemma collect_stops (l : list Task) i t :
  l !! i = Some t -> _res t = None -> collect l !! i = None.
Proof.
  revert i. induction l as [|t0 l IH]; intros i Hl Hnone; [done|].
  simpl. destruct i as [|i]; simpl in Hl.
  - injection Hl as ->. by rewrite Hnone.
  - destruct (_res t0); [|done]. simpl. by apply IH.
Qed.

(** X23: once the stop token is set, a task that has not started never runs
    its callback: under every continuation it stays queued or ends without a
    result, the token stays set, and [when_all] returns no result at its
    position and [finished = false]. *)
Theorem queued_task_is_skipped evs i t evs' :
  _stop_token (exec evs) = true ->
  _tasks (exec evs) !! i = Some t -> pc t = Queued ->
  (exists t', _tasks (exec (evs ++ evs')) !! i = Some t' /\ never_ran t')
  /\ _stop_token (exec (evs ++ evs')) = true
  /\ forall res finished e',
       when_all (exec (evs ++ evs')) = Some (res, finished, e') ->
       res !! i = None /\ finished = false.
Proof.
  intros Htoken Hl Hpc.
  assert (never_ran t) as Hnr.
  { split; [by left|]. destruct (exec_ok cancel evs) as [_ _ Htasks _].
    pose proof (proj1 (Forall_forall _ _) Htasks t
                  (list_elem_of_lookup_2 _ _ _ Hl)) as Hok.
    unfold task_ok in Hok. by rewrite Hpc in Hok. }
  assert (_stop_token (exec (evs ++ evs')) = true
          /\ exists t', _tasks (exec (evs ++ evs')) !! i = Some t'
                        /\ never_ran t') as [Htoken' (t' & Hl' & Hnr')].
  { induction evs' as [|ev evs' IH] using rev_ind.
    - rewrite app_nil_r. by eauto.
    - rewrite app_assoc, exec_snoc.
      destruct IH as [Ht (t1 & Hl1 & Hnr1)]. by eapply step_never_ran. }
  split; [by eauto|]. split; [done|].
  intros res finished e' Hall. unfold when_all in Hall.
  case_decide; [|done]. injection Hall as <- <- <-.
  destruct Hnr' as [_ Hnone].
  pose proof (collect_stops _ _ _ Hl' Hnone) as Hstop.
  split; [done|]. apply bool_decide_eq_false. intros Hlen.
  apply lookup_ge_None in Hstop. apply lookup_lt_Some in Hl'. lia.
Qed.

(** X24: [when_all] leaves the stop token as the round left it, and
    [reset()], once the tasks of the round are over, gives an executor as
    new: no task, the countdown at 0, the token cleared. *)
Theorem reset_clears_token evs :
  (forall res finished e',
     when_all (exec evs) = Some (res, finished, e') ->
     _stop_token e' = _stop_token (exec evs) /\ _tasks e' = [])
  /\ (forall e, reset (exec evs) = Some e -> e = init).
Proof.
  split.
  - intros res finished e' Hall. unfold when_all in Hall.
    case_decide; [|done]. by injection Hall as <- <- <-.
  - intros e. apply reset_fresh.
Qed.

End ExecutorMore.

Lemma second_cancels_first_fair : fair 2 [0; 0; 0; 0; 1; 1; 1; 1]%nat.
Proof.
  intros i Hi. assert (i = 0 \/ i = 1)%nat as [->| ->] by lia; vm_compute; lia.
Defined.

Lemma when_all_returns_cancelled :
  is_Some (when_all (exec negative
                       (second_cancels_first
                          ++ (Run <$> [0; 0; 0; 0; 1; 1; 1; 1]%nat)))).
Proof.
  apply (when_all_returns negative second_cancels_first).
  exact second_cancels_first_fair.
Defined.

Lemma when_all_returns_prefix_cancelled :
  [] = take (length (@nil Z))
         ((fun callback => callback tt) <$> submitted second_cancels_first)
  /\ (false = false <->
      exists t, t ∈ _tasks (exec negative second_cancels_first)
                /\ _res t = None).
Proof.
  apply (when_all_returns_prefix negative second_cancels_first [] false
           {| _tasks := []; _count := 0; _stop_token := true |}).
  vm_compute. reflexivity.
Defined.

Lemma queued_task_is_skipped_second :
  (exists t',
     _tasks (exec negative (first_cancels ++ [Run 1; Run 0; Run 2; Run 1]))
       !! 1%nat = Some t'
     /\ never_ran t')
  /\ _stop_token (exec negative (first_cancels ++ [Run 1; Run 0; Run 2; Run 1]))
     = true
  /\ forall res finished e',
       when_all (exec negative (first_cancels ++ [Run 1; Run 0; Run 2; Run 1]))
       = Some (res, finished, e') ->
       res !! 1%nat = None /\ finished = false.
Proof.
  apply (queued_task_is_skipped negative first_cancels 1
           {| _callback := fun _ => 2; pc := Queued; _res := None |}).
  - vm_compute. reflexivity.
  - vm_compute. reflexivity.
  - reflexivity.
Defined.

Lemma reset_clears_token_cancelled :
  {| _tasks := @nil (@Task Z); _count := 0; _stop_token := false |} = init.
Proof.
  apply (proj2 (reset_clears_token negative second_cancels_first)).
  vm_compute. reflexivity.
Defined.

Example first_cancels_rest_skipped :
  (fun r => r.1) <$>
    when_all (exec negative
                (first_cancels ++ (Run <$> [0; 1; 2]%nat)))
  = Some ([-1], false).
Proof. vm_compute. reflexivity. Qed.

End SyncExecutorProps.
